(** * dpct: the flow-graph tracking engine (flowgraph.cpp)

    A shallow embedding of [dpct::FlowGraph]: graph construction
    ([addNode], [addArc], [allowMitosis]), the residual refresh
    ([updateArc]), residual-graph initialisation, unit-flow augmentation,
    the enabling state machine, the augment-update loop
    ([maxFlowMinCostTracking]) and the division-flow synchronisation.

    Conventions.
    - Nodes and arcs are lemon [ListDigraph] items, identified by their
      dense ids (naturals, in order of creation).
    - [size_t] values are 64-bit and wrap; [int] values are 32-bit: a
      conversion to [int] wraps, signed overflow is undefined behaviour and
      is a failure of the model.
    - [double] values are modelled by rationals; rounding, NaN and
      arithmetic on infinities are outside the model.  The one place where
      an infinity is needed (the marginal cost outside the cost vector) has
      its own constructors in [Cost].
    - A C++ [assert] that fails, a thrown [std::runtime_error] and undefined
      behaviour all make the modelled function return [None]. *)

From Stdlib Require Import ZArith QArith Lia Lqa Sorted.
From stdpp Require Import base option list sorting gmap.

Set Default Proof Using "Type".
Local Open Scope Z_scope.

(** ** Machine integers *)

Definition wrap64 (z : Z) : Z := z mod 2 ^ 64.

Definition INT_MIN : Z := - 2 ^ 31.
Definition INT_MAX : Z := 2 ^ 31 - 1.

(** Conversion of an unsigned value to [int]. *)
Definition toInt (z : Z) : Z := (z + 2 ^ 31) mod 2 ^ 32 - 2 ^ 31.

(** [x + y] on [int]; overflow is undefined behaviour. *)
Definition addInt (x y : Z) : option Z :=
  let r := x + y in
  if bool_decide (INT_MIN ≤ r ≤ INT_MAX) then Some r else None.

(** ** Control flow: a range-for whose body may fail *)

Fixpoint forEach {A S : Type} (body : S → A → option S) (l : list A) (s : S)
  : option S :=
  match l with
  | [] => Some s
  | x :: l' => s' ← body s x; forEach body l' s'
  end.

(** The state a failing range-for had reached when its body failed: the
    state after the elements before the failing one. *)
Fixpoint forEachPrefix {A S : Type} (body : S → A → option S) (l : list A)
    (s : S) : S :=
  match l with
  | [] => s
  | x :: l' =>
      match body s x with
      | Some s' => forEachPrefix body l' s'
      | None => s
      end
  end.

(** A range-for that stops at the first element for which the body
    reports [Some] (the C++ [break]). *)
Fixpoint findFirst {A : Type} (p : A → bool) (l : list A) : option A :=
  match l with
  | [] => None
  | x :: l' => if p x then Some x else findFirst p l'
  end.

(** ** lemon::ListDigraph *)

Abbreviation Node := nat (only parsing).
Abbreviation Arc := nat (only parsing).

Record Digraph := mkDigraph {
  numNodes : nat;
  arcEnds : list (Node * Node)
}.

Definition emptyDigraph : Digraph := mkDigraph 0 [].

Definition graph_addNode (g : Digraph) : Digraph * Node :=
  (mkDigraph (S (numNodes g)) (arcEnds g), numNodes g).

Definition graph_addArc (g : Digraph) (u v : Node) : Digraph * Arc :=
  (mkDigraph (numNodes g) (arcEnds g ++ [(u, v)]), length (arcEnds g)).

Definition numArcs (g : Digraph) : nat := length (arcEnds g).

Definition arcSource (g : Digraph) (a : Arc) : Node := (arcEnds g !!! a).1.
Definition arcTarget (g : Digraph) (a : Arc) : Node := (arcEnds g !!! a).2.

(** [OutArcIt] / [InArcIt]: a new arc is linked at the head of the out-list
    of its source and of the in-list of its target, so both iterators visit
    the newest arc first. *)
Definition outArcs (g : Digraph) (n : Node) : list Arc :=
  reverse (filter (λ a, arcSource g a = n) (seq 0 (numArcs g))).

Definition inArcs (g : Digraph) (n : Node) : list Arc :=
  reverse (filter (λ a, arcTarget g a = n) (seq 0 (numArcs g))).

(** [ArcIt]: the out-lists of all nodes, newest node first. *)
Definition allArcs (g : Digraph) : list Arc :=
  reverse (seq 0 (numNodes g)) ≫= outArcs g.

(** ** Costs *)

Definition CostVector := list Q.

Inductive Cost :=
| Finite (q : Q)
| PosInf
| NegInf.

(** [-1.0 * c]. *)
Definition negCost (c : Cost) : Cost :=
  match c with
  | Finite q => Finite (- q)%Q
  | PosInf => NegInf
  | NegInf => PosInf
  end.

(** ** The residual graph *)

Inductive Direction := Forward | Backward.

#[global] Instance Direction_eq_dec : EqDecision Direction.
Proof. solve_decision. Defined.

(** Modelled from the spec: the class [ResidualGraph] is not part of the
    sources at hand.  Per base arc it holds a forward and a backward
    residual arc, each with a residual cost and capacity, an enabled flag
    and two sets of tokens (the ids of base nodes). *)
Record ResidualArc := mkResidualArc {
  resCost : Cost;
  resCapacity : Z;
  resEnabled : bool;
  providedTokens : gset nat;
  forbiddenTokens : gset nat
}.

Definition blankResidualArc : ResidualArc :=
  mkResidualArc PosInf 0 false ∅ ∅.

Record ResidualGraph := mkResidualGraph {
  forwardArcs : gmap Arc ResidualArc;
  backwardArcs : gmap Arc ResidualArc;
  useBackArcs : bool;
  useOrderedNodeListInBF : bool
}.

(** Modelled from the spec: the constructor of [ResidualGraph]; no residual
    arc carries a token or is enabled before the flow graph says so. *)
Definition newResidualGraph (useBack useOrdered : bool) : ResidualGraph :=
  mkResidualGraph ∅ ∅ useBack useOrdered.

Definition residualArc (rg : ResidualGraph) (a : Arc) (d : Direction)
  : ResidualArc :=
  default blankResidualArc
    (match d with
     | Forward => forwardArcs rg !! a
     | Backward => backwardArcs rg !! a
     end).

Definition modifyResidualArc (f : ResidualArc → ResidualArc)
    (a : Arc) (d : Direction) (rg : ResidualGraph) : ResidualGraph :=
  match d with
  | Forward =>
      mkResidualGraph (<[a := f (residualArc rg a Forward)]> (forwardArcs rg))
        (backwardArcs rg) (useBackArcs rg) (useOrderedNodeListInBF rg)
  | Backward =>
      mkResidualGraph (forwardArcs rg)
        (<[a := f (residualArc rg a Backward)]> (backwardArcs rg))
        (useBackArcs rg) (useOrderedNodeListInBF rg)
  end.

(** Modelled from the spec: [ResidualGraph::updateArc(a, dir, cost, cap)]
    stores the residual cost and capacity of one residual arc. *)
Definition rg_updateArc (a : Arc) (d : Direction) (c : Cost) (cap : Z)
  : ResidualGraph → ResidualGraph :=
  modifyResidualArc
    (λ r, mkResidualArc c cap (resEnabled r) (providedTokens r)
            (forbiddenTokens r)) a d.

(** Modelled from the spec: [ResidualGraph::enableArc] sets the enabled
    flag of one residual arc. *)
Definition rg_enableArc (a : Arc) (d : Direction) (b : bool)
  : ResidualGraph → ResidualGraph :=
  modifyResidualArc
    (λ r, mkResidualArc (resCost r) (resCapacity r) b (providedTokens r)
            (forbiddenTokens r)) a d.

(** Modelled from the spec: [ResidualGraph::addProvidedToken] adds a token
    to the provided set of one residual arc. *)
Definition rg_addProvidedToken (a : Arc) (d : Direction) (token : nat)
  : ResidualGraph → ResidualGraph :=
  modifyResidualArc
    (λ r, mkResidualArc (resCost r) (resCapacity r) (resEnabled r)
            ({[token]} ∪ providedTokens r) (forbiddenTokens r)) a d.

(** Modelled from the spec: [ResidualGraph::addForbiddenToken] adds a token
    to the forbidden set of one residual arc. *)
Definition rg_addForbiddenToken (a : Arc) (d : Direction) (token : nat)
  : ResidualGraph → ResidualGraph :=
  modifyResidualArc
    (λ r, mkResidualArc (resCost r) (resCapacity r) (resEnabled r)
            (providedTokens r) ({[token]} ∪ forbiddenTokens r)) a d.

(** ** The flow graph

    The member declarations live in [flowgraph.h]; the fields below are
    the members [flowgraph.cpp] reads and writes, with the types its uses
    require: [lemon] arc maps for flow and capacity, [std::map]s for the
    rest. *)

Record FullNode := mkFullNode { fn_u : Node; fn_v : Node; fn_a : Arc }.

Record FlowGraph := mkFlowGraph {
  baseGraph_ : Digraph;
  source_ : Node;
  targets_ : list Node;
  arcCosts_ : gmap Arc CostVector;
  flowMap_ : gmap Arc Z;
  capacityMap_ : gmap Arc Z;
  nodeTimestepMap_ : gmap Node Z;
  intermediateArcs_ : gset Arc;
  parentToDuplicateMap_ : gmap Node Node;
  duplicateToParentMap_ : gmap Node Node;
  residualGraph_ : option ResidualGraph
}.

Definition flowOf (s : FlowGraph) (a : Arc) : Z := default 0 (flowMap_ s !! a).
Definition capacityOf (s : FlowGraph) (a : Arc) : Z :=
  default 0 (capacityMap_ s !! a).
Definition costsOf (s : FlowGraph) (a : Arc) : CostVector :=
  default [] (arcCosts_ s !! a).
Definition timestepOf (s : FlowGraph) (n : Node) : Z :=
  default 0 (nodeTimestepMap_ s !! n).

Definition setBaseGraph (g : Digraph) (s : FlowGraph) : FlowGraph :=
  mkFlowGraph g (source_ s) (targets_ s) (arcCosts_ s) (flowMap_ s)
    (capacityMap_ s) (nodeTimestepMap_ s) (intermediateArcs_ s)
    (parentToDuplicateMap_ s) (duplicateToParentMap_ s) (residualGraph_ s).

Definition setArcCosts (a : Arc) (c : CostVector) (s : FlowGraph) : FlowGraph :=
  mkFlowGraph (baseGraph_ s) (source_ s) (targets_ s) (<[a := c]> (arcCosts_ s))
    (flowMap_ s) (capacityMap_ s) (nodeTimestepMap_ s) (intermediateArcs_ s)
    (parentToDuplicateMap_ s) (duplicateToParentMap_ s) (residualGraph_ s).

Definition setFlow (a : Arc) (f : Z) (s : FlowGraph) : FlowGraph :=
  mkFlowGraph (baseGraph_ s) (source_ s) (targets_ s) (arcCosts_ s)
    (<[a := f]> (flowMap_ s)) (capacityMap_ s) (nodeTimestepMap_ s)
    (intermediateArcs_ s) (parentToDuplicateMap_ s) (duplicateToParentMap_ s)
    (residualGraph_ s).

Definition setCapacity (a : Arc) (k : Z) (s : FlowGraph) : FlowGraph :=
  mkFlowGraph (baseGraph_ s) (source_ s) (targets_ s) (arcCosts_ s)
    (flowMap_ s) (<[a := k]> (capacityMap_ s)) (nodeTimestepMap_ s)
    (intermediateArcs_ s) (parentToDuplicateMap_ s) (duplicateToParentMap_ s)
    (residualGraph_ s).

Definition setTimestep (n : Node) (t : Z) (s : FlowGraph) : FlowGraph :=
  mkFlowGraph (baseGraph_ s) (source_ s) (targets_ s) (arcCosts_ s)
    (flowMap_ s) (capacityMap_ s) (<[n := t]> (nodeTimestepMap_ s))
    (intermediateArcs_ s) (parentToDuplicateMap_ s) (duplicateToParentMap_ s)
    (residualGraph_ s).

Definition addIntermediateArc (a : Arc) (s : FlowGraph) : FlowGraph :=
  mkFlowGraph (baseGraph_ s) (source_ s) (targets_ s) (arcCosts_ s)
    (flowMap_ s) (capacityMap_ s) (nodeTimestepMap_ s)
    ({[a]} ∪ intermediateArcs_ s) (parentToDuplicateMap_ s)
    (duplicateToParentMap_ s) (residualGraph_ s).

Definition setParentToDuplicate (v d : Node) (s : FlowGraph) : FlowGraph :=
  mkFlowGraph (baseGraph_ s) (source_ s) (targets_ s) (arcCosts_ s)
    (flowMap_ s) (capacityMap_ s) (nodeTimestepMap_ s) (intermediateArcs_ s)
    (<[v := d]> (parentToDuplicateMap_ s)) (duplicateToParentMap_ s)
    (residualGraph_ s).

Definition setDuplicateToParent (d v : Node) (s : FlowGraph) : FlowGraph :=
  mkFlowGraph (baseGraph_ s) (source_ s) (targets_ s) (arcCosts_ s)
    (flowMap_ s) (capacityMap_ s) (nodeTimestepMap_ s) (intermediateArcs_ s)
    (parentToDuplicateMap_ s) (<[d := v]> (duplicateToParentMap_ s))
    (residualGraph_ s).

Definition setResidualGraph (rg : option ResidualGraph) (s : FlowGraph)
  : FlowGraph :=
  mkFlowGraph (baseGraph_ s) (source_ s) (targets_ s) (arcCosts_ s)
    (flowMap_ s) (capacityMap_ s) (nodeTimestepMap_ s) (intermediateArcs_ s)
    (parentToDuplicateMap_ s) (duplicateToParentMap_ s) rg.

(** *** Construction *)

(** [FlowGraph::FlowGraph()]. *)
Definition newFlowGraph : FlowGraph :=
  let '(g1, src) := graph_addNode emptyDigraph in
  let '(g2, tgt) := graph_addNode g1 in
  mkFlowGraph g2 src [tgt] ∅ ∅ ∅ (<[tgt := 1]> (<[src := 0]> ∅)) ∅ ∅ ∅ None.

(** [addArc(Node, Node, costs)]. *)
Definition addArc (u v : Node) (costs : CostVector) (s : FlowGraph)
  : option (Arc * FlowGraph) :=
  if bool_decide (0 < length costs)%nat then
    let '(g, a) := graph_addArc (baseGraph_ s) u v in
    Some (a, setCapacity a (toInt (Z.of_nat (length costs)))
               (setFlow a 0 (setArcCosts a costs (setBaseGraph g s))))
  else None.

(** [addArc(FullNode, FullNode, costs)]. *)
Definition addArcBetween (src tgt : FullNode) (costs : CostVector)
    (s : FlowGraph) : option (Arc * FlowGraph) :=
  addArc (fn_v src) (fn_u tgt) costs s.

(** [addNode(costs, timestep)]; [timestep] is a [size_t]. *)
Definition addNode (costs : CostVector) (timestep : Z) (s : FlowGraph)
  : option (FullNode * FlowGraph) :=
  if bool_decide (0 < length costs)%nat then
    let '(g1, u) := graph_addNode (baseGraph_ s) in
    let '(g2, v) := graph_addNode g1 in
    '(a, s1) ← addArc u v costs (setBaseGraph g2 s);
    let s2 := addIntermediateArc a s1 in
    let s3 := setTimestep u (wrap64 (timestep * 2 + 1)) s2 in
    let s4 := setTimestep v (wrap64 (timestep * 2 + 2)) s3 in
    front ← head (targets_ s4);
    let s5 :=
      if bool_decide (timestepOf s4 front ≤ wrap64 (timestep * 2 + 2)) then
        foldl (λ st t, setTimestep t (wrap64 (timestep * 2 + 3)) st)
          s4 (targets_ s4)
      else s4 in
    Some (mkFullNode u v a, s5)
  else None.

(** Modelled from the spec: [isTarget] is declared in [flowgraph.h]; a
    terminal is a member of [targets_]. *)
Definition isTarget (s : FlowGraph) (n : Node) : bool :=
  bool_decide (n ∈ targets_ s).

(** The body of the copy loop of [allowMitosis]. *)
Definition mirrorOutArc (duplicate : Node) (s : FlowGraph) (oa : Arc)
  : option FlowGraph :=
  let w := arcTarget (baseGraph_ s) oa in
  if isTarget s w then Some s
  else
    c0 ← head (costsOf s oa);
    snd <$> addArc duplicate w [c0] s.

(** [allowMitosis(parent, divisionCost)]. *)
Definition allowMitosis (parent : FullNode) (divisionCost : Q) (s : FlowGraph)
  : option (Arc * FlowGraph) :=
  let '(g, duplicate) := graph_addNode (baseGraph_ s) in
  let s1 := setTimestep duplicate (timestepOf s (fn_v parent))
              (setBaseGraph g s) in
  '(a, s2) ← addArc (source_ s1) duplicate [divisionCost] s1;
  s3 ← forEach (mirrorOutArc duplicate)
         (outArcs (baseGraph_ s2) (fn_v parent)) s2;
  Some (a, setDuplicateToParent duplicate (fn_v parent)
             (setParentToDuplicate (fn_v parent) duplicate s3)).

(** *** Residual refresh *)

(** Modelled from the spec: [getArcCost] is declared in [flowgraph.h].  The
    marginal cost of unit [n] is [c[n]] inside the cost vector, plus
    infinity at and beyond its end, minus infinity below zero. *)
Definition getArcCost (s : FlowGraph) (a : Arc) (n : Z) : Cost :=
  if bool_decide (n < 0) then NegInf
  else
    match costsOf s a !! Z.to_nat n with
    | Some q => Finite q
    | None => PosInf
    end.

(** [FlowGraph::updateArc]. *)
Definition updateArc (a : Arc) (s : FlowGraph) : option FlowGraph :=
  let flow := flowOf s a in
  let capacity := capacityOf s a in
  if bool_decide (flow < 0) then None
  else if bool_decide (flow > capacity) then None
  else
    rg ← residualGraph_ s;
    let forwardCost := getArcCost s a flow in
    let rg1 := rg_updateArc a Forward forwardCost (capacity - flow) rg in
    let backwardCost := negCost (getArcCost s a (flow - 1)) in
    let rg2 := rg_updateArc a Backward backwardCost flow rg1 in
    Some (setResidualGraph (Some rg2) s).

(** *** Enabling and disabling residual arcs

    None of the helpers of this subsection is defined in [flowgraph.cpp];
    they follow the table of the enabling state machine. *)

(** Modelled from the spec: [FlowGraph::enableArc(a, state)] switches both
    residual arcs of the base arc [a]. *)
Definition enableArc (a : Arc) (state : bool) (s : FlowGraph)
  : option FlowGraph :=
  rg ← residualGraph_ s;
  Some (setResidualGraph
          (Some (rg_enableArc a Backward state
                   (rg_enableArc a Forward state rg))) s).

Definition enableArcs (l : list Arc) (state : bool) (s : FlowGraph)
  : option FlowGraph :=
  forEach (λ st a, enableArc a state st) l s.

(** Modelled from the spec: the flow entering a node. *)
Definition sumInFlow (s : FlowGraph) (n : Node) : Z :=
  foldr (λ a acc, flowOf s a + acc) 0 (inArcs (baseGraph_ s) n).

(** Modelled from the spec: the flow leaving a node. *)
Definition sumOutFlow (s : FlowGraph) (n : Node) : Z :=
  foldr (λ a acc, flowOf s a + acc) 0 (outArcs (baseGraph_ s) n).

(** Modelled from the spec: enabling a division enables all arcs out of the
    duplicate, disabling it disables them. *)
Definition toggleDivision (div target : Node) (value : bool) (s : FlowGraph)
  : option FlowGraph :=
  enableArcs (outArcs (baseGraph_ s) div) value s.

(** Modelled from the spec: switch all out-arcs of a node. *)
Definition toggleOutArcs (n : Node) (value : bool) (s : FlowGraph)
  : option FlowGraph :=
  enableArcs (outArcs (baseGraph_ s) n) value s.

(** Modelled from the spec: switch all out-arcs of a node except the
    disappearance arcs. *)
Definition toggleOutArcsButTarget (n : Node) (value : bool) (s : FlowGraph)
  : option FlowGraph :=
  enableArcs
    (filter (λ oa, isTarget s (arcTarget (baseGraph_ s) oa) = false)
       (outArcs (baseGraph_ s) n)) value s.

(** Modelled from the spec: switch every in-arc of [n] that does not come
    from [exception]. *)
Definition toggleInArcsBut (n exception : Node) (value : bool) (s : FlowGraph)
  : option FlowGraph :=
  enableArcs
    (filter (λ ia, arcSource (baseGraph_ s) ia ≠ exception)
       (inArcs (baseGraph_ s) n)) value s.

(** Modelled from the spec: switch every out-arc of [n] that does not lead
    to [exception]. *)
Definition toggleOutArcsBut (n exception : Node) (value : bool) (s : FlowGraph)
  : option FlowGraph :=
  enableArcs
    (filter (λ oa, arcTarget (baseGraph_ s) oa ≠ exception)
       (outArcs (baseGraph_ s) n)) value s.

(** Modelled from the spec: switch the disappearance arcs of a node. *)
Definition toggleDisappearanceArc (n : Node) (value : bool) (s : FlowGraph)
  : option FlowGraph :=
  enableArcs
    (filter (λ oa, isTarget s (arcTarget (baseGraph_ s) oa) = true)
       (outArcs (baseGraph_ s) n)) value s.

(** Modelled from the spec: switch the appearance arcs of a node. *)
Definition toggleAppearanceArc (n : Node) (value : bool) (s : FlowGraph)
  : option FlowGraph :=
  enableArcs
    (filter (λ ia, arcSource (baseGraph_ s) ia = source_ s)
       (inArcs (baseGraph_ s) n)) value s.

(** The branches of [updateEnabledArc] that follow its first test: a used
    or unused division arc, an appearance arc, a disappearance arc. *)
Definition updateEnabledArcElse (a : Arc) (source target : Node)
    (s : FlowGraph) : option FlowGraph :=
  match duplicateToParentMap_ s !! target with
  | Some parent =>
      if bool_decide (flowOf s a = 1)
      then toggleOutArcs parent false s
      else toggleOutArcsButTarget parent true s
  | None =>
      if bool_decide (source = source_ s)
      then toggleInArcsBut target source (bool_decide (flowOf s a = 0)) s
      else if isTarget s target
      then toggleOutArcsBut source target (bool_decide (flowOf s a = 0)) s
      else Some s
  end.

(** [FlowGraph::updateEnabledArc]. *)
Definition updateEnabledArc (a : Arc) (s : FlowGraph) : option FlowGraph :=
  let source := arcSource (baseGraph_ s) a in
  let target := arcTarget (baseGraph_ s) a in
  s1 ←
    match parentToDuplicateMap_ s !! source with
    | Some dup =>
        if negb (isTarget s target)
        then toggleDivision dup target (bool_decide (sumInFlow s source = 1)) s
        else updateEnabledArcElse a source target s
    | None => updateEnabledArcElse a source target s
    end;
  if bool_decide (source ≠ source_ s1) && negb (isTarget s1 target)
     && bool_decide (a ∉ intermediateArcs_ s1)
  then
    s2 ← toggleDisappearanceArc source
           (bool_decide (sumOutFlow s1 source = 0)) s1;
    toggleAppearanceArc target (bool_decide (sumInFlow s2 target = 0)) s2
  else Some s1.

(** [FlowGraph::updateEnabledArcs]. *)
Definition updateEnabledArcs (p : list (Arc * Z)) (s : FlowGraph)
  : option FlowGraph :=
  forEach (λ st af, updateEnabledArc af.1 st) p s.

(** *** Residual-graph initialisation *)

(** The body of the first loop of [initializeResidualGraph]. *)
Definition initializeArc (s : FlowGraph) (a : Arc) : option FlowGraph :=
  s1 ← updateArc a s;
  s2 ← enableArc a true s1;
  rg ← residualGraph_ s2;
  let target := arcTarget (baseGraph_ s2) a in
  match duplicateToParentMap_ s2 !! target with
  | Some parent =>
      Some (setResidualGraph
              (Some (rg_addProvidedToken a Forward parent rg)) s2)
  | None =>
      match parentToDuplicateMap_ s2 !! target with
      | Some _ =>
          Some (setResidualGraph
                  (Some (rg_addForbiddenToken a Backward target rg)) s2)
      | None => Some s2
      end
  end.

(** [FlowGraph::initializeResidualGraph]. *)
Definition initializeResidualGraph (useBack useOrdered : bool) (s : FlowGraph)
  : option FlowGraph :=
  let s0 := setResidualGraph (Some (newResidualGraph useBack useOrdered)) s in
  s1 ← forEach initializeArc (allArcs (baseGraph_ s0)) s0;
  forEach (λ st a, updateEnabledArc a st) (allArcs (baseGraph_ s1)) s1.

(** The object as a throwing [initializeResidualGraph] leaves it: the
    residual graph exists and holds the arcs visited before the one whose
    [updateArc] threw; [updateArc] throws before it writes. *)
Definition initializeThrown (useBack useOrdered : bool) (s : FlowGraph)
  : FlowGraph :=
  let s0 := setResidualGraph (Some (newResidualGraph useBack useOrdered)) s in
  forEachPrefix initializeArc (allArcs (baseGraph_ s0)) s0.

(** *** Augmentation *)

Definition Path := list (Arc * Z).

Definition sameTarget (g : Digraph) (a : Arc) (oa : Arc) : bool :=
  bool_decide (arcTarget g oa = arcTarget g a).

(** The body of the loop of [augmentUnitFlow]. *)
Definition augmentArc (s : FlowGraph) (af : Arc * Z) : option FlowGraph :=
  let '(a, delta) := af in
  f ← addInt (flowOf s a) delta;
  s1 ← updateArc a (setFlow a f s);
  let g := baseGraph_ s1 in
  match duplicateToParentMap_ s1 !! arcSource g a with
  | Some parent =>
      match findFirst (sameTarget g a) (outArcs g parent) with
      | Some oa =>
          f' ← addInt (flowOf s1 oa) delta;
          updateArc oa (setFlow oa f' s1)
      | None => Some s1
      end
  | None =>
      match parentToDuplicateMap_ s1 !! arcSource g a with
      | Some dup =>
          match findFirst (sameTarget g a) (outArcs g dup) with
          | Some oa => updateArc oa (setFlow oa (Z.min (flowOf s1 a) 1) s1)
          | None => Some s1
          end
      | None => Some s1
      end
  end.

(** [FlowGraph::augmentUnitFlow]. *)
Definition augmentUnitFlow (p : Path) (s : FlowGraph) : option FlowGraph :=
  forEach augmentArc p s.

(** The object as a failing loop body leaves it.  [updateArc] throws after
    the flow of its arc has been written, so the write stays; the residual
    graph is not refreshed.  Where the failure is the overflow of an [int]
    (undefined behaviour) the model stops before the write. *)
Definition augmentArcThrown (s : FlowGraph) (af : Arc * Z) : FlowGraph :=
  let '(a, delta) := af in
  match addInt (flowOf s a) delta with
  | None => s
  | Some f =>
      match updateArc a (setFlow a f s) with
      | None => setFlow a f s
      | Some s1 =>
          let g := baseGraph_ s1 in
          match duplicateToParentMap_ s1 !! arcSource g a with
          | Some parent =>
              match findFirst (sameTarget g a) (outArcs g parent) with
              | Some oa =>
                  match addInt (flowOf s1 oa) delta with
                  | Some f' => setFlow oa f' s1
                  | None => s1
                  end
              | None => s1
              end
          | None =>
              match parentToDuplicateMap_ s1 !! arcSource g a with
              | Some dup =>
                  match findFirst (sameTarget g a) (outArcs g dup) with
                  | Some oa => setFlow oa (Z.min (flowOf s1 a) 1) s1
                  | None => s1
                  end
              | None => s1
              end
          end
      end
  end.

(** The object as [augmentUnitFlow] leaves it when it throws: the arcs
    before the failing one are augmented, the failing one is left as
    [augmentArcThrown] says. *)
Fixpoint augmentUnitFlowThrown (p : Path) (s : FlowGraph) : FlowGraph :=
  match p with
  | [] => s
  | af :: p' =>
      match augmentArc s af with
      | Some s1 => augmentUnitFlowThrown p' s1
      | None => augmentArcThrown s af
      end
  end.

(** *** Synchronising the flows of a parent and its duplicate *)

(** The body of the loop over the out-arcs of the parent. *)
Definition synchronizeOutArc (dup : Node) (s : FlowGraph) (oa : Arc)
  : FlowGraph :=
  let g := baseGraph_ s in
  let origFlow := flowOf s oa in
  match findFirst (sameTarget g oa) (outArcs g dup) with
  | Some duplicateOa =>
      let duplicateFlow := flowOf s duplicateOa in
      let flow := Z.max origFlow duplicateFlow in
      setFlow oa flow (setFlow duplicateOa (Z.min flow 1) s)
  | None => s
  end.

(** The body of the loop over [parentToDuplicateMap_]. *)
Definition synchronizePair (s : FlowGraph) (coupled : Node * Node)
  : FlowGraph :=
  foldl (synchronizeOutArc coupled.2) s (outArcs (baseGraph_ s) coupled.1).

(** The order in which a [std::map<Node, Node>] is walked. *)
Definition keyLe (x y : Node * Node) : Prop := (x.1 ≤ y.1)%nat.

#[global] Instance keyLe_dec : RelDecision keyLe :=
  λ x y, decide (x.1 ≤ y.1)%nat.

Definition coupledNodes (s : FlowGraph) : list (Node * Node) :=
  merge_sort keyLe (map_to_list (parentToDuplicateMap_ s)).

(** [FlowGraph::synchronizeDivisionDuplicateArcFlows]. *)
Definition synchronizeDivisionDuplicateArcFlows (s : FlowGraph) : FlowGraph :=
  foldl synchronizePair s (coupledNodes s).

(** *** The augment-update loop *)

(** The cost of a path as the loop reads it: a [double] that is a number,
    or NaN.  Numbers are rationals and sums of them are exact, where the
    program's [double]s round; infinite costs are not modelled. *)
Inductive PathCost :=
| Number (q : Q)
| NaN.

Definition ShortestPathResult := (Path * PathCost)%type.

(** [-0.00000001]. *)
Definition tolerance : Q := - (1 # 100000000).

Definition Qltb (x y : Q) : bool := if Qlt_le_dec x y then true else false.

(** [c > -0.00000001]; every comparison with NaN is false. *)
Definition aboveTolerance (c : PathCost) : bool :=
  match c with
  | Number q => Qltb tolerance q
  | NaN => false
  end.

(** [c < 0.0]. *)
Definition belowZero (c : PathCost) : bool :=
  match c with
  | Number q => Qltb q 0
  | NaN => false
  end.

(** [currentEnergy += c].  The loop adds a cost only after [c < 0.0] held,
    so NaN is never added. *)
Definition addCost (energy : Q) (c : PathCost) : Q :=
  match c with
  | Number q => (energy + q)%Q
  | NaN => energy
  end.

(** The local variables of [maxFlowMinCostTracking] next to the graph.
    [tr_energyLog] is what the debug message at the end of every iteration
    prints ("system Energy="), newest first; [tr_augmentations] is not a
    variable of the program: it counts the calls of [augmentUnitFlow] that
    returned. *)
Record Tracking := mkTracking {
  tr_graph : FlowGraph;
  tr_result : ShortestPathResult;
  tr_iter : Z;
  tr_currentEnergy : Q;
  tr_energyLog : list Q;
  tr_augmentations : nat
}.

(** How a run ends: the loop is left and [currentEnergy] returned, an
    exception (or undefined behaviour) ends the call, or the model ran out
    of fuel while the loop was still going.  [Aborted] carries the object
    as the exception leaves it. *)
Inductive Outcome :=
| Finished (t : Tracking)
| Aborted (t : Tracking)
| OutOfFuel (t : Tracking).

Definition trackingOf (o : Outcome) : Tracking :=
  match o with Finished t | Aborted t | OutOfFuel t => t end.

(** [result.first.size() > 0 && result.second < 0.0]. *)
Definition negativePath (r : ShortestPathResult) : bool :=
  bool_decide (0 < length r.1)%nat && belowZero r.2.

(** Whether the call ended in an exception. *)
Definition threw (o : Outcome) : bool :=
  match o with
  | Aborted _ => true
  | Finished _ | OutOfFuel _ => false
  end.

Section Tracking.
(** [ResidualGraph::findShortestPath(targets, partialBFUpdates)]: the
    constrained shortest-path search belongs to the residual graph and is
    a parameter of the loop. *)
Variable findShortestPath :
  ResidualGraph → list Node → bool → ShortestPathResult.

Variable maxNumPaths : Z.
Variable partialBFUpdates : bool.

(** [maxNumPaths < 1 || iter < maxNumPaths]. *)
Definition underCap (iter : Z) : bool :=
  bool_decide (maxNumPaths < 1) || bool_decide (iter < maxNumPaths).

(** The [do ... while] loop; one unit of fuel per iteration. *)
Fixpoint trackingLoop (fuel : nat) (t : Tracking) : Outcome :=
  match fuel with
  | O => OutOfFuel t
  | S fuel' =>
      match residualGraph_ (tr_graph t) with
      | None => Aborted t
      | Some rg =>
          let result :=
            findShortestPath rg (targets_ (tr_graph t)) partialBFUpdates in
          let seen :=
            mkTracking (tr_graph t) result (tr_iter t) (tr_currentEnergy t)
              (tr_energyLog t) (tr_augmentations t) in
          if aboveTolerance result.2 then Finished seen
          else if negativePath result then
            match augmentUnitFlow result.1 (tr_graph t) with
            | None =>
                Aborted
                  (mkTracking (augmentUnitFlowThrown result.1 (tr_graph t))
                     result (tr_iter t) (tr_currentEnergy t) (tr_energyLog t)
                     (tr_augmentations t))
            | Some s1 =>
                match updateEnabledArcs result.1 s1 with
                | None =>
                    Aborted
                      (mkTracking s1 result (tr_iter t) (tr_currentEnergy t)
                         (tr_energyLog t) (tr_augmentations t))
                | Some g =>
                    let energy := addCost (tr_currentEnergy t) result.2 in
                    let iter := wrap64 (tr_iter t + 1) in
                    let t' :=
                      mkTracking g result iter energy
                        (energy :: tr_energyLog t) (S (tr_augmentations t)) in
                    if underCap iter then trackingLoop fuel' t'
                    else Finished t'
                end
            end
          else
            Finished
              (mkTracking (tr_graph t) result (wrap64 (tr_iter t + 1))
                 (tr_currentEnergy t)
                 (tr_currentEnergy t :: tr_energyLog t)
                 (tr_augmentations t))
      end
  end.

(** [FlowGraph::maxFlowMinCostTracking]. *)
Definition maxFlowMinCostTracking (fuel : nat) (initialStateEnergy : Q)
    (useBack useOrdered : bool) (s : FlowGraph) : Outcome :=
  let start g := mkTracking g ([], Number 0) 0 initialStateEnergy [] O in
  match residualGraph_ s with
  | Some _ => trackingLoop fuel (start s)
  | None =>
      match initializeResidualGraph useBack useOrdered s with
      | Some s1 => trackingLoop fuel (start s1)
      | None => Aborted (start (initializeThrown useBack useOrdered s))
      end
  end.
End Tracking.

(** ** Worked examples

    Graphs built with the construction interface; they are the concrete
    inputs of the examples below. *)

Definition built {A : Type} (o : option (A * FlowGraph)) : FlowGraph :=
  default newFlowGraph (snd <$> o).

(** One detection (nodes 2 and 3, arc 0). *)
Definition oneDetection : FlowGraph :=
  built (addNode [(-2)%Q] 0 newFlowGraph).

Definition detectionA : FullNode := mkFullNode 2 3 0.
Definition detectionB : FullNode := mkFullNode 4 5 1.

(** A parent A and a child B: appearance of A (arc 2), the move A→B
    (arc 3), disappearance of B (arc 4); then mitosis of A is allowed:
    duplicate 6, division arc 5, mirror arc 6. *)
Definition divisionGraph : FlowGraph :=
  built
    ('(_, s) ← addNode [(-2)%Q] 0 newFlowGraph;
     '(_, s) ← addNode [(-3)%Q] 1 s;
     '(_, s) ← addArc (source_ s) (fn_u detectionA) [1%Q] s;
     '(_, s) ← addArcBetween detectionA detectionB [0%Q] s;
     '(_, s) ← addArc (fn_v detectionB) 1%nat [1%Q] s;
     allowMitosis detectionA (-4)%Q s).


(** ** Timesteps of a graph under construction *)

(** A detection node is an end of an intermediate arc. *)
Definition detectionNode (s : FlowGraph) (n : Node) : Prop :=
  ∃ a, a ∈ intermediateArcs_ s ∧
       (n = arcSource (baseGraph_ s) a ∨ n = arcTarget (baseGraph_ s) a).

(** All targets carry one timestep, above that of every detection node. *)
Definition targetsLast (s : FlowGraph) : Prop :=
  ∃ T, (∀ t, t ∈ targets_ s → timestepOf s t = T) ∧
       (∀ n, detectionNode s n → timestepOf s n < T).

(** The graphs the construction interface produces when no timestep
    handed to [addNode] makes [timestep * 2 + 3] wrap. *)
Inductive constructedInRange : FlowGraph → Prop :=
| constructed_new : constructedInRange newFlowGraph
| constructed_addNode s costs t f s' :
    constructedInRange s → 0 ≤ t → t * 2 + 3 < 2 ^ 64 →
    addNode costs t s = Some (f, s') → constructedInRange s'
| constructed_addArc s u v costs a s' :
    constructedInRange s → addArc u v costs s = Some (a, s') →
    constructedInRange s'
| constructed_allowMitosis s parent divisionCost a s' :
    constructedInRange s →
    allowMitosis parent divisionCost s = Some (a, s') →
    constructedInRange s'.

(** What construction maintains next to [targetsLast]: the targets and the
    ends of the intermediate arcs are nodes of the graph. *)
Definition wellBuilt (s : FlowGraph) : Prop :=
  targets_ s ≠ [] ∧
  (∀ t, t ∈ targets_ s → (t < numNodes (baseGraph_ s))%nat) ∧
  (∀ a, a ∈ intermediateArcs_ s →
        (a < numArcs (baseGraph_ s))%nat ∧
        (arcSource (baseGraph_ s) a < numNodes (baseGraph_ s))%nat ∧
        (arcTarget (baseGraph_ s) a < numNodes (baseGraph_ s))%nat) ∧
  targetsLast s.

(** [s'] has the nodes, arcs and labels of [s] and possibly more nodes and
    arcs; targets and intermediate arcs are those of [s]. *)
Definition extends (s s' : FlowGraph) : Prop :=
  source_ s' = source_ s ∧
  targets_ s' = targets_ s ∧
  intermediateArcs_ s' = intermediateArcs_ s ∧
  (numNodes (baseGraph_ s) ≤ numNodes (baseGraph_ s'))%nat ∧
  (∃ extra, arcEnds (baseGraph_ s') = arcEnds (baseGraph_ s) ++ extra) ∧
  (∀ n, (n < numNodes (baseGraph_ s))%nat → timestepOf s' n = timestepOf s n).

(** One detection added at the largest timestep whose double still fits
    a [size_t] after adding one. *)
Definition lateDetection : FlowGraph :=
  built (addNode [1%Q] (2 ^ 63 - 1) newFlowGraph).

(** ** Energies *)

(** The energies printed so far, newest first, followed by the initial
    energy, never increase from one iteration to the next. *)
Definition energyDescends (initial : Q) (log : list Q) : Prop :=
  Sorted Qle (log ++ [initial]).

(** A search that answers [r] as long as the forward residual arc of [a]
    has capacity left, and finds nothing afterwards. *)
Definition searchWhileFree (a : Arc) (r : ShortestPathResult)
  : ResidualGraph → list Node → bool → ShortestPathResult :=
  λ rg _ _,
    if bool_decide (0 < resCapacity (residualArc rg a Forward)) then r
    else ([], Number 0).

(** The track source → A → B → target on [divisionGraph]. *)
Definition trackAB : ShortestPathResult :=
  ([(2%nat, 1); (0%nat, 1); (3%nat, 1); (1%nat, 1); (4%nat, 1)],
   Number (-3)).

(** ** What the residual bookkeeping leaves alone *)

(** [s] and [s'] differ at most in the residual graph. *)
Definition sameBase (s s' : FlowGraph) : Prop :=
  setResidualGraph None s' = setResidualGraph None s.

(** No token is ever taken away from a residual arc. *)
Definition tokensKept (rg rg' : ResidualGraph) : Prop :=
  ∀ a d,
    providedTokens (residualArc rg a d) ⊆ providedTokens (residualArc rg' a d) ∧
    forbiddenTokens (residualArc rg a d) ⊆ forbiddenTokens (residualArc rg' a d).

(** A step of residual bookkeeping: the base graph is untouched, a residual
    graph exists before and after, and it keeps its tokens. *)
Definition residualStep (s s' : FlowGraph) : Prop :=
  sameBase s s' ∧
  ∃ rg rg', residualGraph_ s = Some rg ∧ residualGraph_ s' = Some rg' ∧
            tokensKept rg rg'.

(** [divisionGraph] after [initializeResidualGraph]. *)
Definition initialisedDivisionGraph : FlowGraph :=
  default divisionGraph (initializeResidualGraph true true divisionGraph).

(** ** Division pairs *)

(** The arc of the duplicate that the loops pair with the arc [oa] of the
    parent (or the other way round): the first out-arc with the target of
    [oa]. *)
Definition partner (g : Digraph) (n : Node) (oa : Arc) : option Arc :=
  findFirst (sameTarget g oa) (outArcs g n).

(** No two out-arcs of [n] lead to the same node. *)
Definition distinctTargets (g : Digraph) (n : Node) : Prop :=
  NoDup (arcTarget g <$> outArcs g n).

(** The two maps are inverse to each other and no duplicate is a parent. *)
Definition divisionMapsWF (s : FlowGraph) : Prop :=
  (∀ v d, parentToDuplicateMap_ s !! v = Some d →
          duplicateToParentMap_ s !! d = Some v) ∧
  (∀ d v, duplicateToParentMap_ s !! d = Some v →
          parentToDuplicateMap_ s !! v = Some d) ∧
  (∀ d v, duplicateToParentMap_ s !! d = Some v →
          parentToDuplicateMap_ s !! d = None).

(** Neither a parent nor its duplicate has parallel out-arcs. *)
Definition simpleDivisions (s : FlowGraph) : Prop :=
  ∀ v d, parentToDuplicateMap_ s !! v = Some d →
         distinctTargets (baseGraph_ s) v ∧ distinctTargets (baseGraph_ s) d.

(** ** Auxiliary notions of the proofs *)

(** [addNode] spelled out: the graph before the targets are relabelled,
    and the relabelling. *)
Definition addNodeBeforeRelabel (costs : CostVector) (t : Z) (s : FlowGraph)
  : FlowGraph :=
  let u := numNodes (baseGraph_ s) in
  let a := numArcs (baseGraph_ s) in
  setTimestep (S u) (wrap64 (t * 2 + 2))
    (setTimestep u (wrap64 (t * 2 + 1))
       (addIntermediateArc a
          (setCapacity a (toInt (Z.of_nat (length costs)))
             (setFlow a 0
                (setArcCosts a costs
                   (setBaseGraph
                      (mkDigraph (S (S u))
                         (arcEnds (baseGraph_ s) ++ [(u, S u)])) s)))))).

(** What the two loops of [initializeResidualGraph] leave on the residual
    arcs of an arc [a] they visit. *)
Definition divisionTokensAt (s : FlowGraph) (rg : ResidualGraph) (a : Arc)
  : Prop :=
  (∀ v, duplicateToParentMap_ s !! arcTarget (baseGraph_ s) a = Some v →
        v ∈ providedTokens (residualArc rg a Forward)) ∧
  (duplicateToParentMap_ s !! arcTarget (baseGraph_ s) a = None →
   is_Some (parentToDuplicateMap_ s !! arcTarget (baseGraph_ s) a) →
   arcTarget (baseGraph_ s) a ∈ forbiddenTokens (residualArc rg a Backward)).


(** ** Flows and the residual graph *)

(** Every arc of [arcs] carries a flow between zero and its capacity. *)
Definition feasibleOn (arcs : list Arc) (s : FlowGraph) : Prop :=
  ∀ a, a ∈ arcs → 0 ≤ flowOf s a ≤ capacityOf s a.

(** The two residual arcs of [a] are what [updateArc] computes from the
    present flow of [a]. *)
Definition refreshed (s : FlowGraph) (rg : ResidualGraph) (a : Arc) : Prop :=
  resCapacity (residualArc rg a Forward) = capacityOf s a - flowOf s a ∧
  resCost (residualArc rg a Forward) = getArcCost s a (flowOf s a) ∧
  resCapacity (residualArc rg a Backward) = flowOf s a ∧
  resCost (residualArc rg a Backward) =
    negCost (getArcCost s a (flowOf s a - 1)).

(** The residual graph is up to date on a set of arcs. *)
Definition residualUpToDate (arcs : list Arc) (s : FlowGraph) : Prop :=
  ∃ rg, residualGraph_ s = Some rg ∧ ∀ a, a ∈ arcs → refreshed s rg a.

(** Two residual graphs that differ at most in enabled flags. *)
Definition sameButEnabled (rg rg' : ResidualGraph) : Prop :=
  ∀ a d,
    resCost (residualArc rg' a d) = resCost (residualArc rg a d) ∧
    resCapacity (residualArc rg' a d) = resCapacity (residualArc rg a d) ∧
    providedTokens (residualArc rg' a d) = providedTokens (residualArc rg a d) ∧
    forbiddenTokens (residualArc rg' a d) =
      forbiddenTokens (residualArc rg a d).

(** A step that switches residual arcs on or off and does nothing else. *)
Definition enablingStep (s s' : FlowGraph) : Prop :=
  sameBase s s' ∧
  ∃ rg rg', residualGraph_ s = Some rg ∧ residualGraph_ s' = Some rg' ∧
            sameButEnabled rg rg'.

(** [s'] has the graph, costs, capacities, labels and division maps of
    [s]; flows and the residual graph may differ. *)
Definition sameNetwork (s s' : FlowGraph) : Prop :=
  baseGraph_ s' = baseGraph_ s ∧ source_ s' = source_ s ∧
  targets_ s' = targets_ s ∧ arcCosts_ s' = arcCosts_ s ∧
  capacityMap_ s' = capacityMap_ s ∧
  nodeTimestepMap_ s' = nodeTimestepMap_ s ∧
  intermediateArcs_ s' = intermediateArcs_ s ∧
  parentToDuplicateMap_ s' = parentToDuplicateMap_ s ∧
  duplicateToParentMap_ s' = duplicateToParentMap_ s.

(** The token [initializeResidualGraph] puts on the forward residual arc
    of [a]: the parent, when the target of [a] is a duplicate. *)
Definition expectedProvided (s : FlowGraph) (a : Arc) : gset nat :=
  match duplicateToParentMap_ s !! arcTarget (baseGraph_ s) a with
  | Some parent => {[parent]}
  | None => ∅
  end.

(** The token it puts on the backward residual arc of [a]: the target of
    [a], when that is a parent and not a duplicate. *)
Definition expectedForbidden (s : FlowGraph) (a : Arc) : gset nat :=
  match duplicateToParentMap_ s !! arcTarget (baseGraph_ s) a with
  | Some _ => ∅
  | None =>
      match parentToDuplicateMap_ s !! arcTarget (baseGraph_ s) a with
      | Some _ => {[arcTarget (baseGraph_ s) a]}
      | None => ∅
      end
  end.

(** The tokens on the residual arcs of [a] are exactly the division
    tokens. *)
Definition divisionTokensExactly (s : FlowGraph) (rg : ResidualGraph) (a : Arc)
  : Prop :=
  providedTokens (residualArc rg a Forward) = expectedProvided s a ∧
  forbiddenTokens (residualArc rg a Backward) = expectedForbidden s a ∧
  providedTokens (residualArc rg a Backward) = ∅ ∧
  forbiddenTokens (residualArc rg a Forward) = ∅.

(** [initialisedDivisionGraph] after the track source → A → B → target. *)
Definition trackedDivisionGraph : FlowGraph :=
  default initialisedDivisionGraph
    (augmentUnitFlow trackAB.1 initialisedDivisionGraph).

(** What the loop keeps about the graph [s0] it started from, on the arcs
    [l]: flows within the capacities, an up-to-date residual graph, and the
    network itself. *)
Definition trackingInvariant (s0 : FlowGraph) (l : list Arc) (s : FlowGraph)
  : Prop :=
  feasibleOn l s ∧ residualUpToDate l s ∧ sameNetwork s0 s.

(** ** Construction: what is added *)

(** [s'] is [s] with the arcs [extra] (ends and cost vector) appended:
    each new arc has flow zero and the length of its cost vector as
    capacity; nodes, old arcs and everything else are those of [s]. *)
Definition arcsAppended (s s' : FlowGraph)
    (extra : list (Node * Node * CostVector)) : Prop :=
  numNodes (baseGraph_ s') = numNodes (baseGraph_ s) ∧
  arcEnds (baseGraph_ s') = arcEnds (baseGraph_ s) ++ extra.*1 ∧
  source_ s' = source_ s ∧ targets_ s' = targets_ s ∧
  nodeTimestepMap_ s' = nodeTimestepMap_ s ∧
  intermediateArcs_ s' = intermediateArcs_ s ∧
  parentToDuplicateMap_ s' = parentToDuplicateMap_ s ∧
  duplicateToParentMap_ s' = duplicateToParentMap_ s ∧
  residualGraph_ s' = residualGraph_ s ∧
  (∀ a, (a < numArcs (baseGraph_ s))%nat →
        costsOf s' a = costsOf s a ∧ flowOf s' a = flowOf s a ∧
        capacityOf s' a = capacityOf s a) ∧
  (∀ i e, extra !! i = Some e →
          costsOf s' (numArcs (baseGraph_ s) + i) = e.2 ∧
          flowOf s' (numArcs (baseGraph_ s) + i) = 0 ∧
          capacityOf s' (numArcs (baseGraph_ s) + i) =
            toInt (Z.of_nat (length e.2))).

(** The arcs [allowMitosis] copies for the duplicate [d]: one per out-arc
    of the parent that does not end in a target, with the first marginal
    cost of the original as its only cost. *)
Definition mirrorArcs (s : FlowGraph) (d : Node) (l : list Arc)
  : list (Node * Node * CostVector) :=
  (λ oa, (d, arcTarget (baseGraph_ s) oa, [default 0%Q (head (costsOf s oa))]))
    <$> filter (λ oa, isTarget s (arcTarget (baseGraph_ s) oa) = false) l.

(** [divisionGraph] before mitosis is allowed. *)
Definition parentAndChild : FlowGraph :=
  built
    ('(_, s) ← addNode [(-2)%Q] 0 newFlowGraph;
     '(_, s) ← addNode [(-3)%Q] 1 s;
     '(_, s) ← addArc (source_ s) (fn_u detectionA) [1%Q] s;
     '(_, s) ← addArcBetween detectionA detectionB [0%Q] s;
     addArc (fn_v detectionB) 1%nat [1%Q] s).

(** The pairs of the division map are nodes of the graph. *)
Definition divisionNodesExist (s : FlowGraph) : Prop :=
  ∀ v d, parentToDuplicateMap_ s !! v = Some d →
         (v < numNodes (baseGraph_ s))%nat ∧ (d < numNodes (baseGraph_ s))%nat.

(** The coupling of a parent and its duplicate: on arcs to a common
    target, the duplicate carries [min(flow of the parent arc, 1)]. *)
Definition coupled (s : FlowGraph) : Prop :=
  ∀ v d oa da,
    parentToDuplicateMap_ s !! v = Some d →
    oa ∈ outArcs (baseGraph_ s) v → da ∈ outArcs (baseGraph_ s) d →
    arcTarget (baseGraph_ s) oa = arcTarget (baseGraph_ s) da →
    flowOf s da = Z.min (flowOf s oa) 1.

(** A parent arc and a duplicate arc that the division map pairs. *)
Definition pairedArcs (s : FlowGraph) (oa da : Arc) : Prop :=
  ∃ v d,
    parentToDuplicateMap_ s !! v = Some d ∧
    oa ∈ outArcs (baseGraph_ s) v ∧ da ∈ outArcs (baseGraph_ s) d ∧
    arcTarget (baseGraph_ s) oa = arcTarget (baseGraph_ s) da.

(** [divisionGraph] with one unit of flow on the move A → B (arc 3). *)
Definition unsynchronisedGraph : FlowGraph := setFlow 3 1 divisionGraph.

(** Every out-arc of a duplicate has capacity at most one. *)
Definition duplicateArcsUnit (s : FlowGraph) : Prop :=
  ∀ d v da, duplicateToParentMap_ s !! d = Some v →
            da ∈ outArcs (baseGraph_ s) d → capacityOf s da ≤ 1.

(** A path element that [augmentArc] can take without breaking the
    coupling: an arc of the graph, and, when it leaves a duplicate and is
    taken backwards, one whose parent arc carries at most one unit. *)
Definition safeStep (s : FlowGraph) (af : Arc * Z) : Prop :=
  (af.1 < numArcs (baseGraph_ s))%nat ∧
  ∀ parent oa,
    duplicateToParentMap_ s !! arcSource (baseGraph_ s) af.1 = Some parent →
    oa ∈ outArcs (baseGraph_ s) parent →
    arcTarget (baseGraph_ s) oa = arcTarget (baseGraph_ s) af.1 →
    0 ≤ af.2 ∨ flowOf s oa ≤ 1.

(** Every element of the path is safe in the state in which it is taken. *)
Fixpoint safePath (p : Path) (s : FlowGraph) : Prop :=
  match p with
  | [] => True
  | af :: p' =>
      safeStep s af ∧ ∀ s1, augmentArc s af = Some s1 → safePath p' s1
  end.

(** What the coupling proof needs of a graph. *)
Definition divisionsWellFormed (s : FlowGraph) : Prop :=
  divisionMapsWF s ∧ simpleDivisions s ∧ duplicateArcsUnit s.

(** A path that names arcs of [g] only and pushes flow forward on each. *)
Definition forwardPath (g : Digraph) (p : Path) : Prop :=
  Forall (λ af : Arc * Z, (af.1 < numArcs g)%nat ∧ 0 ≤ af.2) p.

(** ** Graphs fresh from construction *)

(** The graphs the construction interface produces. *)
Inductive constructed : FlowGraph → Prop :=
| constructed_FlowGraph : constructed newFlowGraph
| constructed_by_addNode s costs t f s' :
    constructed s → addNode costs t s = Some (f, s') → constructed s'
| constructed_by_addArc s u v costs a s' :
    constructed s → addArc u v costs s = Some (a, s') → constructed s'
| constructed_by_allowMitosis s parent divisionCost a s' :
    constructed s → allowMitosis parent divisionCost s = Some (a, s') →
    constructed s'.

(** No residual graph yet; every arc has a cost vector that is not empty,
    flow zero and the length of its cost vector, converted to [int], as
    capacity. *)
Definition fresh (s : FlowGraph) : Prop :=
  residualGraph_ s = None ∧
  ∀ a, (a < numArcs (baseGraph_ s))%nat →
       costsOf s a ≠ [] ∧ flowOf s a = 0 ∧
       capacityOf s a = toInt (Z.of_nat (length (costsOf s a))).

(** No cost vector is too long for the [int] that holds the capacity. *)
Definition capacitiesFit (s : FlowGraph) : Prop :=
  ∀ a, (a < numArcs (baseGraph_ s))%nat →
       Z.of_nat (length (costsOf s a)) ≤ INT_MAX.

(** What [fresh] reads of a graph. *)
Definition arcData (s : FlowGraph) :=
  (arcEnds (baseGraph_ s), arcCosts_ s, flowMap_ s, capacityMap_ s,
   residualGraph_ s).
(** * Properties *)

Arguments addArc : simpl never.
Arguments updateArc : simpl never.
Arguments enableArc : simpl never.
Arguments updateEnabledArc : simpl never.
Arguments augmentArc : simpl never.
Arguments wrap64 : simpl never.
Arguments toInt : simpl never.
Arguments rg_updateArc : simpl never.
Arguments rg_enableArc : simpl never.
Arguments rg_addProvidedToken : simpl never.
Arguments rg_addForbiddenToken : simpl never.

(** ** Loops *)

Lemma forEach_app {A S : Type} (body : S → A → option S) (l1 l2 : list A)
    (s : S) :
  forEach body (l1 ++ l2) s = forEach body l1 s ≫= forEach body l2.
Proof.
  revert s. induction l1 as [|x l1 IH]; intros s; simpl; [done|].
  destruct (body s x) as [s1|]; simpl; [apply IH | done].
Qed.

(** An invariant of the body is an invariant of the loop. *)
Lemma forEach_invariant {A S : Type} (body : S → A → option S) (P : S → Prop)
    (l : list A) (s s' : S) :
  (∀ st x st', x ∈ l → P st → body st x = Some st' → P st') →
  P s → forEach body l s = Some s' → P s'.
Proof.
  revert s. induction l as [|x l IH]; intros s Hbody Hs Hrun; simpl in Hrun.
  - by simplify_eq.
  - destruct (body s x) as [s1|] eqn:E; simpl in Hrun; [|done].
    apply (IH s1); [| |done].
    + intros st y st' Hy. apply Hbody. by right.
    + eapply Hbody; [by left| exact Hs | exact E].
Qed.

(** A loop whose body cannot fail under an invariant does not fail. *)
Lemma forEach_total {A S : Type} (body : S → A → option S) (P : S → Prop)
    (l : list A) (s : S) :
  (∀ st x, x ∈ l → P st → ∃ st', body st x = Some st' ∧ P st') →
  P s → ∃ s', forEach body l s = Some s' ∧ P s'.
Proof.
  revert s. induction l as [|x l IH]; intros s Hbody Hs; simpl.
  - eauto.
  - destruct (Hbody s x) as (s1 & E & Hs1); [by left | done |].
    rewrite E. simpl. apply IH; [|done].
    intros st y Hy. apply Hbody. by right.
Qed.

Lemma findFirst_Some {A : Type} (p : A → bool) (l : list A) (x : A) :
  findFirst p l = Some x → x ∈ l ∧ p x = true.
Proof.
  induction l as [|y l IH]; simpl; [done|].
  destruct (p y) eqn:E.
  - intros [= ->]. split; [by left | done].
  - intros H. destruct (IH H). split; [by right | done].
Qed.

Lemma findFirst_None {A : Type} (p : A → bool) (l : list A) :
  findFirst p l = None → ∀ x, x ∈ l → p x = false.
Proof.
  induction l as [|y l IH]; simpl; intros H x Hx.
  - by apply elem_of_nil in Hx.
  - destruct (p y) eqn:E; [done|].
    apply elem_of_cons in Hx as [->|Hx]; [done | by apply IH].
Qed.

(** ** The digraph *)

Lemma elem_of_outArcs (g : Digraph) (n : Node) (a : Arc) :
  a ∈ outArcs g n ↔ (a < numArcs g)%nat ∧ arcSource g a = n.
Proof.
  unfold outArcs. rewrite elem_of_reverse, list_elem_of_filter, elem_of_seq.
  split; [intros [? ?] | intros [? ?]]; split; auto; lia.
Qed.

Lemma elem_of_inArcs (g : Digraph) (n : Node) (a : Arc) :
  a ∈ inArcs g n ↔ (a < numArcs g)%nat ∧ arcTarget g a = n.
Proof.
  unfold inArcs. rewrite elem_of_reverse, list_elem_of_filter, elem_of_seq.
  split; [intros [? ?] | intros [? ?]]; split; auto; lia.
Qed.

Lemma elem_of_allArcs (g : Digraph) (a : Arc) :
  a ∈ allArcs g ↔ (a < numArcs g)%nat ∧ (arcSource g a < numNodes g)%nat.
Proof.
  unfold allArcs. rewrite list_elem_of_bind. split.
  - intros (n & Ha & Hn). apply elem_of_outArcs in Ha as [? <-].
    apply elem_of_reverse, elem_of_seq in Hn. split; [done | lia].
  - intros [? ?]. exists (arcSource g a). split.
    + by apply elem_of_outArcs.
    + apply elem_of_reverse, elem_of_seq. lia.
Qed.

(** ** The residual graph *)

Lemma residualArc_modify_eq f a d rg :
  residualArc (modifyResidualArc f a d rg) a d = f (residualArc rg a d).
Proof.
  destruct d; unfold residualArc at 1; simpl; by rewrite lookup_insert_eq.
Qed.

Lemma residualArc_modify_ne f a d a' d' rg :
  (a, d) ≠ (a', d') →
  residualArc (modifyResidualArc f a d rg) a' d' = residualArc rg a' d'.
Proof.
  intros Hne. destruct d, d'; unfold residualArc; simpl; try done;
    rewrite lookup_insert_ne; auto; congruence.
Qed.

Lemma residualArc_modify f a d a' d' rg :
  residualArc (modifyResidualArc f a d rg) a' d' =
  if decide (a = a' ∧ d = d') then f (residualArc rg a d)
  else residualArc rg a' d'.
Proof.
  case_decide as H.
  - destruct H as [<- <-]. apply residualArc_modify_eq.
  - apply residualArc_modify_ne. intros [= -> ->]. by apply H.
Qed.

Lemma filter_ext_elem_of {A : Type} (P1 P2 : A → Prop)
    `{!∀ x, Decision (P1 x), !∀ x, Decision (P2 x)} (l : list A) :
  (∀ x, x ∈ l → P1 x ↔ P2 x) → filter P1 l = filter P2 l.
Proof.
  induction l as [|x l IH]; intros Hext; [done|].
  rewrite !filter_cons.
  rewrite IH by (intros y Hy; apply Hext; by right).
  destruct (decide (P1 x)) as [H1|H1], (decide (P2 x)) as [H2|H2]; try done;
    exfalso; [apply H2 | apply H1]; apply (Hext x); (by left) || done.
Qed.

Lemma arcEnds_graph_addArc g u v :
  arcEnds (graph_addArc g u v).1 = arcEnds g ++ [(u, v)].
Proof. done. Qed.

Lemma arcSource_old (k k' : nat) (es : list (Node * Node)) (e : Node * Node)
    (a : Arc) :
  (a < length es)%nat →
  arcSource (mkDigraph k (es ++ [e])) a = arcSource (mkDigraph k' es) a.
Proof. intros H. unfold arcSource. simpl. by rewrite lookup_total_app_l. Qed.

Lemma arcTarget_old (k k' : nat) (es : list (Node * Node)) (e : Node * Node)
    (a : Arc) :
  (a < length es)%nat →
  arcTarget (mkDigraph k (es ++ [e])) a = arcTarget (mkDigraph k' es) a.
Proof. intros H. unfold arcTarget. simpl. by rewrite lookup_total_app_l. Qed.

Lemma arcSource_new (k : nat) (es : list (Node * Node)) (u v : Node) :
  arcSource (mkDigraph k (es ++ [(u, v)])) (length es) = u.
Proof. unfold arcSource. simpl. by rewrite list_lookup_total_middle. Qed.

Lemma arcTarget_new (k : nat) (es : list (Node * Node)) (u v : Node) :
  arcTarget (mkDigraph k (es ++ [(u, v)])) (length es) = v.
Proof. unfold arcTarget. simpl. by rewrite list_lookup_total_middle. Qed.

(** The out-list of a node after [addArc]: the new arc comes first. *)
Lemma outArcs_snoc (k k' : nat) (es : list (Node * Node)) (u v n : Node) :
  outArcs (mkDigraph k (es ++ [(u, v)])) n =
  (if decide (u = n) then [length es] else []) ++ outArcs (mkDigraph k' es) n.
Proof.
  unfold outArcs, numArcs. simpl.
  rewrite length_app. simpl. rewrite Nat.add_1_r, seq_S. simpl.
  rewrite filter_app, reverse_app. f_equal.
  - rewrite filter_cons, filter_nil, arcSource_new.
    by destruct (decide (u = n)).
  - f_equal. apply filter_ext_elem_of.
    intros a Ha. apply elem_of_seq in Ha.
    rewrite (arcSource_old k k'); [done | lia].
Qed.

Lemma outArcs_numNodes (k k' : nat) (es : list (Node * Node)) (n : Node) :
  outArcs (mkDigraph k es) n = outArcs (mkDigraph k' es) n.
Proof. done. Qed.

(** ** The residual refresh *)

(** C4: for a base arc [a] with flow [f] and capacity [k], [0 ≤ f ≤ k],
    [updateArc] succeeds and leaves the forward residual arc of [a] with
    capacity [k - f] and cost [arcCost(a, f)], and the backward residual arc
    with capacity [f] and cost [- arcCost(a, f - 1)]. *)
Theorem updateArc_residual (s : FlowGraph) (a : Arc) (rg : ResidualGraph) :
  residualGraph_ s = Some rg →
  0 ≤ flowOf s a ≤ capacityOf s a →
  ∃ rg',
    updateArc a s = Some (setResidualGraph (Some rg') s) ∧
    resCapacity (residualArc rg' a Forward) = capacityOf s a - flowOf s a ∧
    resCost (residualArc rg' a Forward) = getArcCost s a (flowOf s a) ∧
    resCapacity (residualArc rg' a Backward) = flowOf s a ∧
    resCost (residualArc rg' a Backward) =
      negCost (getArcCost s a (flowOf s a - 1)).
Proof.
  intros Hrg [Hlo Hhi].
  exists (rg_updateArc a Backward (negCost (getArcCost s a (flowOf s a - 1)))
            (flowOf s a)
            (rg_updateArc a Forward (getArcCost s a (flowOf s a))
               (capacityOf s a - flowOf s a) rg)).
  split.
  - unfold updateArc. rewrite Hrg.
    by rewrite !bool_decide_eq_false_2 by lia.
  - unfold rg_updateArc.
    rewrite !(residualArc_modify_ne _ a Backward a Forward) by done.
    by rewrite !residualArc_modify_eq.
Qed.

Lemma updateArc_residual_witness :
  ∃ rg',
    updateArc 3%nat
      (setResidualGraph (Some (newResidualGraph true true)) divisionGraph) =
    Some (setResidualGraph (Some rg') divisionGraph) ∧
    resCapacity (residualArc rg' 3%nat Forward) = 1 - 0 ∧
    resCost (residualArc rg' 3%nat Forward) = Finite 0 ∧
    resCapacity (residualArc rg' 3%nat Backward) = 0 ∧
    resCost (residualArc rg' 3%nat Backward) = PosInf.
Proof.
  apply (updateArc_residual
           (setResidualGraph (Some (newResidualGraph true true)) divisionGraph)
           3%nat (newResidualGraph true true)).
  - reflexivity.
  - vm_compute. split; discriminate.
Defined.

(** ** Mitosis of a parent without out-arcs *)

(** C5 fails as stated: [allowMitosis] has no precondition on the out-arcs
    of the parent.  Called on a detection that has no out-arc yet, it
    returns the division arc. *)
Lemma allowMitosis_reports_no_error :
  outArcs (baseGraph_ oneDetection) (fn_v detectionA) = [] ∧
  ∃ s', allowMitosis detectionA (-4)%Q oneDetection = Some (1%nat, s').
Proof. split; [reflexivity|]. eexists. vm_compute. reflexivity. Qed.

(** C5 (amended): called on a parent that has no out-arc yet (and is not
    the source), [allowMitosis] succeeds: it returns the new division arc
    from the source to the fresh duplicate, adds no other arc, and records
    the pair in both maps. *)
Theorem allowMitosis_without_out_arcs (parent : FullNode) (divisionCost : Q)
    (s : FlowGraph) :
  outArcs (baseGraph_ s) (fn_v parent) = [] →
  fn_v parent ≠ source_ s →
  ∃ s',
    allowMitosis parent divisionCost s = Some (numArcs (baseGraph_ s), s') ∧
    numNodes (baseGraph_ s') = S (numNodes (baseGraph_ s)) ∧
    arcEnds (baseGraph_ s') =
      arcEnds (baseGraph_ s) ++ [(source_ s, numNodes (baseGraph_ s))] ∧
    parentToDuplicateMap_ s' !! fn_v parent = Some (numNodes (baseGraph_ s)) ∧
    duplicateToParentMap_ s' !! numNodes (baseGraph_ s) = Some (fn_v parent).
Proof.
  intros Hout Hsrc. unfold allowMitosis, addArc. simpl.
  rewrite (outArcs_snoc _ (numNodes (baseGraph_ s))).
  rewrite decide_False by done. destruct s as [[k es] ?]; simpl in *.
  rewrite Hout. simpl. eexists. split; [reflexivity|]. simpl.
  by rewrite !lookup_insert_eq.
Qed.

Lemma allowMitosis_without_out_arcs_witness :
  ∃ s',
    allowMitosis detectionA (-4)%Q oneDetection = Some (1%nat, s') ∧
    numNodes (baseGraph_ s') = 5%nat ∧
    arcEnds (baseGraph_ s') = [(2, 3); (0, 4)]%nat ∧
    parentToDuplicateMap_ s' !! 3%nat = Some 4%nat ∧
    duplicateToParentMap_ s' !! 4%nat = Some 3%nat.
Proof.
  apply (allowMitosis_without_out_arcs detectionA (-4)%Q oneDetection).
  - reflexivity.
  - vm_compute. discriminate.
Defined.

(** ** Timesteps *)

Lemma wrap64_small (z : Z) : 0 ≤ z < 2 ^ 64 → wrap64 z = z.
Proof. intros H. unfold wrap64. by apply Z.mod_small. Qed.

Lemma timestepOf_setTimestep (s : FlowGraph) (n m : Node) (t : Z) :
  timestepOf (setTimestep n t s) m =
  if decide (n = m) then t else timestepOf s m.
Proof.
  unfold timestepOf. simpl. rewrite lookup_insert.
  by destruct (decide (n = m)).
Qed.

Lemma relabel_targets (x : Z) (l : list Node) (s : FlowGraph) :
  let s' := foldl (λ st t, setTimestep t x st) s l in
  baseGraph_ s' = baseGraph_ s ∧ source_ s' = source_ s ∧
  targets_ s' = targets_ s ∧ intermediateArcs_ s' = intermediateArcs_ s ∧
  ∀ n, timestepOf s' n = if decide (n ∈ l) then x else timestepOf s n.
Proof.
  revert s. induction l as [|t l IH]; intros s; simpl.
  - by repeat split.
  - destruct (IH (setTimestep t x s)) as (Hg & Hs & Ht & Hi & Hts).
    simpl in *. repeat split; try done.
    intros n. rewrite Hts, timestepOf_setTimestep.
    destruct (decide (n ∈ l)) as [Hin|Hin].
    + rewrite decide_True; [done | by right].
    + destruct (decide (t = n)) as [->|Hne].
      * rewrite decide_True; [done | by left].
      * rewrite decide_False; [done|].
        intros [->|?]%elem_of_cons; done.
Qed.

Lemma extends_refl (s : FlowGraph) : extends s s.
Proof.
  repeat split; try done. exists []. by rewrite app_nil_r.
Qed.

Lemma extends_trans (s1 s2 s3 : FlowGraph) :
  extends s1 s2 → extends s2 s3 → extends s1 s3.
Proof.
  intros (Hs & Ht & Hi & Hn & [e He] & Hts) (Hs' & Ht' & Hi' & Hn' & [e' He'] & Hts').
  repeat split; try congruence; try lia.
  - exists (e ++ e'). rewrite He', He. by rewrite app_assoc.
  - intros n Hlt. rewrite Hts' by lia. by apply Hts.
Qed.

Lemma addArc_extends u v costs s a s' :
  addArc u v costs s = Some (a, s') → extends s s'.
Proof.
  unfold addArc. case_bool_decide; [|done]. intros [= <- <-].
  repeat split; try done. by exists [(u, v)].
Qed.

Lemma mirrorOutArc_extends dup s oa s' :
  mirrorOutArc dup s oa = Some s' → extends s s'.
Proof.
  unfold mirrorOutArc. destruct (isTarget _ _).
  - intros [= <-]. apply extends_refl.
  - destruct (head _) as [c0|]; simpl; [|done].
    intros [= <-]. repeat split; try done. by eexists.
Qed.

Lemma allowMitosis_extends parent c s a s' :
  allowMitosis parent c s = Some (a, s') → extends s s'.
Proof.
  unfold allowMitosis. cbn.
  set (s1 := setTimestep _ _ _).
  destruct (addArc _ _ [c] s1) as [[a1 s2]|] eqn:E1; cbn; [|done].
  destruct (forEach _ _ s2) as [s3|] eqn:E2; cbn; [|done].
  intros [= <- <-].
  assert (extends s s2) as H12.
  { apply addArc_extends in E1.
    eapply extends_trans; [|exact E1].
    repeat split; simpl; try done; try lia.
    - exists []. by rewrite app_nil_r.
    - intros n Hn. unfold s1. rewrite timestepOf_setTimestep.
      rewrite decide_False; [done | lia]. }
  assert (extends s2 s3) as H23.
  { revert E2. apply (forEach_invariant _ (extends s2)); [|apply extends_refl].
    intros st x st' _ Hst Hx. eapply extends_trans; [exact Hst|].
    by eapply mirrorOutArc_extends. }
  eapply extends_trans; [exact H12|].
  eapply extends_trans; [exact H23|].
  repeat split; simpl; try done. exists []. by rewrite app_nil_r.
Qed.

Lemma arcSource_extra (g g' : Digraph) (extra : list (Node * Node)) (a : Arc) :
  arcEnds g' = arcEnds g ++ extra → (a < numArcs g)%nat →
  arcSource g' a = arcSource g a.
Proof. intros He Ha. unfold arcSource. by rewrite He, lookup_total_app_l. Qed.

Lemma arcTarget_extra (g g' : Digraph) (extra : list (Node * Node)) (a : Arc) :
  arcEnds g' = arcEnds g ++ extra → (a < numArcs g)%nat →
  arcTarget g' a = arcTarget g a.
Proof. intros He Ha. unfold arcTarget. by rewrite He, lookup_total_app_l. Qed.

Lemma wellBuilt_new : wellBuilt newFlowGraph.
Proof.
  split; [done|]. split.
  { intros t Ht. apply list_elem_of_singleton in Ht as ->. simpl. lia. }
  split.
  { intros a Ha. by apply elem_of_empty in Ha. }
  exists 1. split.
  - intros t Ht. by apply list_elem_of_singleton in Ht as ->.
  - intros n (a & Ha & _). by apply elem_of_empty in Ha.
Qed.

Lemma wellBuilt_extends (s s' : FlowGraph) :
  wellBuilt s → extends s s' → wellBuilt s'.
Proof.
  intros (Hne & Htg & Hia & T & HT & Hdet)
         (Hs & Ht & Hi & Hn & [e He] & Hts).
  split; [by rewrite Ht|]. split.
  { intros t Hin. rewrite Ht in Hin. specialize (Htg t Hin). lia. }
  split.
  { intros a Ha. rewrite Hi in Ha. destruct (Hia a Ha) as (H1 & H2 & H3).
    rewrite (arcSource_extra _ _ e), (arcTarget_extra _ _ e) by done.
    unfold numArcs in *. rewrite He, length_app. lia. }
  exists T. split.
  - intros t Hin. rewrite Ht in Hin. rewrite Hts; auto.
  - intros n (a & Ha & Hn'). rewrite Hi in Ha.
    destruct (Hia a Ha) as (H1 & H2 & H3).
    rewrite (arcSource_extra _ _ e), (arcTarget_extra _ _ e) in Hn' by done.
    rewrite Hts; [|destruct Hn' as [-> | ->]; done].
    apply Hdet. by exists a.
Qed.

Lemma addNode_unfold (costs : CostVector) (t : Z) (s : FlowGraph)
    (front : Node) :
  costs ≠ [] → head (targets_ s) = Some front →
  addNode costs t s =
  Some (mkFullNode (numNodes (baseGraph_ s)) (S (numNodes (baseGraph_ s)))
          (numArcs (baseGraph_ s)),
        let s4 := addNodeBeforeRelabel costs t s in
        if bool_decide (timestepOf s4 front ≤ wrap64 (t * 2 + 2)) then
          foldl (λ st tg, setTimestep tg (wrap64 (t * 2 + 3)) st) s4
            (targets_ s)
        else s4).
Proof.
  intros Hc Hfront.
  assert (0 < length costs)%nat as Hlen by (destruct costs; simpl; [done | lia]).
  unfold addNode, addArc. rewrite !bool_decide_eq_true_2 by done.
  cbn. rewrite Hfront. reflexivity.
Qed.

Lemma addNode_wellBuilt (costs : CostVector) (t : Z) (s : FlowGraph) :
  wellBuilt s → 0 ≤ t → t * 2 + 3 < 2 ^ 64 → costs ≠ [] →
  ∃ s',
    addNode costs t s =
      Some (mkFullNode (numNodes (baseGraph_ s)) (S (numNodes (baseGraph_ s)))
              (numArcs (baseGraph_ s)), s') ∧
    timestepOf s' (numNodes (baseGraph_ s)) = t * 2 + 1 ∧
    timestepOf s' (S (numNodes (baseGraph_ s))) = t * 2 + 2 ∧
    wellBuilt s'.
Proof.
  intros (Hne & Htg & Hia & T & HT & Hdet) Ht0 Ht1 Hc.
  destruct (targets_ s) as [|front rest] eqn:Etg; [done|].
  rewrite <- Etg in *.
  assert (head (targets_ s) = Some front) as Hfront by by rewrite Etg.
  assert (front ∈ targets_ s) as Hfin by (rewrite Etg; by left).
  rewrite (addNode_unfold costs t s front) by done. cbv zeta.
  rewrite !wrap64_small by lia.
  set (u := numNodes (baseGraph_ s)) in *.
  set (s4 := addNodeBeforeRelabel costs t s).
  assert (∀ m, timestepOf s4 m =
               if decide (S u = m) then t * 2 + 2
               else if decide (u = m) then t * 2 + 1 else timestepOf s m)
    as Hts4.
  { intros m. unfold s4, addNodeBeforeRelabel.
    rewrite !timestepOf_setTimestep, !wrap64_small by lia. done. }
  assert (timestepOf s4 front = T) as HfrontT.
  { rewrite Hts4. specialize (Htg front Hfin).
    rewrite !decide_False by (unfold u; lia). by apply HT. }
  rewrite HfrontT.
  set (T' := if bool_decide (T ≤ t * 2 + 2) then t * 2 + 3 else T).
  assert (t * 2 + 2 < T' ∧ T ≤ T') as [HT'1 HT'2]
    by (unfold T'; case_bool_decide; lia).
  eexists. split; [reflexivity|].
  set (s5 := if bool_decide (T ≤ t * 2 + 2) then _ else s4).
  assert (baseGraph_ s5 = baseGraph_ s4 ∧ targets_ s5 = targets_ s ∧
          intermediateArcs_ s5 = intermediateArcs_ s4 ∧
          ∀ m, timestepOf s5 m =
               if decide (m ∈ targets_ s) then T' else timestepOf s4 m)
    as (Hg5 & Htg5 & Hi5 & Hts5).
  { unfold s5, T'. case_bool_decide.
    - destruct (relabel_targets (t * 2 + 3) (targets_ s) s4)
        as (? & ? & ? & ? & ?). repeat split; done.
    - repeat split; try done. intros m.
      destruct (decide (m ∈ targets_ s)) as [Hm|]; [|done].
      rewrite Hts4. specialize (Htg m Hm).
      rewrite !decide_False by (unfold u; lia). by apply HT. }
  assert (∀ m, m ∈ targets_ s → (m < u)%nat) as Htg' by exact Htg.
  split; [|split].
  { rewrite Hts5, decide_False, Hts4.
    - rewrite decide_False by lia. by rewrite decide_True.
    - intros Hm. specialize (Htg' _ Hm). lia. }
  { rewrite Hts5, decide_False, Hts4.
    - by rewrite decide_True.
    - intros Hm. specialize (Htg' _ Hm). lia. }
  assert (∀ a, a ∈ intermediateArcs_ s →
            arcSource (baseGraph_ s4) a = arcSource (baseGraph_ s) a ∧
            arcTarget (baseGraph_ s4) a = arcTarget (baseGraph_ s) a) as Hold.
  { intros a Ha. destruct (Hia a Ha) as (H1 & _).
    split; [apply (arcSource_old _ (numNodes (baseGraph_ s)))
           | apply (arcTarget_old _ (numNodes (baseGraph_ s)))]; exact H1. }
  assert (arcSource (baseGraph_ s4) (numArcs (baseGraph_ s)) = u ∧
          arcTarget (baseGraph_ s4) (numArcs (baseGraph_ s)) = S u)
    as [Hnews Hnewt].
  { split; [apply arcSource_new | apply arcTarget_new]. }
  split; [by rewrite Htg5, Etg|]. split.
  { intros m Hm. rewrite Htg5 in Hm. specialize (Htg' _ Hm).
    rewrite Hg5. simpl. unfold u in *. lia. }
  split.
  { intros a Ha. rewrite Hi5 in Ha. rewrite Hg5.
    apply elem_of_union in Ha as [Ha|Ha].
    - apply elem_of_singleton in Ha as ->. rewrite Hnews, Hnewt.
      simpl. unfold numArcs. simpl. rewrite length_app. simpl. unfold u. lia.
    - destruct (Hold a Ha) as [-> ->]. destruct (Hia a Ha) as (H1 & H2 & H3).
      simpl. unfold numArcs in *. simpl. rewrite length_app. simpl. lia. }
  exists T'. split.
  - intros m Hm. rewrite Htg5 in Hm. by rewrite Hts5, decide_True.
  - intros n (a & Ha & Hn). rewrite Hi5 in Ha. rewrite Hg5 in Hn.
    rewrite Hts5. destruct (decide (n ∈ targets_ s)) as [Hin|Hin].
    + exfalso. specialize (Htg' _ Hin).
      apply elem_of_union in Ha as [Ha|Ha].
      * apply elem_of_singleton in Ha as ->.
        rewrite Hnews, Hnewt in Hn. lia.
      * destruct (Hold a Ha) as [Hs Ht]. rewrite Hs, Ht in Hn.
        assert (timestepOf s n < T) by (apply Hdet; by exists a).
        rewrite (HT n Hin) in *. lia.
    + rewrite Hts4. apply elem_of_union in Ha as [Ha|Ha].
      * apply elem_of_singleton in Ha as ->.
        rewrite Hnews, Hnewt in Hn. destruct Hn as [-> | ->].
        -- rewrite decide_False by lia. rewrite decide_True by done. lia.
        -- rewrite decide_True by done. lia.
      * destruct (Hold a Ha) as [Hs Ht]. rewrite Hs, Ht in Hn.
        destruct (Hia a Ha) as (H1 & H2 & H3).
        rewrite !decide_False by (unfold u; destruct Hn as [-> | ->]; lia).
        assert (timestepOf s n < T) by (apply Hdet; by exists a). lia.
Qed.

Lemma constructedInRange_wellBuilt (s : FlowGraph) :
  constructedInRange s → wellBuilt s.
Proof.
  induction 1 as [|s costs t f s' _ IH Ht0 Ht1 Hadd
                  |s u v costs a s' _ IH Hadd
                  |s parent c a s' _ IH Hadd].
  - apply wellBuilt_new.
  - assert (costs ≠ []) as Hc by (intros ->; discriminate Hadd).
    destruct (addNode_wellBuilt costs t s IH Ht0 Ht1 Hc) as (s'' & E & _ & _ & Hwb).
    rewrite E in Hadd. by simplify_eq.
  - eapply wellBuilt_extends; [exact IH | by eapply addArc_extends].
  - eapply wellBuilt_extends; [exact IH | by eapply allowMitosis_extends].
Qed.

(** C8 fails as stated: [timestep * 2 + 2] is computed on [size_t] and
    wraps.  At timestep [2^63 - 1] the exit node is labelled 0, the targets
    keep their label 1, and the entry node is labelled [2^64 - 1]. *)
Lemma addNode_timestep_wraps :
  addNode [1%Q] (2 ^ 63 - 1) newFlowGraph =
    Some (mkFullNode 2 3 0, lateDetection) ∧
  timestepOf lateDetection 3%nat ≠ 2 * (2 ^ 63 - 1) + 2 ∧
  ¬ targetsLast lateDetection.
Proof.
  split; [by vm_compute|]. split; [by vm_compute|].
  intros (T & HT & Hdet).
  assert (timestepOf lateDetection 1%nat = T) as H1.
  { apply HT. vm_compute. by left. }
  assert (timestepOf lateDetection 2%nat < T) as H2.
  { apply Hdet. exists 0%nat. split; [|by left].
    apply (bool_decide_unpack _). by vm_compute. }
  rewrite <- H1 in H2. vm_compute in H2. discriminate H2.
Qed.

(** C8 (amended): on a graph built so far with timesteps [t'] whose
    [t' * 2 + 3] fits a [size_t], [addNode(costs, t)] with such a [t]
    labels the entry node [2t + 1] and the exit node [2t + 2], and
    afterwards all targets share one timestep, strictly above the timestep
    of every detection node. *)
Theorem addNode_timesteps (costs : CostVector) (t : Z) (s : FlowGraph) :
  constructedInRange s → 0 ≤ t → t * 2 + 3 < 2 ^ 64 → costs ≠ [] →
  ∃ f s',
    addNode costs t s = Some (f, s') ∧
    timestepOf s' (fn_u f) = 2 * t + 1 ∧
    timestepOf s' (fn_v f) = 2 * t + 2 ∧
    targetsLast s'.
Proof.
  intros Hs Ht0 Ht1 Hc. apply constructedInRange_wellBuilt in Hs.
  destruct (addNode_wellBuilt costs t s Hs Ht0 Ht1 Hc)
    as (s' & E & Hu & Hv & Hwb).
  eexists _, s'. split; [exact E|]. simpl.
  split; [lia|]. split; [lia|]. apply Hwb.
Qed.

Lemma addNode_timesteps_witness :
  ∃ f s',
    addNode [(-3)%Q] 1 oneDetection = Some (f, s') ∧
    timestepOf s' (fn_u f) = 2 * 1 + 1 ∧
    timestepOf s' (fn_v f) = 2 * 1 + 2 ∧
    targetsLast s'.
Proof.
  apply (addNode_timesteps [(-3)%Q] 1 oneDetection).
  - apply (constructed_addNode newFlowGraph [(-2)%Q] 0 detectionA).
    + apply constructed_new.
    + lia.
    + reflexivity.
    + by vm_compute.
  - lia.
  - reflexivity.
  - discriminate.
Defined.

(** ** The augment-update loop *)

Lemma Qltb_true (x y : Q) : Qltb x y = true → (x < y)%Q.
Proof. unfold Qltb. by destruct (Qlt_le_dec x y). Qed.


Lemma negativePath_true (r : ShortestPathResult) :
  negativePath r = true → r.1 ≠ [] ∧ ∃ q, r.2 = Number q ∧ (q < 0)%Q.
Proof.
  unfold negativePath. intros [H1 H2]%andb_true_iff.
  apply bool_decide_eq_true in H1. split.
  - intros E. rewrite E in H1. simpl in H1. lia.
  - destruct (r.2) as [q|]; [|done]. exists q. split; [done|].
    by apply Qltb_true.
Qed.


Section TrackingFacts.
Variable findShortestPath :
  ResidualGraph → list Node → bool → ShortestPathResult.
Variable partialBFUpdates : bool.

Lemma trackingLoop_capped (maxNumPaths : Z) (fuel : nat) (t : Tracking) :
  0 ≤ tr_iter t < maxNumPaths → maxNumPaths < 2 ^ 64 →
  let o := trackingLoop findShortestPath maxNumPaths partialBFUpdates fuel t in
  Z.of_nat (tr_augmentations (trackingOf o)) - Z.of_nat (tr_augmentations t)
    ≤ maxNumPaths - tr_iter t ∧
  tr_iter (trackingOf o) ≤ maxNumPaths ∧
  (maxNumPaths - tr_iter t ≤ Z.of_nat fuel → ∀ t', o ≠ OutOfFuel t').
Proof.
  intros Hiter Hmax. revert t Hiter.
  induction fuel as [|fuel IH]; intros t Hiter; simpl.
  { repeat split; lia. }
  destruct (residualGraph_ (tr_graph t)) as [rg|]; simpl;
    [|repeat split; (lia || done)].
  destruct (aboveTolerance _); simpl; [repeat split; (lia || done)|].
  destruct (negativePath _); simpl; cycle 1.
  { rewrite wrap64_small by lia. repeat split; (lia || done). }
  destruct (augmentUnitFlow _ _) as [s1|]; simpl;
    [|repeat split; (lia || done)].
  destruct (updateEnabledArcs _ s1) as [g|]; simpl;
    [|repeat split; (lia || done)].
  rewrite wrap64_small by lia. unfold underCap.
  rewrite (bool_decide_eq_false_2 (maxNumPaths < 1)) by lia. simpl.
  case_bool_decide as Hcap; simpl.
  - match goal with |- context [trackingLoop _ _ _ fuel ?t'] =>
      destruct (IH t') as (H1 & H2 & H3); [simpl; lia|] end.
    simpl in *. repeat split; [lia | lia |].
    intros Hfuel. apply H3. lia.
  - repeat split; (lia || done).
Qed.

Lemma trackingLoop_energy (maxNumPaths : Z) (initial : Q) (fuel : nat)
    (t : Tracking) :
  Sorted Qle (tr_currentEnergy t :: tr_energyLog t ++ [initial]) →
  (tr_currentEnergy t <= initial)%Q →
  let t' :=
    trackingOf
      (trackingLoop findShortestPath maxNumPaths partialBFUpdates fuel t) in
  Sorted Qle (tr_currentEnergy t' :: tr_energyLog t' ++ [initial]) ∧
  (tr_currentEnergy t' <= initial)%Q.
Proof.
  revert t. induction fuel as [|fuel IH]; intros t Hsorted Hle; simpl;
    [done|].
  destruct (residualGraph_ (tr_graph t)) as [rg|]; simpl; [|done].
  destruct (aboveTolerance _); simpl; [done|].
  destruct (negativePath _) eqn:Eneg; simpl; cycle 1.
  { split; [|done]. constructor; [done|]. constructor. apply Qle_refl. }
  destruct (augmentUnitFlow _ _) as [s1|]; simpl; [|done].
  destruct (updateEnabledArcs _ s1) as [g|]; simpl; [|done].
  apply negativePath_true in Eneg as [_ (c & -> & Hneg)]. simpl.
  assert (tr_currentEnergy t + c <= tr_currentEnergy t)%Q as Hstep.
  { rewrite <- (Qplus_0_r (tr_currentEnergy t)) at 2.
    apply Qplus_le_compat; [apply Qle_refl | by apply Qlt_le_weak]. }
  assert (Sorted Qle
            ((tr_currentEnergy t + c)%Q
             :: (tr_currentEnergy t + c)%Q :: tr_energyLog t ++ [initial]))
    as Hsorted'.
  { constructor; [|constructor; apply Qle_refl].
    apply Sorted_inv in Hsorted as [Hs Hhd]. constructor; [done|].
    destruct Hhd as [|b l Hb]; constructor.
    by apply (Qle_trans _ (tr_currentEnergy t)). }
  assert (tr_currentEnergy t + c <= initial)%Q as Hle'
    by by apply (Qle_trans _ (tr_currentEnergy t)).
  destruct (underCap _ _); simpl; [|done].
  by apply IH.
Qed.

End TrackingFacts.

(** C6: called with [maxNumPaths ≥ 1], the loop calls [augmentUnitFlow] at
    most [maxNumPaths] times and counts at most [maxNumPaths] iterations;
    [maxNumPaths] units of fuel are enough for the call to end. *)
Theorem tracking_iterations_capped
    (findShortestPath : ResidualGraph → list Node → bool → ShortestPathResult)
    (maxNumPaths : Z) (partialBFUpdates : bool) (fuel : nat)
    (initialStateEnergy : Q) (useBack useOrdered : bool) (s : FlowGraph) :
  1 ≤ maxNumPaths < 2 ^ 64 →
  let o :=
    maxFlowMinCostTracking findShortestPath maxNumPaths partialBFUpdates fuel
      initialStateEnergy useBack useOrdered s in
  Z.of_nat (tr_augmentations (trackingOf o)) ≤ maxNumPaths ∧
  tr_iter (trackingOf o) ≤ maxNumPaths ∧
  (maxNumPaths ≤ Z.of_nat fuel → ∀ t, o ≠ OutOfFuel t).
Proof.
  intros Hmax. unfold maxFlowMinCostTracking.
  assert (∀ g,
    let o :=
      trackingLoop findShortestPath maxNumPaths partialBFUpdates fuel
        (mkTracking g ([], Number 0) 0 initialStateEnergy [] 0) in
    Z.of_nat (tr_augmentations (trackingOf o)) ≤ maxNumPaths ∧
    tr_iter (trackingOf o) ≤ maxNumPaths ∧
    (maxNumPaths ≤ Z.of_nat fuel → ∀ t, o ≠ OutOfFuel t)) as Hloop.
  { intros g.
    destruct (trackingLoop_capped findShortestPath partialBFUpdates
                maxNumPaths fuel
                (mkTracking g ([], Number 0) 0 initialStateEnergy [] 0))
      as (H1 & H2 & H3); simpl in *; [lia | lia |].
    repeat split; [lia | lia |]. intros Hfuel. apply H3. lia. }
  destruct (residualGraph_ s); [apply Hloop|].
  destruct (initializeResidualGraph _ _ _); [apply Hloop|].
  simpl. repeat split; (lia || done).
Qed.

Lemma tracking_iterations_capped_witness :
  let o :=
    maxFlowMinCostTracking (searchWhileFree 0 trackAB) 1 true 1 0%Q true true
      divisionGraph in
  Z.of_nat (tr_augmentations (trackingOf o)) ≤ 1 ∧
  tr_iter (trackingOf o) ≤ 1 ∧
  (1 ≤ Z.of_nat 1 → ∀ t, o ≠ OutOfFuel t).
Proof.
  apply (tracking_iterations_capped (searchWhileFree 0 trackAB) 1 true 1 0%Q
           true true divisionGraph).
  lia.
Defined.

Lemma Sorted_snoc_inv {A : Type} (R : A → A → Prop) (l : list A) (x : A) :
  Sorted R (l ++ [x]) → Sorted R l.
Proof.
  induction l as [|y l IH]; simpl; [constructor|].
  intros [Hs Hhd]%Sorted_inv. constructor; [by apply IH|].
  destruct l; simpl in *; [constructor|]. inversion Hhd; by constructor.
Qed.

(** C7: the energy kept by [maxFlowMinCostTracking] never increases: the
    energies printed at the end of the iterations, read from the initial
    energy on, are non-increasing, and the energy the call ends with is at
    most [initialStateEnergy]. *)
Theorem tracking_energy_monotone
    (findShortestPath : ResidualGraph → list Node → bool → ShortestPathResult)
    (maxNumPaths : Z) (partialBFUpdates : bool) (fuel : nat)
    (initialStateEnergy : Q) (useBack useOrdered : bool) (s : FlowGraph) :
  let t :=
    trackingOf
      (maxFlowMinCostTracking findShortestPath maxNumPaths partialBFUpdates
         fuel initialStateEnergy useBack useOrdered s) in
  energyDescends initialStateEnergy (tr_energyLog t) ∧
  Sorted Qle (tr_currentEnergy t :: tr_energyLog t) ∧
  (tr_currentEnergy t <= initialStateEnergy)%Q.
Proof.
  unfold maxFlowMinCostTracking, energyDescends.
  assert (∀ g,
    let t :=
      trackingOf
        (trackingLoop findShortestPath maxNumPaths partialBFUpdates fuel
           (mkTracking g ([], Number 0) 0 initialStateEnergy [] 0)) in
    Sorted Qle (tr_energyLog t ++ [initialStateEnergy]) ∧
    Sorted Qle (tr_currentEnergy t :: tr_energyLog t) ∧
    (tr_currentEnergy t <= initialStateEnergy)%Q) as Hloop.
  { intros g.
    destruct (trackingLoop_energy findShortestPath partialBFUpdates
                maxNumPaths initialStateEnergy fuel
                (mkTracking g ([], Number 0) 0 initialStateEnergy [] 0))
      as [H1 H2]; simpl.
    - repeat constructor. apply Qle_refl.
    - apply Qle_refl.
    - split; [by apply Sorted_inv in H1 as [? _]|].
      split; [|done].
      by apply (Sorted_snoc_inv Qle (_ :: _) initialStateEnergy). }
  destruct (residualGraph_ s); [apply Hloop|].
  destruct (initializeResidualGraph _ _ _); [apply Hloop|].
  simpl. repeat constructor. apply Qle_refl.
Qed.

(** ** Residual bookkeeping *)

Lemma sameBase_refl s : sameBase s s.
Proof. done. Qed.

Lemma sameBase_trans s1 s2 s3 : sameBase s1 s2 → sameBase s2 s3 → sameBase s1 s3.
Proof. unfold sameBase. congruence. Qed.

Lemma sameBase_setResidualGraph rg s : sameBase s (setResidualGraph rg s).
Proof. done. Qed.

Lemma sameBase_fields s s' :
  sameBase s s' →
  baseGraph_ s' = baseGraph_ s ∧ source_ s' = source_ s ∧
  targets_ s' = targets_ s ∧ arcCosts_ s' = arcCosts_ s ∧
  flowMap_ s' = flowMap_ s ∧ capacityMap_ s' = capacityMap_ s ∧
  nodeTimestepMap_ s' = nodeTimestepMap_ s ∧
  intermediateArcs_ s' = intermediateArcs_ s ∧
  parentToDuplicateMap_ s' = parentToDuplicateMap_ s ∧
  duplicateToParentMap_ s' = duplicateToParentMap_ s.
Proof.
  unfold sameBase. destruct s, s'. simpl. intros [=]. by repeat split.
Qed.

Lemma sameBase_flowOf s s' a : sameBase s s' → flowOf s' a = flowOf s a.
Proof.
  intros H. apply sameBase_fields in H. unfold flowOf.
  by destruct H as (_ & _ & _ & _ & -> & _).
Qed.

Lemma sameBase_capacityOf s s' a :
  sameBase s s' → capacityOf s' a = capacityOf s a.
Proof.
  intros H. apply sameBase_fields in H. unfold capacityOf.
  by destruct H as (_ & _ & _ & _ & _ & -> & _).
Qed.

Lemma tokensKept_refl rg : tokensKept rg rg.
Proof. by intros a d. Qed.

Lemma tokensKept_trans rg1 rg2 rg3 :
  tokensKept rg1 rg2 → tokensKept rg2 rg3 → tokensKept rg1 rg3.
Proof.
  intros H12 H23 a d. destruct (H12 a d), (H23 a d). split; set_solver.
Qed.

Lemma tokensKept_modify f a d rg :
  (∀ r, providedTokens r ⊆ providedTokens (f r) ∧
        forbiddenTokens r ⊆ forbiddenTokens (f r)) →
  tokensKept rg (modifyResidualArc f a d rg).
Proof.
  intros Hf a' d'. rewrite residualArc_modify. case_decide as E; [|done].
  destruct E as [<- <-]. apply Hf.
Qed.

Lemma tokensKept_updateArc a d c k rg : tokensKept rg (rg_updateArc a d c k rg).
Proof. by apply tokensKept_modify. Qed.

Lemma tokensKept_enableArc a d b rg : tokensKept rg (rg_enableArc a d b rg).
Proof. by apply tokensKept_modify. Qed.

Lemma tokensKept_addProvidedToken a d n rg :
  tokensKept rg (rg_addProvidedToken a d n rg).
Proof. apply tokensKept_modify. intros r. simpl. set_solver. Qed.

Lemma tokensKept_addForbiddenToken a d n rg :
  tokensKept rg (rg_addForbiddenToken a d n rg).
Proof. apply tokensKept_modify. intros r. simpl. set_solver. Qed.

Lemma residualStep_refl s rg : residualGraph_ s = Some rg → residualStep s s.
Proof. intros H. split; [done|]. exists rg, rg. auto using tokensKept_refl. Qed.

Lemma residualStep_trans s1 s2 s3 :
  residualStep s1 s2 → residualStep s2 s3 → residualStep s1 s3.
Proof.
  intros [Hb (rg1 & rg2 & H1 & H2 & Hk)] [Hb' (rg2' & rg3 & H2' & H3 & Hk')].
  split; [by eapply sameBase_trans|].
  exists rg1, rg3. split; [done|]. split; [done|].
  rewrite H2 in H2'. injection H2' as <-. by eapply tokensKept_trans.
Qed.

Lemma residualStep_set s rg rg' :
  residualGraph_ s = Some rg → tokensKept rg rg' →
  residualStep s (setResidualGraph (Some rg') s).
Proof. intros H Hk. split; [done|]. by exists rg, rg'. Qed.

Lemma residualStep_residual s s' :
  residualStep s s' → ∃ rg', residualGraph_ s' = Some rg'.
Proof. intros [_ (rg & rg' & _ & H & _)]. eauto. Qed.

Lemma updateArc_step a s rg :
  residualGraph_ s = Some rg → 0 ≤ flowOf s a ≤ capacityOf s a →
  ∃ s', updateArc a s = Some s' ∧ residualStep s s'.
Proof.
  intros Hrg Hflow. unfold updateArc. rewrite Hrg.
  rewrite !bool_decide_eq_false_2 by lia. eexists. split; [reflexivity|].
  apply (residualStep_set _ rg); [done|].
  eapply tokensKept_trans; apply tokensKept_updateArc.
Qed.

Lemma updateArc_Some a s s' :
  updateArc a s = Some s' →
  0 ≤ flowOf s a ≤ capacityOf s a ∧ residualStep s s'.
Proof.
  unfold updateArc. intros H.
  case_bool_decide; [done|]. case_bool_decide; [done|].
  destruct (residualGraph_ s) as [rg|] eqn:Hrg; [|done].
  simpl in H. injection H as <-. split; [lia|].
  apply (residualStep_set _ rg); [done|].
  eapply tokensKept_trans; apply tokensKept_updateArc.
Qed.

Lemma enableArc_step a b s rg :
  residualGraph_ s = Some rg →
  ∃ s', enableArc a b s = Some s' ∧ residualStep s s'.
Proof.
  intros Hrg. unfold enableArc. rewrite Hrg. eexists. split; [reflexivity|].
  apply (residualStep_set _ rg); [done|].
  eapply tokensKept_trans; apply tokensKept_enableArc.
Qed.

Lemma enableArcs_step l b s rg :
  residualGraph_ s = Some rg →
  ∃ s', enableArcs l b s = Some s' ∧ residualStep s s'.
Proof.
  intros Hrg. unfold enableArcs.
  destruct (forEach_total (λ st a, enableArc a b st) (residualStep s) l s)
    as (s' & E & Hs'); [| by eapply residualStep_refl | by eauto].
  intros st a _ Hst. destruct (residualStep_residual _ _ Hst) as [rg' Hrg'].
  destruct (enableArc_step a b st rg' Hrg') as (st' & E & Hst').
  exists st'. split; [done | by eapply residualStep_trans].
Qed.

Lemma updateEnabledArc_step a s rg :
  residualGraph_ s = Some rg →
  ∃ s', updateEnabledArc a s = Some s' ∧ residualStep s s'.
Proof.
  intros Hrg. unfold updateEnabledArc.
  assert (∃ s1,
    match parentToDuplicateMap_ s !! arcSource (baseGraph_ s) a with
    | Some dup =>
        if negb (isTarget s (arcTarget (baseGraph_ s) a))
        then toggleDivision dup (arcTarget (baseGraph_ s) a)
               (bool_decide (sumInFlow s (arcSource (baseGraph_ s) a) = 1)) s
        else updateEnabledArcElse a (arcSource (baseGraph_ s) a)
               (arcTarget (baseGraph_ s) a) s
    | None => updateEnabledArcElse a (arcSource (baseGraph_ s) a)
                (arcTarget (baseGraph_ s) a) s
    end = Some s1 ∧ residualStep s s1) as (s1 & -> & Hs1).
  { assert (∃ s1, updateEnabledArcElse a (arcSource (baseGraph_ s) a)
                    (arcTarget (baseGraph_ s) a) s = Some s1 ∧
                  residualStep s s1) as Helse.
    { unfold updateEnabledArcElse.
      destruct (duplicateToParentMap_ s !! _).
      - case_bool_decide; by eapply enableArcs_step.
      - case_bool_decide; [by eapply enableArcs_step|].
        destruct (isTarget _ _); [by eapply enableArcs_step|].
        eexists. split; [done | by eapply residualStep_refl]. }
    destruct (parentToDuplicateMap_ s !! _); [|done].
    destruct (negb _); [by eapply enableArcs_step | done]. }
  simpl. destruct (residualStep_residual _ _ Hs1) as [rg1 Hrg1].
  destruct (_ && _); [|by eauto].
  destruct (enableArcs_step
              (filter (λ oa, isTarget s1 (arcTarget (baseGraph_ s1) oa) = true)
                 (outArcs (baseGraph_ s1) (arcSource (baseGraph_ s) a)))
              (bool_decide (sumOutFlow s1 (arcSource (baseGraph_ s) a) = 0))
              s1 rg1 Hrg1) as (s2 & E2 & Hs2).
  unfold toggleDisappearanceArc. rewrite E2. simpl.
  destruct (residualStep_residual _ _ Hs2) as [rg2 Hrg2].
  destruct (enableArcs_step
              (filter (λ ia, arcSource (baseGraph_ s2) ia = source_ s2)
                 (inArcs (baseGraph_ s2) (arcTarget (baseGraph_ s) a)))
              (bool_decide (sumInFlow s2 (arcTarget (baseGraph_ s) a) = 0))
              s2 rg2 Hrg2) as (s3 & E3 & Hs3).
  unfold toggleAppearanceArc. rewrite E3. exists s3. split; [done|].
  eapply residualStep_trans; [exact Hs1|].
  by eapply residualStep_trans.
Qed.

(** If every run of the body keeps [I] and [Qp], and the run on [x]
    establishes [Qp], then [Qp] holds after a loop that visits [x]. *)
Lemma forEach_establishes {A S : Type} (body : S → A → option S)
    (I Qp : S → Prop) (l : list A) (x : A) (s s' : S) :
  (∀ st y st', I st → body st y = Some st' →
     I st' ∧ (Qp st → Qp st') ∧ (y = x → Qp st')) →
  I s → forEach body l s = Some s' →
  I s' ∧ (Qp s ∨ x ∈ l → Qp s').
Proof.
  intros Hbody. revert s. induction l as [|y l IH]; intros s Hs Hrun;
    simpl in Hrun.
  - simplify_eq. split; [done|]. intros [?|Hx]; [done|].
    by apply elem_of_nil in Hx.
  - destruct (body s y) as [s1|] eqn:E; simpl in Hrun; [|done].
    destruct (Hbody s y s1 Hs E) as (Hs1 & Hkeep & Hest).
    destruct (IH s1 Hs1 Hrun) as [HI HQ]. split; [done|].
    intros [Hq|Hx]; apply HQ.
    + left. by apply Hkeep.
    + apply elem_of_cons in Hx as [->|Hx]; [left; by apply Hest | by right].
Qed.

(** ** Division tokens *)

Lemma initializeArc_step (a : Arc) (s : FlowGraph) (rg : ResidualGraph) :
  residualGraph_ s = Some rg → 0 ≤ flowOf s a ≤ capacityOf s a →
  ∃ s' rg',
    initializeArc s a = Some s' ∧ residualStep s s' ∧
    residualGraph_ s' = Some rg' ∧
    (∀ v, duplicateToParentMap_ s !! arcTarget (baseGraph_ s) a = Some v →
          v ∈ providedTokens (residualArc rg' a Forward)) ∧
    (duplicateToParentMap_ s !! arcTarget (baseGraph_ s) a = None →
     is_Some (parentToDuplicateMap_ s !! arcTarget (baseGraph_ s) a) →
     arcTarget (baseGraph_ s) a ∈ forbiddenTokens (residualArc rg' a Backward)).
Proof.
  intros Hrg Hflow. unfold initializeArc.
  destruct (updateArc_step a s rg Hrg Hflow) as (s1 & -> & Hs1). simpl.
  destruct (residualStep_residual _ _ Hs1) as [rg1 Hrg1].
  destruct (enableArc_step a true s1 rg1 Hrg1) as (s2 & -> & Hs2). simpl.
  destruct (residualStep_residual _ _ Hs2) as [rg2 Hrg2]. rewrite Hrg2. simpl.
  assert (residualStep s s2) as Hs12 by by eapply residualStep_trans.
  destruct (sameBase_fields _ _ (proj1 Hs12))
    as (-> & _ & _ & _ & _ & _ & _ & _ & -> & ->).
  destruct (duplicateToParentMap_ s !! _) as [parent|] eqn:Ed2p.
  - eexists _, _. split; [reflexivity|]. split; [|split; [reflexivity|]].
    + eapply residualStep_trans; [exact Hs12|].
      apply (residualStep_set _ rg2); [exact Hrg2|].
      apply tokensKept_addProvidedToken.
    + split; [|done]. intros v [= <-].
      unfold rg_addProvidedToken. rewrite residualArc_modify_eq. simpl.
      apply elem_of_union. left. by apply elem_of_singleton.
  - destruct (parentToDuplicateMap_ s !! _) as [dup|] eqn:Ep2d.
    + eexists _, _. split; [reflexivity|]. split; [|split; [reflexivity|]].
      * eapply residualStep_trans; [exact Hs12|].
        apply (residualStep_set _ rg2); [exact Hrg2|].
        apply tokensKept_addForbiddenToken.
      * split; [done|]. intros _ _.
        unfold rg_addForbiddenToken. rewrite residualArc_modify_eq. simpl.
        apply elem_of_union. left. by apply elem_of_singleton.
    + exists s2, rg2. do 4 (split; [done|]). by intros _ [? ?].
Qed.

Lemma initializeArc_Some (a : Arc) (s s' : FlowGraph) :
  initializeArc s a = Some s' →
  ∃ rg',
    residualStep s s' ∧ residualGraph_ s' = Some rg' ∧
    (∀ v, duplicateToParentMap_ s !! arcTarget (baseGraph_ s) a = Some v →
          v ∈ providedTokens (residualArc rg' a Forward)) ∧
    (duplicateToParentMap_ s !! arcTarget (baseGraph_ s) a = None →
     is_Some (parentToDuplicateMap_ s !! arcTarget (baseGraph_ s) a) →
     arcTarget (baseGraph_ s) a ∈ forbiddenTokens (residualArc rg' a Backward)).
Proof.
  intros H.
  assert (∃ s1, updateArc a s = Some s1) as [s1 E].
  { unfold initializeArc in H. destruct (updateArc a s); [eauto | done]. }
  apply updateArc_Some in E as [Hflow [_ (rg & _ & Hrg & _)]].
  destruct (initializeArc_step a s rg Hrg Hflow) as (s'' & rg' & E' & Hrest).
  rewrite E' in H. injection H as <-. by exists rg'.
Qed.

Lemma divisionTokensAt_kept s s' rg rg' a :
  sameBase s s' → tokensKept rg rg' →
  divisionTokensAt s rg a → divisionTokensAt s' rg' a.
Proof.
  intros Hb Hk [Hp Hf]. unfold divisionTokensAt.
  destruct (sameBase_fields _ _ Hb) as (-> & _ & _ & _ & _ & _ & _ & _ & -> & ->).
  split.
  - intros v Hv. apply (Hk a Forward). by apply Hp.
  - intros H1 H2. apply (Hk a Backward). by apply Hf.
Qed.

Lemma initializeResidualGraph_tokens (useBack useOrdered : bool)
    (s : FlowGraph) :
  (∀ a, a ∈ allArcs (baseGraph_ s) → 0 ≤ flowOf s a ≤ capacityOf s a) →
  ∃ s' rg,
    initializeResidualGraph useBack useOrdered s = Some s' ∧
    sameBase s s' ∧ residualGraph_ s' = Some rg ∧
    ∀ a, a ∈ allArcs (baseGraph_ s) → divisionTokensAt s rg a.
Proof.
  intros Hflow. unfold initializeResidualGraph.
  set (s0 := setResidualGraph (Some (newResidualGraph useBack useOrdered)) s).
  assert (sameBase s s0) as Hb0 by done.
  assert (residualStep s0 s0) as Hrefl by by eapply residualStep_refl.
  change (baseGraph_ s0) with (baseGraph_ s).
  destruct (forEach_total initializeArc (residualStep s0)
              (allArcs (baseGraph_ s)) s0) as (s1 & E1 & Hs1); [|done|].
  { intros st a Ha Hst.
    destruct (residualStep_residual _ _ Hst) as [rg Hrg].
    destruct (initializeArc_step a st rg Hrg) as (st' & rg' & E & Hst' & _).
    - rewrite (sameBase_flowOf s0 st), (sameBase_capacityOf s0 st)
        by apply Hst.
      by apply Hflow.
    - exists st'. split; [done | by eapply residualStep_trans]. }
  rewrite E1. simpl.
  destruct (sameBase_fields _ _ (proj1 Hs1)) as (Hg1 & _).
  rewrite Hg1. change (baseGraph_ s0) with (baseGraph_ s).
  destruct (residualStep_residual _ _ Hs1) as [rg1 Hrg1].
  destruct (forEach_total (λ st a, updateEnabledArc a st) (residualStep s1)
              (allArcs (baseGraph_ s)) s1) as (s2 & E2 & Hs2);
    [|by eapply residualStep_refl|].
  { intros st a _ Hst.
    destruct (residualStep_residual _ _ Hst) as [rg Hrg].
    destruct (updateEnabledArc_step a st rg Hrg) as (st' & E & Hst').
    exists st'. split; [done | by eapply residualStep_trans]. }
  destruct Hs2 as [Hb2 (rg1' & rg2 & Hrg1' & Hrg2 & Hk2)].
  rewrite Hrg1 in Hrg1'. injection Hrg1' as <-.
  exists s2, rg2. split; [done|]. split.
  { eapply sameBase_trans; [exact Hb0|].
    eapply sameBase_trans; [apply Hs1 | exact Hb2]. }
  split; [done|]. intros a Ha.
  change (divisionTokensAt s0 rg2 a).
  apply (divisionTokensAt_kept s0 s0 rg1 rg2); [done | done |].
  destruct (forEach_establishes initializeArc (residualStep s0)
              (λ st, ∃ rg, residualGraph_ st = Some rg ∧
                           divisionTokensAt s0 rg a)
              (allArcs (baseGraph_ s)) a s0 s1) as [_ HQ]; [|done|done|].
  { intros st y st' Hst E.
    destruct (initializeArc_Some y st st' E) as (rg' & Hstep & Hrg' & Htok).
    split; [by eapply residualStep_trans|]. split.
    - intros (rg & Hrg & Hq). exists rg'. split; [done|].
      destruct Hstep as [Hb (r & r' & Hr & Hr' & Hk)].
      rewrite Hrg in Hr. injection Hr as <-.
      rewrite Hrg' in Hr'. injection Hr' as <-.
      by apply (divisionTokensAt_kept s0 s0 rg rg').
    - intros ->. exists rg'. split; [done|].
      destruct (sameBase_fields _ _ (proj1 Hst))
        as (Hg & _ & _ & _ & _ & _ & _ & _ & Hp & Hd).
      unfold divisionTokensAt. rewrite <- Hg, <- Hp, <- Hd. exact Htok. }
  destruct HQ as (rg & Hrg & Hq); [by right|].
  rewrite Hrg1 in Hrg. by injection Hrg as <-.
Qed.

(** C1 fails as stated: the token of the parent is forbidden on the
    backward residual arcs of the arcs that *enter* the parent node, not of
    those that leave it.  On [divisionGraph] the parent is node 3, its
    duplicate node 6, its out-arc is arc 3; after initialisation the
    backward residual arc of arc 3 forbids nothing. *)
Lemma initialisation_spares_mother_out_arcs :
  initializeResidualGraph true true divisionGraph =
    Some initialisedDivisionGraph ∧
  parentToDuplicateMap_ divisionGraph !! 3%nat = Some 6%nat ∧
  3%nat ∈ outArcs (baseGraph_ divisionGraph) 3%nat ∧
  ∃ rg, residualGraph_ initialisedDivisionGraph = Some rg ∧
        3%nat ∉ forbiddenTokens (residualArc rg 3%nat Backward).
Proof.
  split; [by vm_compute|]. split; [by vm_compute|]. split.
  { vm_compute. by left. }
  eexists. split; [by vm_compute|].
  apply (bool_decide_unpack _). by vm_compute.
Qed.

(** C1 (amended): let [v] be a parent with division duplicate [d] ([v] not
    itself a duplicate) and let the flows be within the capacities.  Then
    [initializeResidualGraph] succeeds; afterwards the forward residual arc
    of every in-arc of [d] provides token [id(v)], and the backward
    residual arc of every in-arc of [v] forbids token [id(v)]. *)
Theorem initializeResidualGraph_division_tokens (useBack useOrdered : bool)
    (s : FlowGraph) (v d : Node) :
  (∀ a, a ∈ allArcs (baseGraph_ s) → 0 ≤ flowOf s a ≤ capacityOf s a) →
  parentToDuplicateMap_ s !! v = Some d →
  duplicateToParentMap_ s !! d = Some v →
  duplicateToParentMap_ s !! v = None →
  ∃ s' rg,
    initializeResidualGraph useBack useOrdered s = Some s' ∧
    residualGraph_ s' = Some rg ∧
    (∀ a, a ∈ allArcs (baseGraph_ s) → arcTarget (baseGraph_ s) a = d →
          v ∈ providedTokens (residualArc rg a Forward)) ∧
    (∀ a, a ∈ allArcs (baseGraph_ s) → arcTarget (baseGraph_ s) a = v →
          v ∈ forbiddenTokens (residualArc rg a Backward)).
Proof.
  intros Hflow Hp2d Hd2p Hnodup.
  destruct (initializeResidualGraph_tokens useBack useOrdered s Hflow)
    as (s' & rg & E & _ & Hrg & Htok).
  exists s', rg. repeat split; try done.
  - intros a Ha Hta. destruct (Htok a Ha) as [Hprov _].
    apply Hprov. by rewrite Hta.
  - intros a Ha Hta. destruct (Htok a Ha) as [_ Hforb].
    rewrite Hta in Hforb. apply Hforb; [done | by eexists].
Qed.

Lemma initializeResidualGraph_division_tokens_witness :
  ∃ s' rg,
    initializeResidualGraph true true divisionGraph = Some s' ∧
    residualGraph_ s' = Some rg ∧
    (∀ a, a ∈ allArcs (baseGraph_ divisionGraph) →
          arcTarget (baseGraph_ divisionGraph) a = 6%nat →
          3%nat ∈ providedTokens (residualArc rg a Forward)) ∧
    (∀ a, a ∈ allArcs (baseGraph_ divisionGraph) →
          arcTarget (baseGraph_ divisionGraph) a = 3%nat →
          3%nat ∈ forbiddenTokens (residualArc rg a Backward)).
Proof.
  apply (initializeResidualGraph_division_tokens true true divisionGraph
           3%nat 6%nat).
  - intros a Ha. vm_compute in Ha.
    repeat (apply elem_of_cons in Ha as [->|Ha]; [by vm_compute|]).
    by apply elem_of_nil in Ha.
  - reflexivity.
  - reflexivity.
  - reflexivity.
Defined.

(** ** Flows of a parent and of its duplicate *)

Lemma flowOf_setFlow (s : FlowGraph) (a x : Arc) (f : Z) :
  flowOf (setFlow a f s) x = if decide (a = x) then f else flowOf s x.
Proof.
  unfold flowOf. simpl. rewrite lookup_insert. by destruct (decide (a = x)).
Qed.

Lemma NoDup_fmap_elem_inj {A B : Type} (f : A → B) (l : list A) (x y : A) :
  NoDup (f <$> l) → x ∈ l → y ∈ l → f x = f y → x = y.
Proof.
  induction l as [|z l IH]; simpl; intros Hnd Hx Hy Hf.
  - by apply elem_of_nil in Hx.
  - apply NoDup_cons in Hnd as [Hz Hnd].
    apply elem_of_cons in Hx as [->|Hx]; apply elem_of_cons in Hy as [->|Hy];
      try done.
    + exfalso. apply Hz. rewrite Hf. by apply list_elem_of_fmap_2.
    + exfalso. apply Hz. rewrite <- Hf. by apply list_elem_of_fmap_2.
    + by apply IH.
Qed.

Lemma partner_Some (g : Digraph) (n : Node) (oa da : Arc) :
  partner g n oa = Some da →
  da ∈ outArcs g n ∧ arcTarget g da = arcTarget g oa.
Proof.
  unfold partner. intros [H1 H2]%findFirst_Some. split; [done|].
  by apply bool_decide_eq_true in H2.
Qed.

(** Without parallel out-arcs the partner is the only out-arc with that
    target. *)
Lemma partner_unique (g : Digraph) (n : Node) (oa da : Arc) :
  distinctTargets g n → da ∈ outArcs g n →
  arcTarget g da = arcTarget g oa → partner g n oa = Some da.
Proof.
  intros Hnd Hda Ht. destruct (partner g n oa) as [da'|] eqn:E.
  - apply partner_Some in E as [Hda' Ht']. f_equal.
    apply (NoDup_fmap_elem_inj (arcTarget g) (outArcs g n)); try done.
    congruence.
  - unfold partner in E. pose proof (findFirst_None _ _ E da Hda) as Hf.
    unfold sameTarget in Hf. by apply bool_decide_eq_false in Hf.
Qed.

Lemma synchronizeOutArc_base (d : Node) (s : FlowGraph) (oa : Arc) :
  baseGraph_ (synchronizeOutArc d s oa) = baseGraph_ s.
Proof. unfold synchronizeOutArc. by destruct (findFirst _ _). Qed.

Lemma synchronizeOutArcs (d : Node) (l : list Arc) (s : FlowGraph) :
  let g := baseGraph_ s in
  let s' := foldl (synchronizeOutArc d) s l in
  NoDup (arcTarget g <$> l) →
  (∀ oa da, oa ∈ l → partner g d oa = Some da → da ∉ l) →
  baseGraph_ s' = g ∧
  (∀ oa da, oa ∈ l → partner g d oa = Some da →
     flowOf s' oa = Z.max (flowOf s oa) (flowOf s da) ∧
     flowOf s' da = Z.min (Z.max (flowOf s oa) (flowOf s da)) 1) ∧
  (∀ x, (∀ oa da, oa ∈ l → partner g d oa = Some da → x ≠ oa ∧ x ≠ da) →
     flowOf s' x = flowOf s x).
Proof.
  revert s. induction l as [|oa l IH]; intros s g s' Hnd Hout.
  { split; [done|]. split; [|done].
    intros oa' da' Hoa'. by apply elem_of_nil in Hoa'. }
  simpl in Hnd. apply NoDup_cons in Hnd as [Hoa Hnd].
  subst s'. simpl.
  set (s1 := synchronizeOutArc d s oa).
  assert (baseGraph_ s1 = g) as Hg1 by apply synchronizeOutArc_base.
  destruct (IH s1) as (Hg & Hpairs & Hrest).
  { by rewrite Hg1. }
  { rewrite Hg1. intros oa' da' Hin Hp Hda'.
    apply (Hout oa' da'); [by right | done | by right]. }
  rewrite Hg1 in Hpairs, Hrest.
  assert (∀ oa', oa' ∈ l → arcTarget g oa' ≠ arcTarget g oa) as Hdiff.
  { intros oa' Hin Heq. apply Hoa. rewrite <- Heq.
    by apply list_elem_of_fmap_2. }
  assert (oa ∉ l) as Hoal.
  { intros Hin. by apply (Hdiff oa Hin). }
  (* what the step on [oa] does *)
  assert (∀ x, (∀ da, partner g d oa = Some da → x ≠ oa ∧ x ≠ da) →
               flowOf s1 x = flowOf s x) as Hstep_other.
  { intros x Hx. unfold s1, synchronizeOutArc. fold g. fold (partner g d oa).
    destruct (partner g d oa) as [da|]; [|done].
    destruct (Hx da eq_refl) as [H1 H2].
    rewrite !flowOf_setFlow. rewrite decide_False by done.
    by rewrite decide_False by done. }
  split; [by rewrite Hg|]. split.
  - intros oa1 da1 Hin1 Hp1. apply elem_of_cons in Hin1 as [Heq|Hin1].
    + subst oa1.
      assert (da1 ≠ oa) as Hne.
      { intros Heq. subst da1.
        apply (Hout oa oa); [by left | done | by left]. }
      assert (da1 ∉ l) as Hdal.
      { intros Hin. apply (Hout oa da1); [by left | done | by right]. }
      pose proof (partner_Some _ _ _ _ Hp1) as [_ Htda].
      rewrite (Hrest oa), (Hrest da1).
      * unfold s1, synchronizeOutArc. fold g. fold (partner g d oa).
        rewrite Hp1. rewrite !flowOf_setFlow.
        rewrite (decide_True (P := oa = oa)) by done.
        rewrite (decide_False (P := oa = da1)) by done.
        by rewrite (decide_True (P := da1 = da1)) by done.
      * intros oa2 da2 Hin2 Hp2.
        pose proof (partner_Some _ _ _ _ Hp2) as [_ Ht2].
        split; [by intros Heq; subst oa2|].
        intros Heq. subst da2. apply (Hdiff oa2 Hin2). congruence.
      * intros oa2 da2 Hin2 Hp2. split; [by intros Heq; subst oa2|].
        intros Heq. subst da2.
        apply (Hout oa2 oa); [by right | done | by left].
    + destruct (Hpairs oa1 da1 Hin1 Hp1) as [-> ->].
      pose proof (partner_Some _ _ _ _ Hp1) as [_ Htda].
      rewrite (Hstep_other oa1), (Hstep_other da1); [done | |].
      * intros da Hp. pose proof (partner_Some _ _ _ _ Hp) as [_ Ht].
        split.
        -- intros Heq. subst da1.
           apply (Hout oa1 oa); [by right | done | by left].
        -- intros Heq. subst da1. apply (Hdiff oa1 Hin1). congruence.
      * intros da Hp. split.
        -- intros Heq. subst oa1. by apply Hoal.
        -- intros Heq. subst da.
           apply (Hout oa oa1); [by left | done | by right].
  - intros x Hx. rewrite Hrest.
    + apply Hstep_other. intros da Hp. apply (Hx oa da); [by left | done].
    + intros oa2 da2 Hin2 Hp2. apply (Hx oa2 da2); [by right | done].
Qed.

Lemma synchronizePair_base (s : FlowGraph) (c : Node * Node) :
  baseGraph_ (synchronizePair s c) = baseGraph_ s.
Proof.
  unfold synchronizePair.
  generalize (outArcs (baseGraph_ s) c.1). intros l. revert s.
  induction l as [|oa l IH]; intros s; simpl; [done|].
  by rewrite IH, synchronizeOutArc_base.
Qed.

Lemma synchronizePairs (L : list (Node * Node)) (s : FlowGraph) :
  let g := baseGraph_ s in
  let s' := foldl synchronizePair s L in
  NoDup L.*1 →
  (∀ v d v' d', (v, d) ∈ L → (v', d') ∈ L → d ≠ v' ∧ (v ≠ v' → d ≠ d')) →
  (∀ v d, (v, d) ∈ L → distinctTargets g v) →
  (∀ v d oa da, (v, d) ∈ L → oa ∈ outArcs g v → partner g d oa = Some da →
     flowOf s' oa = Z.max (flowOf s oa) (flowOf s da) ∧
     flowOf s' da = Z.min (Z.max (flowOf s oa) (flowOf s da)) 1) ∧
  (∀ x, (∀ v d oa da, (v, d) ∈ L → oa ∈ outArcs g v →
           partner g d oa = Some da → x ≠ oa ∧ x ≠ da) →
     flowOf s' x = flowOf s x).
Proof.
  revert s. induction L as [|[v d] L IH]; intros s g s' Hnd Hmaps Hsimple. subst g.
  { split; [|done]. intros v' d' oa' da' Hin'. by apply elem_of_nil in Hin'. }
  simpl in Hnd. apply NoDup_cons in Hnd as [Hv Hnd].
  subst s'. simpl.
  set (s1 := synchronizePair s (v, d)).
  assert (baseGraph_ s1 = (baseGraph_ s)) as Hg1 by apply synchronizePair_base.
  assert (d ≠ v) as Hdv.
  { apply (Hmaps v d v d); by left. }
  destruct (synchronizeOutArcs d (outArcs (baseGraph_ s) v) s) as (_ & Hhead & Hheadrest).
  { apply (Hsimple v d). by left. }
  { intros oa da Hoa [Hda _]%partner_Some Hda'.
    apply elem_of_outArcs in Hda as [_ Hs], Hda' as [_ Hs']. congruence. }
  change (foldl (synchronizeOutArc d) s (outArcs (baseGraph_ s) v)) with s1
    in Hhead, Hheadrest.
  destruct (IH s1) as [Hpairs Hrest].
  { done. }
  { intros v1 d1 v2 d2 H1 H2. apply Hmaps; by right. }
  { rewrite Hg1. intros v1 d1 H1. apply (Hsimple v1 d1). by right. }
  rewrite Hg1 in Hpairs, Hrest.
  assert (∀ v' d', (v', d') ∈ L → v' ≠ v) as Hkeys.
  { intros v' d' Hin ->. apply Hv.
    change v with ((v, d').1). by apply list_elem_of_fmap_2. }
  (* arcs of two different pairs are different *)
  assert (∀ v' d' oa da oa' da',
            (v', d') ∈ L → oa ∈ outArcs (baseGraph_ s) v → partner (baseGraph_ s) d oa = Some da →
            oa' ∈ outArcs (baseGraph_ s) v' → partner (baseGraph_ s) d' oa' = Some da' →
            (oa ≠ oa' ∧ oa ≠ da') ∧ (da ≠ oa' ∧ da ≠ da')) as Hapart.
  { intros v' d' oa da oa' da' Hin Hoa [Hda _]%partner_Some
           Hoa' [Hda' _]%partner_Some.
    apply elem_of_outArcs in Hoa as [_ Hsoa], Hda as [_ Hsda],
      Hoa' as [_ Hsoa'], Hda' as [_ Hsda'].
    pose proof (Hkeys v' d' Hin) as Hk.
    destruct (Hmaps v d v' d') as [Hne1 Hne2]; [by left | by right |].
    destruct (Hmaps v' d' v d) as [Hne3 _]; [by right | by left |].
    assert (d ≠ d') by (apply Hne2; congruence).
    repeat split; congruence. }
  split.
  - intros v1 d1 oa da Hin Hoa Hp. apply elem_of_cons in Hin as [[= -> ->]|Hin].
    + destruct (Hhead oa da Hoa Hp) as [<- <-].
      split; apply Hrest; intros v' d' oa' da' Hin' Hoa' Hp';
        by destruct (Hapart v' d' oa da oa' da') as [[? ?] [? ?]].
    + destruct (Hpairs v1 d1 oa da Hin Hoa Hp) as [-> ->].
      assert (flowOf s1 oa = flowOf s oa) as ->.
      { apply Hheadrest. intros oa' da' Hoa' Hp'.
        by destruct (Hapart v1 d1 oa' da' oa da) as [[? ?] [? ?]]. }
      assert (flowOf s1 da = flowOf s da) as ->; [|done].
      apply Hheadrest. intros oa' da' Hoa' Hp'.
      by destruct (Hapart v1 d1 oa' da' oa da) as [[? ?] [? ?]].
  - intros x Hx. rewrite Hrest.
    + apply Hheadrest. intros oa da Hoa Hp. apply (Hx v d oa da); by try left.
    + intros v' d' oa da Hin Hoa Hp. apply (Hx v' d' oa da); by try right.
Qed.

Lemma elem_of_coupledNodes (s : FlowGraph) (v d : Node) :
  (v, d) ∈ coupledNodes s ↔ parentToDuplicateMap_ s !! v = Some d.
Proof.
  unfold coupledNodes. rewrite merge_sort_Permutation.
  apply elem_of_map_to_list.
Qed.

Lemma NoDup_coupledNodes (s : FlowGraph) : NoDup (coupledNodes s).*1.
Proof.
  unfold coupledNodes. rewrite merge_sort_Permutation.
  apply NoDup_fst_map_to_list.
Qed.

(** ** The residual refresh: failure and frame *)

(** With a residual graph in place, [updateArc] succeeds exactly when
    the flow of the arc lies between zero and its capacity; otherwise it
    throws. *)
Lemma updateArc_succeeds_iff (a : Arc) (s : FlowGraph) (rg : ResidualGraph) :
  residualGraph_ s = Some rg →
  (is_Some (updateArc a s) ↔ 0 ≤ flowOf s a ≤ capacityOf s a).
Proof.
  intros Hrg. split.
  - intros [s' E]. by apply updateArc_Some in E as [? _].
  - intros Hflow. destruct (updateArc_step a s rg Hrg Hflow) as (s' & E & _).
    by exists s'.
Qed.

Lemma updateArc_succeeds_iff_witness :
  is_Some (updateArc 3%nat initialisedDivisionGraph) ↔
  0 ≤ flowOf initialisedDivisionGraph 3%nat
    ≤ capacityOf initialisedDivisionGraph 3%nat.
Proof.
  apply (updateArc_succeeds_iff 3%nat initialisedDivisionGraph
           (default (newResidualGraph true true)
              (residualGraph_ initialisedDivisionGraph))).
  by vm_compute.
Defined.

Lemma updateArc_eq (a : Arc) (s s' : FlowGraph) :
  updateArc a s = Some s' →
  ∃ rg,
    residualGraph_ s = Some rg ∧
    0 ≤ flowOf s a ≤ capacityOf s a ∧
    s' = setResidualGraph
           (Some (rg_updateArc a Backward
                    (negCost (getArcCost s a (flowOf s a - 1))) (flowOf s a)
                    (rg_updateArc a Forward (getArcCost s a (flowOf s a))
                       (capacityOf s a - flowOf s a) rg))) s.
Proof.
  unfold updateArc. intros H.
  case_bool_decide; [done|]. case_bool_decide; [done|].
  destruct (residualGraph_ s) as [rg|] eqn:Hrg; [|done].
  simpl in H. injection H as <-. exists rg. split; [done|]. split; [lia|done].
Qed.

(** What [updateArc a] leaves on the residual arcs: those of [a] are
    refreshed, all others are untouched. *)
Lemma updateArc_residual_arcs (a : Arc) (s s' : FlowGraph) (rg : ResidualGraph) :
  residualGraph_ s = Some rg → updateArc a s = Some s' →
  ∃ rg',
    residualGraph_ s' = Some rg' ∧ sameBase s s' ∧
    refreshed s rg' a ∧
    (∀ a' d, a' ≠ a → residualArc rg' a' d = residualArc rg a' d).
Proof.
  intros Hrg E. apply updateArc_eq in E as (rg0 & Hrg0 & Hflow & ->).
  rewrite Hrg in Hrg0. injection Hrg0 as <-.
  eexists. split; [reflexivity|]. split; [done|]. split.
  - unfold refreshed, rg_updateArc.
    rewrite !(residualArc_modify_ne _ a Backward a Forward) by done.
    by rewrite !residualArc_modify_eq.
  - intros a' d Hne. unfold rg_updateArc.
    rewrite !residualArc_modify_ne; [done | |]; intros [= ? ?]; by subst.
Qed.

(** ** Enabling steps *)

Lemma sameButEnabled_refl rg : sameButEnabled rg rg.
Proof. by intros a d. Qed.

Lemma sameButEnabled_trans rg1 rg2 rg3 :
  sameButEnabled rg1 rg2 → sameButEnabled rg2 rg3 → sameButEnabled rg1 rg3.
Proof.
  intros H12 H23 a d.
  destruct (H12 a d) as (? & ? & ? & ?), (H23 a d) as (? & ? & ? & ?).
  repeat split; congruence.
Qed.

Lemma sameButEnabled_enableArc a d b rg :
  sameButEnabled rg (rg_enableArc a d b rg).
Proof.
  intros a' d'. unfold rg_enableArc. rewrite residualArc_modify.
  case_decide as E; [|done]. by destruct E as [<- <-].
Qed.

Lemma enablingStep_refl s rg : residualGraph_ s = Some rg → enablingStep s s.
Proof.
  intros H. split; [done|]. exists rg, rg. auto using sameButEnabled_refl.
Qed.

Lemma enablingStep_trans s1 s2 s3 :
  enablingStep s1 s2 → enablingStep s2 s3 → enablingStep s1 s3.
Proof.
  intros [Hb (rg1 & rg2 & H1 & H2 & Hk)] [Hb' (rg2' & rg3 & H2' & H3 & Hk')].
  split; [by eapply sameBase_trans|].
  exists rg1, rg3. split; [done|]. split; [done|].
  rewrite H2 in H2'. injection H2' as <-. by eapply sameButEnabled_trans.
Qed.

Lemma enablingStep_residual s s' :
  enablingStep s s' → ∃ rg', residualGraph_ s' = Some rg'.
Proof. intros [_ (rg & rg' & _ & H & _)]. eauto. Qed.

Lemma enableArc_enabling a b s rg :
  residualGraph_ s = Some rg →
  ∃ s', enableArc a b s = Some s' ∧ enablingStep s s'.
Proof.
  intros Hrg. unfold enableArc. rewrite Hrg. eexists. split; [reflexivity|].
  split; [done|]. eexists rg, _. split; [done|]. split; [reflexivity|].
  eapply sameButEnabled_trans; apply sameButEnabled_enableArc.
Qed.

Lemma enableArcs_enabling l b s rg :
  residualGraph_ s = Some rg →
  ∃ s', enableArcs l b s = Some s' ∧ enablingStep s s'.
Proof.
  intros Hrg. unfold enableArcs.
  destruct (forEach_total (λ st a, enableArc a b st) (enablingStep s) l s)
    as (s' & E & Hs'); [| by eapply enablingStep_refl | by eauto].
  intros st a _ Hst. destruct (enablingStep_residual _ _ Hst) as [rg' Hrg'].
  destruct (enableArc_enabling a b st rg' Hrg') as (st' & E & Hst').
  exists st'. split; [done | by eapply enablingStep_trans].
Qed.

Lemma updateEnabledArc_enabling (a : Arc) (s : FlowGraph)
    (rg : ResidualGraph) :
  residualGraph_ s = Some rg →
  ∃ s', updateEnabledArc a s = Some s' ∧ enablingStep s s'.
Proof.
  intros Hrg. unfold updateEnabledArc.
  assert (∃ s1,
    match parentToDuplicateMap_ s !! arcSource (baseGraph_ s) a with
    | Some dup =>
        if negb (isTarget s (arcTarget (baseGraph_ s) a))
        then toggleDivision dup (arcTarget (baseGraph_ s) a)
               (bool_decide (sumInFlow s (arcSource (baseGraph_ s) a) = 1)) s
        else updateEnabledArcElse a (arcSource (baseGraph_ s) a)
               (arcTarget (baseGraph_ s) a) s
    | None => updateEnabledArcElse a (arcSource (baseGraph_ s) a)
                (arcTarget (baseGraph_ s) a) s
    end = Some s1 ∧ enablingStep s s1) as (s1 & -> & Hs1).
  { assert (∃ s1, updateEnabledArcElse a (arcSource (baseGraph_ s) a)
                    (arcTarget (baseGraph_ s) a) s = Some s1 ∧
                  enablingStep s s1) as Helse.
    { unfold updateEnabledArcElse.
      destruct (duplicateToParentMap_ s !! _).
      - case_bool_decide; by eapply enableArcs_enabling.
      - case_bool_decide; [by eapply enableArcs_enabling|].
        destruct (isTarget _ _); [by eapply enableArcs_enabling|].
        eexists. split; [done | by eapply enablingStep_refl]. }
    destruct (parentToDuplicateMap_ s !! _); [|done].
    destruct (negb _); [by eapply enableArcs_enabling | done]. }
  simpl. destruct (enablingStep_residual _ _ Hs1) as [rg1 Hrg1].
  destruct (_ && _); [|by eauto].
  destruct (enableArcs_enabling
              (filter (λ oa, isTarget s1 (arcTarget (baseGraph_ s1) oa) = true)
                 (outArcs (baseGraph_ s1) (arcSource (baseGraph_ s) a)))
              (bool_decide (sumOutFlow s1 (arcSource (baseGraph_ s) a) = 0))
              s1 rg1 Hrg1) as (s2 & E2 & Hs2).
  unfold toggleDisappearanceArc. rewrite E2. simpl.
  destruct (enablingStep_residual _ _ Hs2) as [rg2 Hrg2].
  destruct (enableArcs_enabling
              (filter (λ ia, arcSource (baseGraph_ s2) ia = source_ s2)
                 (inArcs (baseGraph_ s2) (arcTarget (baseGraph_ s) a)))
              (bool_decide (sumInFlow s2 (arcTarget (baseGraph_ s) a) = 0))
              s2 rg2 Hrg2) as (s3 & E3 & Hs3).
  unfold toggleAppearanceArc. rewrite E3. exists s3. split; [done|].
  eapply enablingStep_trans; [exact Hs1|].
  by eapply enablingStep_trans.
Qed.

Lemma updateEnabledArcs_enabling (p : Path) (s : FlowGraph)
    (rg : ResidualGraph) :
  residualGraph_ s = Some rg →
  ∃ s', updateEnabledArcs p s = Some s' ∧ enablingStep s s'.
Proof.
  intros Hrg. unfold updateEnabledArcs.
  destruct (forEach_total (λ st af, updateEnabledArc af.1 st)
              (enablingStep s) p s)
    as (s' & E & Hs'); [| by eapply enablingStep_refl | by eauto].
  intros st af _ Hst. destruct (enablingStep_residual _ _ Hst) as [rg' Hrg'].
  destruct (updateEnabledArc_enabling af.1 st rg' Hrg') as (st' & E & Hst').
  exists st'. split; [done | by eapply enablingStep_trans].
Qed.

Lemma refreshed_enabling s s' rg rg' a :
  sameBase s s' → sameButEnabled rg rg' → refreshed s rg a → refreshed s' rg' a.
Proof.
  intros Hb Hk (H1 & H2 & H3 & H4). unfold refreshed, getArcCost, costsOf.
  rewrite !(sameBase_flowOf s s'), !(sameBase_capacityOf s s') by done.
  destruct (sameBase_fields _ _ Hb) as (_ & _ & _ & -> & _).
  destruct (Hk a Forward) as (-> & -> & _), (Hk a Backward) as (-> & -> & _).
  done.
Qed.

(** ** Residual-graph initialisation, exactly *)

(** A loop invariant that may speak about the elements visited so far. *)
Lemma forEach_prefix_invariant {A S : Type} (body : S → A → option S)
    (P : list A → S → Prop) (l : list A) (s s' : S) :
  P [] s →
  (∀ visited x st st',
     P visited st → body st x = Some st' → P (visited ++ [x]) st') →
  forEach body l s = Some s' → P l s'.
Proof.
  intros H0 Hstep.
  assert (∀ visited st, P visited st → forEach body l st = Some s' →
                        P (visited ++ l) s') as Hgen.
  { induction l as [|x l IH]; intros visited st Hst Hrun; simpl in Hrun.
    - simplify_eq. by rewrite app_nil_r.
    - destruct (body st x) as [st1|] eqn:E; simpl in Hrun; [|done].
      replace (visited ++ x :: l) with ((visited ++ [x]) ++ l)
        by by rewrite <- app_assoc.
      eapply IH; [|exact Hrun]. by eapply Hstep. }
  intros Hrun. by apply (Hgen [] s).
Qed.

Lemma initializeArc_eq (a : Arc) (s s' : FlowGraph) (rg : ResidualGraph) :
  residualGraph_ s = Some rg → initializeArc s a = Some s' →
  ∃ rg',
    residualGraph_ s' = Some rg' ∧ sameBase s s' ∧
    0 ≤ flowOf s a ≤ capacityOf s a ∧
    refreshed s rg' a ∧
    (∀ a' d, a' ≠ a → residualArc rg' a' d = residualArc rg a' d) ∧
    providedTokens (residualArc rg' a Forward) =
      expectedProvided s a ∪ providedTokens (residualArc rg a Forward) ∧
    forbiddenTokens (residualArc rg' a Backward) =
      expectedForbidden s a ∪ forbiddenTokens (residualArc rg a Backward) ∧
    providedTokens (residualArc rg' a Backward) =
      providedTokens (residualArc rg a Backward) ∧
    forbiddenTokens (residualArc rg' a Forward) =
      forbiddenTokens (residualArc rg a Forward).
Proof.
  intros Hrg H. unfold initializeArc in H.
  destruct (updateArc a s) as [s1|] eqn:E1; [|done]. simpl in H.
  pose proof (updateArc_Some _ _ _ E1) as [Hflow _].
  destruct (updateArc_residual_arcs a s s1 rg Hrg E1)
    as (rg1 & Hrg1 & Hb1 & Hfresh1 & Hother1).
  apply updateArc_eq in E1 as (rg0 & Hrg0 & _ & Es1).
  rewrite Hrg in Hrg0. injection Hrg0 as <-.
  unfold enableArc in H. rewrite Hrg1 in H. simpl in H.
  set (rg2 := rg_enableArc a Backward true (rg_enableArc a Forward true rg1))
    in H.
  assert (sameButEnabled rg1 rg2) as Hk2.
  { eapply sameButEnabled_trans; apply sameButEnabled_enableArc. }
  assert (∀ a' d, a' ≠ a → residualArc rg2 a' d = residualArc rg1 a' d)
    as Hother2.
  { intros a' d Hne. unfold rg2, rg_enableArc.
    rewrite !residualArc_modify_ne; [done | |]; intros [= ? ?]; by subst. }
  assert (providedTokens (residualArc rg1 a Forward) =
            providedTokens (residualArc rg a Forward) ∧
          forbiddenTokens (residualArc rg1 a Forward) =
            forbiddenTokens (residualArc rg a Forward) ∧
          providedTokens (residualArc rg1 a Backward) =
            providedTokens (residualArc rg a Backward) ∧
          forbiddenTokens (residualArc rg1 a Backward) =
            forbiddenTokens (residualArc rg a Backward)) as (Hp1 & Hf1 & Hp1' & Hf1').
  { rewrite Es1 in Hrg1. simpl in Hrg1. injection Hrg1 as <-.
    unfold rg_updateArc.
    rewrite !(residualArc_modify_ne _ a Backward a Forward) by done.
    by rewrite !residualArc_modify_eq. }
  destruct (Hk2 a Forward) as (Hc2 & Hcap2 & Hp2 & Hf2).
  destruct (Hk2 a Backward) as (Hc2' & Hcap2' & Hp2' & Hf2').
  assert (refreshed s rg2 a) as Hfresh2.
  { apply (refreshed_enabling s s rg1 rg2); done. }
  destruct (sameBase_fields _ _ Hb1)
    as (Hg & _ & _ & _ & _ & _ & _ & _ & Hp2d & Hd2p).
  unfold expectedProvided, expectedForbidden.
  revert H. simpl. rewrite Hg, Hp2d, Hd2p.
  destruct (duplicateToParentMap_ s !! _) as [parent|] eqn:Ed2p.
  - intros [= <-]. eexists. split; [reflexivity|]. split; [done|].
    split; [done|]. unfold rg_addProvidedToken.
    split.
    { destruct Hfresh2 as (? & ? & ? & ?). unfold refreshed.
      rewrite residualArc_modify_eq.
      by rewrite (residualArc_modify_ne _ a Forward a Backward) by done. }
    split.
    { intros a' d Hne. rewrite residualArc_modify_ne by (intros [= ? ?]; by subst).
      rewrite Hother2 by done. by apply Hother1. }
    rewrite residualArc_modify_eq.
    rewrite (residualArc_modify_ne _ a Forward a Backward) by done. simpl.
    rewrite Hp2, Hp1, Hf2', Hf1', Hp2', Hp1', Hf2, Hf1.
    repeat split; try done. by rewrite (left_id_L ∅ (∪)).
  - destruct (parentToDuplicateMap_ s !! _) as [dup|] eqn:Ep2d.
    + intros [= <-]. eexists. split; [reflexivity|]. split; [done|].
      split; [done|]. unfold rg_addForbiddenToken.
      split.
      { destruct Hfresh2 as (? & ? & ? & ?). unfold refreshed.
        rewrite residualArc_modify_eq.
        by rewrite (residualArc_modify_ne _ a Backward a Forward) by done. }
      split.
      { intros a' d Hne.
        rewrite residualArc_modify_ne by (intros [= ? ?]; by subst).
        rewrite Hother2 by done. by apply Hother1. }
      rewrite residualArc_modify_eq.
      rewrite (residualArc_modify_ne _ a Backward a Forward) by done. simpl.
      rewrite Hp2, Hp1, Hf2', Hf1', Hp2', Hp1', Hf2, Hf1.
      repeat split; try done. by rewrite (left_id_L ∅ (∪)).
    + intros [= <-]. exists rg2. split; [done|]. split; [done|].
      split; [done|]. split; [done|]. split.
      { intros a' d Hne. rewrite Hother2 by done. by apply Hother1. }
      rewrite Hp2, Hp1, Hf2', Hf1', Hp2', Hp1', Hf2, Hf1.
      by rewrite !(left_id_L ∅ (∪)).
Qed.

Lemma sameBase_sym s s' : sameBase s s' → sameBase s' s.
Proof. unfold sameBase. congruence. Qed.

Lemma expectedProvided_sameBase s s' a :
  sameBase s s' → expectedProvided s' a = expectedProvided s a.
Proof.
  intros Hb. unfold expectedProvided.
  by destruct (sameBase_fields _ _ Hb)
    as (-> & _ & _ & _ & _ & _ & _ & _ & _ & ->).
Qed.

Lemma expectedForbidden_sameBase s s' a :
  sameBase s s' → expectedForbidden s' a = expectedForbidden s a.
Proof.
  intros Hb. unfold expectedForbidden.
  by destruct (sameBase_fields _ _ Hb)
    as (-> & _ & _ & _ & _ & _ & _ & _ & -> & ->).
Qed.

Lemma divisionTokensExactly_enabling s s' rg rg' a :
  sameBase s s' → sameButEnabled rg rg' →
  divisionTokensExactly s rg a → divisionTokensExactly s' rg' a.
Proof.
  intros Hb Hk (H1 & H2 & H3 & H4). unfold divisionTokensExactly.
  rewrite (expectedProvided_sameBase s s'), (expectedForbidden_sameBase s s')
    by done.
  destruct (Hk a Forward) as (_ & _ & -> & ->).
  destruct (Hk a Backward) as (_ & _ & -> & ->). done.
Qed.

Lemma initializeArcs_exact (useBack useOrdered : bool) (l : list Arc)
    (s s' : FlowGraph) :
  residualGraph_ s = Some (newResidualGraph useBack useOrdered) →
  forEach initializeArc l s = Some s' →
  sameBase s s' ∧
  ∃ rg, residualGraph_ s' = Some rg ∧
    (∀ a, a ∈ l →
       0 ≤ flowOf s a ≤ capacityOf s a ∧ refreshed s rg a ∧
       divisionTokensExactly s rg a) ∧
    (∀ a d, a ∉ l →
       providedTokens (residualArc rg a d) = ∅ ∧
       forbiddenTokens (residualArc rg a d) = ∅).
Proof.
  intros Hnew Hrun.
  apply (forEach_prefix_invariant initializeArc
    (λ visited st,
       sameBase s st ∧
       ∃ rg, residualGraph_ st = Some rg ∧
         (∀ a, a ∈ visited →
            0 ≤ flowOf s a ≤ capacityOf s a ∧ refreshed s rg a ∧
            divisionTokensExactly s rg a) ∧
         (∀ a d, a ∉ visited →
            providedTokens (residualArc rg a d) = ∅ ∧
            forbiddenTokens (residualArc rg a d) = ∅)) l s s'); [| |done].
  - split; [done|]. eexists. split; [exact Hnew|]. split.
    + intros a Ha. by apply elem_of_nil in Ha.
    + intros a d _. by destruct d.
  - intros visited x st st' (Hb & rg & Hrg & Hvis & Hnot) E.
    destruct (initializeArc_eq x st st' rg Hrg E)
      as (rg' & Hrg' & Hb' & Hflow & Hfresh & Hother & Hp & Hf & Hp' & Hf').
    split; [by eapply sameBase_trans|].
    exists rg'. split; [done|].
    assert (divisionTokensExactly s rg' x) as Hexact.
    { unfold divisionTokensExactly.
      rewrite Hp, Hf, Hp', Hf'.
      rewrite (expectedProvided_sameBase s st),
        (expectedForbidden_sameBase s st) by done.
      destruct (decide (x ∈ visited)) as [Hin|Hin].
      - destruct (Hvis x Hin) as (_ & _ & H1 & H2 & H3 & H4).
        rewrite H1, H2, H3, H4. by rewrite !(idemp_L (∪)).
      - destruct (Hnot x Forward Hin) as [H1 H2].
        destruct (Hnot x Backward Hin) as [H3 H4].
        rewrite H1, H2, H3, H4. by rewrite !(right_id_L ∅ (∪)). }
    split.
    + intros a Ha. destruct (decide (a = x)) as [->|Hne].
      * split.
        { by rewrite <- (sameBase_flowOf s st), <- (sameBase_capacityOf s st). }
        split; [|done].
        apply (refreshed_enabling st s rg' rg');
          [by apply sameBase_sym | apply sameButEnabled_refl | done].
      * apply elem_of_app in Ha as [Ha|Ha];
          [|apply list_elem_of_singleton in Ha; done].
        destruct (Hvis a Ha) as (H0 & H1 & H2). split; [done|].
        unfold refreshed, divisionTokensExactly in *.
        by rewrite !Hother by done.
    + intros a d Ha.
      assert (a ≠ x) as Hne.
      { intros ->. apply Ha. apply elem_of_app. right.
        by apply list_elem_of_singleton. }
      rewrite Hother by done. apply Hnot.
      intros Hin. apply Ha. apply elem_of_app. by left.
Qed.

(** What a successful [initializeResidualGraph] leaves behind. *)
Lemma initializeResidualGraph_Some (useBack useOrdered : bool)
    (s s' : FlowGraph) :
  initializeResidualGraph useBack useOrdered s = Some s' →
  sameBase s s' ∧
  ∃ rg, residualGraph_ s' = Some rg ∧
    (∀ a, a ∈ allArcs (baseGraph_ s) →
       0 ≤ flowOf s a ≤ capacityOf s a ∧ refreshed s rg a ∧
       divisionTokensExactly s rg a) ∧
    (∀ a d, a ∉ allArcs (baseGraph_ s) →
       providedTokens (residualArc rg a d) = ∅ ∧
       forbiddenTokens (residualArc rg a d) = ∅).
Proof.
  unfold initializeResidualGraph.
  set (s0 := setResidualGraph (Some (newResidualGraph useBack useOrdered)) s).
  change (baseGraph_ s0) with (baseGraph_ s).
  destruct (forEach initializeArc (allArcs (baseGraph_ s)) s0) as [s1|] eqn:E1;
    [|done].
  simpl. intros E2.
  destruct (initializeArcs_exact useBack useOrdered _ s0 s1 eq_refl E1)
    as (Hb1 & rg1 & Hrg1 & Hvis & Hnot).
  assert (enablingStep s1 s') as [Hb2 (rg1' & rg2 & Hrg1' & Hrg2 & Hk)].
  { revert E2. apply forEach_invariant; [|by eapply enablingStep_refl].
    intros st a st' _ Hst E.
    destruct (enablingStep_residual _ _ Hst) as [rg Hrg].
    destruct (updateEnabledArc_enabling a st rg Hrg) as (st'' & E' & Hst').
    rewrite E' in E. injection E as <-. by eapply enablingStep_trans. }
  rewrite Hrg1 in Hrg1'. injection Hrg1' as <-.
  split; [by eapply (sameBase_trans s s1 s')|].
  exists rg2. split; [done|]. split.
  - intros a Ha. destruct (Hvis a Ha) as (H0 & H1 & H2).
    split; [done|]. split.
    + by apply (refreshed_enabling s0 s0 rg1 rg2).
    + by apply (divisionTokensExactly_enabling s0 s0 rg1 rg2).
  - intros a d Ha. destruct (Hnot a d Ha) as [H1 H2].
    destruct (Hk a d) as (_ & _ & -> & ->). done.
Qed.

(** ** The loop without a cap *)


(** A search that pushes one unit along arc 2 and takes it back: with
    [maxNumPaths = 0] the loop is still running after forty iterations and
    has augmented forty times. *)
Example tracking_uncapped_runs_on :
  ∃ t,
    maxFlowMinCostTracking (λ _ _ _, ([(2%nat, 1); (2%nat, -1)], Number (-1)))
      0 true 40 0%Q true true divisionGraph = OutOfFuel t ∧
    tr_augmentations t = 40%nat ∧ tr_iter t = 40.
Proof. eexists. split; [by vm_compute|]. by vm_compute. Qed.


(** X1: after [initializeResidualGraph]: the base graph is as before, every
    arc the arc iterator visits had a feasible flow, its two residual arcs
    are up to date, and the only tokens in the residual graph are the
    division tokens: the parent on the forward arc of each arc into a
    duplicate, the parent itself on the backward arc of each arc into a
    parent. *)
Theorem initializeResidualGraph_exact (useBack useOrdered : bool)
    (s s' : FlowGraph) :
  initializeResidualGraph useBack useOrdered s = Some s' →
  sameBase s s' ∧
  ∃ rg, residualGraph_ s' = Some rg ∧
    (∀ a, a ∈ allArcs (baseGraph_ s) →
       0 ≤ flowOf s a ≤ capacityOf s a ∧ refreshed s rg a ∧
       divisionTokensExactly s rg a) ∧
    (∀ a d, a ∉ allArcs (baseGraph_ s) →
       providedTokens (residualArc rg a d) = ∅ ∧
       forbiddenTokens (residualArc rg a d) = ∅).
Proof. exact (initializeResidualGraph_Some useBack useOrdered s s'). Qed.

Lemma initializeResidualGraph_exact_witness :
  sameBase divisionGraph initialisedDivisionGraph ∧
  ∃ rg, residualGraph_ initialisedDivisionGraph = Some rg ∧
    (∀ a, a ∈ allArcs (baseGraph_ divisionGraph) →
       0 ≤ flowOf divisionGraph a ≤ capacityOf divisionGraph a ∧
       refreshed divisionGraph rg a ∧
       divisionTokensExactly divisionGraph rg a) ∧
    (∀ a d, a ∉ allArcs (baseGraph_ divisionGraph) →
       providedTokens (residualArc rg a d) = ∅ ∧
       forbiddenTokens (residualArc rg a d) = ∅).
Proof.
  apply (initializeResidualGraph_exact true true divisionGraph
           initialisedDivisionGraph).
  by vm_compute.
Defined.

(** X2: [initializeResidualGraph] fails exactly when an arc it visits
    carries a flow below zero or above its capacity. *)
Theorem initializeResidualGraph_succeeds_iff (useBack useOrdered : bool)
    (s : FlowGraph) :
  is_Some (initializeResidualGraph useBack useOrdered s) ↔
  ∀ a, a ∈ allArcs (baseGraph_ s) → 0 ≤ flowOf s a ≤ capacityOf s a.
Proof.
  split.
  - intros [s' E] a Ha.
    destruct (initializeResidualGraph_Some _ _ _ _ E)
      as (_ & rg & _ & Hvis & _).
    by destruct (Hvis a Ha).
  - intros Hflow.
    destruct (initializeResidualGraph_tokens useBack useOrdered s Hflow)
      as (s' & rg & E & _). by exists s'.
Qed.

(** ** Augmentation: what every step keeps *)

(** [augmentArc] changes the state only by writing a flow and refreshing
    the arc right away, once or twice: whatever such a write keeps, the
    step keeps. *)
Lemma augmentArc_by_writes (P : FlowGraph → Prop) (s s' : FlowGraph)
    (af : Arc * Z) :
  (∀ a f st st', P st → updateArc a (setFlow a f st) = Some st' → P st') →
  P s → augmentArc s af = Some s' → P s'.
Proof.
  intros Hwrite Hs. destruct af as [a delta]. unfold augmentArc.
  destruct (addInt (flowOf s a) delta) as [f|]; [|done]. simpl.
  destruct (updateArc a (setFlow a f s)) as [s1|] eqn:E1; [|done]. simpl.
  assert (P s1) as Hs1 by by eapply Hwrite.
  destruct (duplicateToParentMap_ s1 !! _) as [parent|].
  - destruct (findFirst _ _) as [oa|]; [|by intros [= <-]].
    destruct (addInt (flowOf s1 oa) delta) as [f'|]; [|done]. simpl.
    by apply Hwrite.
  - destruct (parentToDuplicateMap_ s1 !! _) as [dup|]; [|by intros [= <-]].
    destruct (findFirst _ _) as [oa|]; [|by intros [= <-]].
    by apply Hwrite.
Qed.

Lemma augmentUnitFlow_by_writes (P : FlowGraph → Prop) (p : Path)
    (s s' : FlowGraph) :
  (∀ a f st st', P st → updateArc a (setFlow a f st) = Some st' → P st') →
  P s → augmentUnitFlow p s = Some s' → P s'.
Proof.
  intros Hwrite. unfold augmentUnitFlow. apply forEach_invariant.
  intros st af st' _ Hst E. by eapply augmentArc_by_writes.
Qed.

Lemma write_feasible (l : list Arc) (a : Arc) (f : Z) (s s' : FlowGraph) :
  feasibleOn l s → updateArc a (setFlow a f s) = Some s' → feasibleOn l s'.
Proof.
  intros Hs E. apply updateArc_Some in E as [Hf [Hb _]].
  intros x Hx. rewrite (sameBase_flowOf _ _ x Hb), (sameBase_capacityOf _ _ x Hb).
  rewrite flowOf_setFlow in Hf. rewrite decide_True in Hf by done.
  rewrite flowOf_setFlow. destruct (decide (a = x)) as [<-|]; [exact Hf|].
  by apply Hs.
Qed.

Lemma getArcCost_setFlow (a x : Arc) (f n : Z) (s : FlowGraph) :
  getArcCost (setFlow a f s) x n = getArcCost s x n.
Proof. done. Qed.

Lemma write_upToDate (l : list Arc) (a : Arc) (f : Z) (s s' : FlowGraph) :
  residualUpToDate l s → updateArc a (setFlow a f s) = Some s' →
  residualUpToDate l s'.
Proof.
  intros (rg & Hrg & Hl) E.
  destruct (updateArc_residual_arcs a (setFlow a f s) s' rg Hrg E)
    as (rg' & Hrg' & Hb & Hfresh & Hother).
  exists rg'. split; [done|]. intros x Hx.
  destruct (decide (x = a)) as [->|Hne].
  - apply (refreshed_enabling (setFlow a f s) s' rg' rg');
      [done | apply sameButEnabled_refl | done].
  - apply (refreshed_enabling (setFlow a f s) s' rg' rg');
      [done | apply sameButEnabled_refl |].
    destruct (Hl x Hx) as (H1 & H2 & H3 & H4).
    unfold refreshed. rewrite !Hother by done.
    rewrite !getArcCost_setFlow, flowOf_setFlow.
    rewrite decide_False by done. done.
Qed.

Lemma write_sameNetwork (s0 : FlowGraph) (a : Arc) (f : Z) (s s' : FlowGraph) :
  sameNetwork s0 s → updateArc a (setFlow a f s) = Some s' → sameNetwork s0 s'.
Proof.
  intros Hs E. apply updateArc_Some in E as [_ [Hb _]].
  destruct (sameBase_fields _ _ Hb)
    as (H1 & H2 & H3 & H4 & _ & H5 & H6 & H7 & H8 & H9).
  unfold sameNetwork in *. simpl in *.
  rewrite H1, H2, H3, H4, H5, H6, H7, H8, H9. exact Hs.
Qed.

Lemma sameNetwork_refl s : sameNetwork s s.
Proof. by repeat split. Qed.

Lemma sameNetwork_trans s1 s2 s3 :
  sameNetwork s1 s2 → sameNetwork s2 s3 → sameNetwork s1 s3.
Proof.
  unfold sameNetwork. intros H12 H23.
  destruct H12 as (?&?&?&?&?&?&?&?&?), H23 as (?&?&?&?&?&?&?&?&?).
  repeat split; congruence.
Qed.

Lemma sameBase_sameNetwork s s' : sameBase s s' → sameNetwork s s'.
Proof.
  intros Hb. destruct (sameBase_fields _ _ Hb) as (?&?&?&?&?&?&?&?&?&?).
  by repeat split.
Qed.

(** What a successful [augmentUnitFlow] keeps. *)
Lemma augmentUnitFlow_invariant (l : list Arc) (p : Path) (s s' : FlowGraph) :
  feasibleOn l s → residualUpToDate l s →
  augmentUnitFlow p s = Some s' →
  feasibleOn l s' ∧ residualUpToDate l s' ∧ sameNetwork s s'.
Proof.
  intros Hf Hu E.
  apply (augmentUnitFlow_by_writes
           (λ st, feasibleOn l st ∧ residualUpToDate l st ∧ sameNetwork s st)
           p s s'); [| |done].
  - intros a f st st' (H1 & H2 & H3) Ew.
    split; [by eapply write_feasible|].
    split; [by eapply write_upToDate | by eapply write_sameNetwork].
  - split; [done|]. split; [done | apply sameNetwork_refl].
Qed.

(** X3: if [augmentUnitFlow] returns, the flow of every arc of [l] is
    again between zero and the capacity, the residual arcs of the arcs of
    [l] are up to date with the new flows, and nothing but flows and the
    residual graph has changed: each write to the flow map is checked and
    mirrored by [updateArc] before the next one. *)
Theorem augmentUnitFlow_keeps (l : list Arc) (p : Path) (s s' : FlowGraph) :
  feasibleOn l s → residualUpToDate l s →
  augmentUnitFlow p s = Some s' →
  feasibleOn l s' ∧ residualUpToDate l s' ∧ sameNetwork s s'.
Proof. exact (augmentUnitFlow_invariant l p s s'). Qed.

Lemma initialised_upToDate (useBack useOrdered : bool) (s s' : FlowGraph) :
  initializeResidualGraph useBack useOrdered s = Some s' →
  feasibleOn (allArcs (baseGraph_ s)) s' ∧
  residualUpToDate (allArcs (baseGraph_ s)) s'.
Proof.
  intros E.
  destruct (initializeResidualGraph_Some _ _ _ _ E)
    as (Hb & rg & Hrg & Hvis & _).
  split.
  - intros a Ha. rewrite (sameBase_flowOf s s'), (sameBase_capacityOf s s')
      by done. by destruct (Hvis a Ha).
  - exists rg. split; [done|]. intros a Ha. destruct (Hvis a Ha) as (_ & H & _).
    by apply (refreshed_enabling s s' rg rg); [|apply sameButEnabled_refl|].
Qed.

Lemma augmentUnitFlow_keeps_witness :
  feasibleOn (allArcs (baseGraph_ divisionGraph)) trackedDivisionGraph ∧
  residualUpToDate (allArcs (baseGraph_ divisionGraph)) trackedDivisionGraph ∧
  sameNetwork initialisedDivisionGraph trackedDivisionGraph.
Proof.
  apply (augmentUnitFlow_keeps (allArcs (baseGraph_ divisionGraph)) trackAB.1
           initialisedDivisionGraph trackedDivisionGraph).
  - apply (initialised_upToDate true true divisionGraph). by vm_compute.
  - apply (initialised_upToDate true true divisionGraph). by vm_compute.
  - by vm_compute.
Defined.

(** ** The loop: flows and residual graph *)

Lemma enablingStep_keeps (s0 : FlowGraph) (l : list Arc) (s s' : FlowGraph) :
  trackingInvariant s0 l s → enablingStep s s' → trackingInvariant s0 l s'.
Proof.
  intros (Hf & (rg & Hrg & Hu) & Hn) [Hb (rg1 & rg2 & Hrg1 & Hrg2 & Hk)].
  rewrite Hrg in Hrg1. injection Hrg1 as <-.
  split; [|split].
  - intros a Ha. rewrite (sameBase_flowOf s s'), (sameBase_capacityOf s s')
      by done. by apply Hf.
  - exists rg2. split; [done|]. intros a Ha.
    apply (refreshed_enabling s s' rg rg2); [done | done | by apply Hu].
  - eapply sameNetwork_trans; [exact Hn | by apply sameBase_sameNetwork].
Qed.

Lemma setFlow_sameNetwork (a : Arc) (f : Z) (s : FlowGraph) :
  sameNetwork s (setFlow a f s).
Proof. by repeat split. Qed.

Lemma augmentArc_sameNetwork (s s' : FlowGraph) (af : Arc * Z) :
  augmentArc s af = Some s' → sameNetwork s s'.
Proof.
  apply (augmentArc_by_writes (sameNetwork s)); [|apply sameNetwork_refl].
  intros a f st st'. apply write_sameNetwork.
Qed.

Lemma augmentArcThrown_sameNetwork (s : FlowGraph) (af : Arc * Z) :
  sameNetwork s (augmentArcThrown s af).
Proof.
  destruct af as [a delta]. unfold augmentArcThrown.
  destruct (addInt (flowOf s a) delta) as [f|]; [|apply sameNetwork_refl].
  destruct (updateArc a (setFlow a f s)) as [s1|] eqn:E1;
    [|apply setFlow_sameNetwork].
  assert (sameNetwork s s1) as H1
    by by apply (write_sameNetwork s a f s s1 (sameNetwork_refl s)).
  assert (∀ x g, sameNetwork s (setFlow x g s1)) as Hset.
  { intros x g. eapply sameNetwork_trans; [exact H1|].
    apply setFlow_sameNetwork. }
  destruct (duplicateToParentMap_ s1 !! _) as [parent|].
  - destruct (findFirst _ _) as [oa|]; [|done].
    by destruct (addInt (flowOf s1 oa) delta).
  - destruct (parentToDuplicateMap_ s1 !! _) as [dup|]; [|done].
    by destruct (findFirst _ _).
Qed.

Lemma augmentUnitFlowThrown_sameNetwork (p : Path) (s : FlowGraph) :
  sameNetwork s (augmentUnitFlowThrown p s).
Proof.
  revert s. induction p as [|af p IH]; intros s; simpl;
    [apply sameNetwork_refl|].
  destruct (augmentArc s af) as [s1|] eqn:E.
  - eapply sameNetwork_trans; [by eapply augmentArc_sameNetwork | apply IH].
  - apply augmentArcThrown_sameNetwork.
Qed.

Section TrackingInvariants.
Variable findShortestPath :
  ResidualGraph → list Node → bool → ShortestPathResult.
Variable maxNumPaths : Z.
Variable partialBFUpdates : bool.

Lemma trackingLoop_keeps (s0 : FlowGraph) (l : list Arc) (fuel : nat)
    (t : Tracking) :
  trackingInvariant s0 l (tr_graph t) →
  let o := trackingLoop findShortestPath maxNumPaths partialBFUpdates fuel t in
  sameNetwork s0 (tr_graph (trackingOf o)) ∧
  (threw o = false → trackingInvariant s0 l (tr_graph (trackingOf o))) ∧
  (threw o = true → negativePath (tr_result (trackingOf o)) = true).
Proof.
  revert t. induction fuel as [|fuel IH]; intros t Ht; simpl.
  { by destruct Ht as (? & ? & ?). }
  pose proof Ht as (Hf & Hu & Hn).
  destruct Hu as (rg & Hrg & Hu). rewrite Hrg. simpl.
  destruct (aboveTolerance _); simpl; [done|].
  destruct (negativePath _) eqn:Eneg; simpl; [|done].
  destruct (augmentUnitFlow _ _) as [s1|] eqn:E1; simpl; cycle 1.
  { split; [|done]. eapply sameNetwork_trans; [exact Hn|].
    apply augmentUnitFlowThrown_sameNetwork. }
  destruct (augmentUnitFlow_invariant l _ _ _ Hf (ex_intro _ rg (conj Hrg Hu)) E1)
    as (Hf1 & Hu1 & Hn1).
  destruct Hu1 as (rg1 & Hrg1 & Hu1).
  destruct (updateEnabledArcs_enabling
              (findShortestPath rg (targets_ (tr_graph t))
                 partialBFUpdates).1 s1 rg1 Hrg1) as (s2 & E2 & Hstep).
  rewrite E2. simpl.
  assert (trackingInvariant s0 l s2) as H2.
  { apply (enablingStep_keeps s0 l s1); [|done].
    split; [done|]. split; [by exists rg1|].
    by eapply sameNetwork_trans. }
  destruct (underCap _ _); simpl; [by apply IH|].
  by destruct H2 as (? & ? & ?).
Qed.
End TrackingInvariants.

(** X4: started on a graph whose flows are within the capacities and
    whose residual graph is absent or up to date, [maxFlowMinCostTracking]
    changes nothing but flows and the residual graph, however the call
    ends.  Unless the call ends in an exception, the flows are within the
    capacities and the residual graph is up to date, up to every iteration
    and whatever the search returns.  An exception can only come from
    applying a path: initialisation does not throw.  (After an exception
    the flow written last may be out of range, see
    [tracking_exception_leaves_write].) *)
Theorem tracking_keeps_flows_feasible
    (findShortestPath : ResidualGraph → list Node → bool → ShortestPathResult)
    (maxNumPaths : Z) (partialBFUpdates : bool) (fuel : nat)
    (initialStateEnergy : Q) (useBack useOrdered : bool) (s : FlowGraph) :
  feasibleOn (allArcs (baseGraph_ s)) s →
  residualGraph_ s = None ∨ residualUpToDate (allArcs (baseGraph_ s)) s →
  let o :=
    maxFlowMinCostTracking findShortestPath maxNumPaths partialBFUpdates fuel
      initialStateEnergy useBack useOrdered s in
  sameNetwork s (tr_graph (trackingOf o)) ∧
  (threw o = false →
   trackingInvariant s (allArcs (baseGraph_ s)) (tr_graph (trackingOf o))) ∧
  (threw o = true → negativePath (tr_result (trackingOf o)) = true).
Proof.
  intros Hf Hres. unfold maxFlowMinCostTracking.
  destruct (residualGraph_ s) as [rg|] eqn:Hrg.
  - destruct Hres as [Hres|Hres]; [done|].
    apply trackingLoop_keeps. simpl. split; [done|]. split; [done|].
    apply sameNetwork_refl.
  - destruct (initializeResidualGraph_tokens useBack useOrdered s Hf)
      as (s1 & rg1 & E & _).
    rewrite E. apply trackingLoop_keeps. simpl.
    destruct (initialised_upToDate _ _ _ _ E) as [Hf1 Hu1].
    split; [done|]. split; [done|].
    apply sameBase_sameNetwork.
    by destruct (initializeResidualGraph_Some _ _ _ _ E).
Qed.

Lemma tracking_keeps_flows_feasible_witness :
  threw
    (maxFlowMinCostTracking (searchWhileFree 0 trackAB) 0 true 5 0%Q true true
       divisionGraph) = false ∧
  trackingInvariant divisionGraph (allArcs (baseGraph_ divisionGraph))
    (tr_graph
       (trackingOf
          (maxFlowMinCostTracking (searchWhileFree 0 trackAB) 0 true 5 0%Q
             true true divisionGraph))).
Proof.
  assert (feasibleOn (allArcs (baseGraph_ divisionGraph)) divisionGraph)
    as Hfeas.
  { intros a Ha. vm_compute in Ha.
    repeat (apply elem_of_cons in Ha as [->|Ha]; [by vm_compute|]).
    by apply elem_of_nil in Ha. }
  assert (threw
            (maxFlowMinCostTracking (searchWhileFree 0 trackAB) 0 true 5 0%Q
               true true divisionGraph) = false) as Hret
    by (vm_compute; reflexivity).
  split; [exact Hret|].
  exact (proj1 (proj2 (tracking_keeps_flows_feasible
                         (searchWhileFree 0 trackAB) 0 true 5 0%Q true true
                         divisionGraph Hfeas (or_introl eq_refl))) Hret).
Defined.

(** A search that keeps returning the duplicate arc 6 of [divisionGraph]:
    the first augmentation fills arc 6 and its partner 3; the second writes
    flow 2 to arc 6, whose capacity is 1, and [updateArc] throws.  The
    object keeps the write. *)
Example tracking_exception_leaves_write :
  let o :=
    maxFlowMinCostTracking (λ _ _ _, ([(6%nat, 1)], Number (-1))) 0 true 5
      0%Q true true divisionGraph in
  threw o = true ∧
  flowOf (tr_graph (trackingOf o)) 6%nat = 2 ∧
  capacityOf (tr_graph (trackingOf o)) 6%nat = 1 ∧
  flowOf (tr_graph (trackingOf o)) 3%nat = 1.
Proof. by vm_compute. Qed.

(** ** Construction *)

Lemma arcsAppended_refl s : arcsAppended s s [].
Proof.
  unfold arcsAppended. simpl. rewrite app_nil_r.
  repeat split; try done.
Qed.

Lemma arcsAppended_trans s1 s2 s3 e1 e2 :
  arcsAppended s1 s2 e1 → arcsAppended s2 s3 e2 →
  arcsAppended s1 s3 (e1 ++ e2).
Proof.
  intros (Hn & He & Hs & Ht & Hts & Hi & Hp & Hd & Hr & Hold & Hnew)
         (Hn' & He' & Hs' & Ht' & Hts' & Hi' & Hp' & Hd' & Hr' & Hold' & Hnew').
  assert (numArcs (baseGraph_ s2) =
          (numArcs (baseGraph_ s1) + length e1)%nat) as Hlen.
  { unfold numArcs. by rewrite He, length_app, length_fmap. }
  unfold arcsAppended.
  split; [congruence|]. split.
  { by rewrite He', He, fmap_app, app_assoc. }
  do 7 (split; [congruence|]). split.
  - intros a Ha. destruct (Hold a Ha) as (<- & <- & <-).
    apply Hold'. lia.
  - intros i e Hi0. destruct (decide (i < length e1)%nat) as [Hlt|Hge].
    + rewrite lookup_app_l in Hi0 by done.
      destruct (Hnew i e Hi0) as (<- & <- & <-).
      apply Hold'. lia.
    + rewrite lookup_app_r in Hi0 by lia.
      destruct (Hnew' _ e Hi0) as (H1 & H2 & H3).
      replace (numArcs (baseGraph_ s1) + i)%nat
        with (numArcs (baseGraph_ s2) + (i - length e1))%nat by lia.
      done.
Qed.

Lemma addArc_appended u v costs s a s' :
  addArc u v costs s = Some (a, s') →
  costs ≠ [] ∧ a = numArcs (baseGraph_ s) ∧ arcsAppended s s' [(u, v, costs)].
Proof.
  unfold addArc. case_bool_decide as Hlen; [|done]. intros [= <- <-].
  split; [by intros ->; simpl in Hlen; lia|]. split; [done|].
  unfold arcsAppended, costsOf, flowOf, capacityOf, numArcs. simpl.
  do 9 (split; [done|]). split.
  - intros a Ha. rewrite !lookup_insert_ne by lia. done.
  - intros i e Hi. destruct i as [|i]; [|done]. injection Hi as <-.
    rewrite Nat.add_0_r, !lookup_insert_eq. done.
Qed.

(** [addArc] fails on an empty cost vector and on nothing else; the arc it
    returns is the first free arc id, has the given ends and cost vector,
    flow zero and the length of the cost vector as capacity; every earlier
    arc keeps its ends, costs, flow and capacity. *)
Lemma addArc_spec (u v : Node) (costs : CostVector) (s : FlowGraph) :
  (costs = [] → addArc u v costs s = None) ∧
  (costs ≠ [] →
   ∃ s', addArc u v costs s = Some (numArcs (baseGraph_ s), s') ∧
         arcsAppended s s' [(u, v, costs)]).
Proof.
  split.
  - by intros ->.
  - intros Hc. destruct (addArc u v costs s) as [[a s']|] eqn:E.
    + apply addArc_appended in E as (_ & -> & H). by exists s'.
    + unfold addArc in E. rewrite bool_decide_eq_true_2 in E; [done|].
      destruct costs; [done | simpl; lia].
Qed.

Lemma arcsAppended_arcTarget s s' e a :
  arcsAppended s s' e → (a < numArcs (baseGraph_ s))%nat →
  arcTarget (baseGraph_ s') a = arcTarget (baseGraph_ s) a.
Proof.
  intros (_ & He & _) Ha. by apply (arcTarget_extra _ _ e.*1).
Qed.

Lemma arcsAppended_isTarget s s' e n :
  arcsAppended s s' e → isTarget s' n = isTarget s n.
Proof. intros (_ & _ & _ & Ht & _). unfold isTarget. by rewrite Ht. Qed.

Lemma mirrorOutArc_old (d : Node) (s2 st : FlowGraph)
    (e : list (Node * Node * CostVector)) (oa : Arc) :
  arcsAppended s2 st e → (oa < numArcs (baseGraph_ s2))%nat →
  mirrorOutArc d st oa =
  if isTarget s2 (arcTarget (baseGraph_ s2) oa) then Some st
  else c0 ← head (costsOf s2 oa);
       snd <$> addArc d (arcTarget (baseGraph_ s2) oa) [c0] st.
Proof.
  intros Hst Hoa. unfold mirrorOutArc.
  rewrite (arcsAppended_arcTarget s2 st e), (arcsAppended_isTarget s2 st e)
    by done.
  destruct Hst as (_ & _ & _ & _ & _ & _ & _ & _ & _ & Hold & _).
  by destruct (Hold oa Hoa) as (-> & _).
Qed.

Lemma mirrorOutArcs_appended (d : Node) (s2 : FlowGraph) (l : list Arc) :
  ∀ st e,
    arcsAppended s2 st e →
    (∀ oa, oa ∈ l →
       (oa < numArcs (baseGraph_ s2))%nat ∧
       (isTarget s2 (arcTarget (baseGraph_ s2) oa) = false →
        costsOf s2 oa ≠ [])) →
    ∃ st', forEach (mirrorOutArc d) l st = Some st' ∧
           arcsAppended s2 st' (e ++ mirrorArcs s2 d l).
Proof.
  induction l as [|oa l IH]; intros st e Hst Hl.
  { exists st. split; [done|]. unfold mirrorArcs. simpl.
    by rewrite app_nil_r. }
  destruct (Hl oa) as [Hoa Hcost]; [by left|].
  assert (∀ oa', oa' ∈ l →
            (oa' < numArcs (baseGraph_ s2))%nat ∧
            (isTarget s2 (arcTarget (baseGraph_ s2) oa') = false →
             costsOf s2 oa' ≠ [])) as Hl'.
  { intros oa' Hin. apply Hl. by right. }
  cbn [forEach]. rewrite (mirrorOutArc_old d s2 st e oa) by done.
  unfold mirrorArcs. rewrite filter_cons.
  destruct (isTarget s2 (arcTarget (baseGraph_ s2) oa)) eqn:Etg.
  - rewrite decide_False by done. cbn [mbind option_bind]. by apply IH.
  - rewrite decide_True by done.
    destruct (costsOf s2 oa) as [|c0 cs] eqn:Ecs;
      [by destruct (Hcost eq_refl)|].
    cbn [head mbind option_bind].
    destruct (proj2 (addArc_spec d (arcTarget (baseGraph_ s2) oa) [c0] st))
      as (st1 & E1 & Hst1); [done|].
    rewrite E1. cbn [fmap option_fmap option_map snd mbind option_bind].
    destruct (IH st1 (e ++ [(d, arcTarget (baseGraph_ s2) oa, [c0])]))
      as (st' & E' & Hst'); [by eapply arcsAppended_trans | done |].
    exists st'. split; [done|].
    rewrite fmap_cons, Ecs. cbn [head default].
    by rewrite <- app_assoc in Hst'.
Qed.

Lemma mirrorArcs_ext (s s' : FlowGraph) (d : Node) (l : list Arc) :
  (∀ oa, oa ∈ l →
     arcTarget (baseGraph_ s') oa = arcTarget (baseGraph_ s) oa ∧
     costsOf s' oa = costsOf s oa) →
  targets_ s' = targets_ s →
  mirrorArcs s' d l = mirrorArcs s d l.
Proof.
  intros Hl Ht. unfold mirrorArcs, isTarget. rewrite Ht.
  rewrite (filter_ext_elem_of
             (λ oa, bool_decide (arcTarget (baseGraph_ s') oa ∈ targets_ s)
                    = false)
             (λ oa, bool_decide (arcTarget (baseGraph_ s) oa ∈ targets_ s)
                    = false) l).
  - apply list_fmap_ext. intros i oa Hi.
    apply list_elem_of_lookup_2, list_elem_of_filter in Hi as [_ Hin].
    by destruct (Hl oa Hin) as [-> ->].
  - intros oa Hin. by destruct (Hl oa Hin) as [-> _].
Qed.

(** X6: [allowMitosis] on a parent [v] other than the source, whose
    out-arcs have non-empty cost vectors: it succeeds and returns the first
    free arc id; the graph gains the duplicate [d] (the first free node id, labelled
    with the timestep of [v]), the division arc source → d with cost
    [divisionCost], and, for each out-arc of [v] that does not end in a
    target, one arc from [d] to the same node with the first marginal cost
    of the original as its only cost; all new arcs have flow zero; nothing
    is added that leads from [d] to a target; both division maps get the
    pair. *)
Theorem allowMitosis_mirrors (parent : FullNode) (divisionCost : Q)
    (s : FlowGraph) :
  let g := baseGraph_ s in
  let v := fn_v parent in
  let d := numNodes g in
  v ≠ source_ s →
  (∀ oa, oa ∈ outArcs g v → isTarget s (arcTarget g oa) = false →
         costsOf s oa ≠ []) →
  ∃ s3,
    allowMitosis parent divisionCost s =
      Some (numArcs g,
            setDuplicateToParent d v (setParentToDuplicate v d s3)) ∧
    arcsAppended
      (setTimestep d (timestepOf s v)
         (setBaseGraph (mkDigraph (S d) (arcEnds g)) s))
      s3
      ((source_ s, d, [divisionCost]) :: mirrorArcs s d (outArcs g v)).
Proof.
  intros g v d Hsrc Hcosts. unfold allowMitosis. cbn.
  fold g. fold v. fold d.
  set (s1 := setTimestep d (timestepOf s v)
               (setBaseGraph (mkDigraph (S d) (arcEnds g)) s)).
  destruct (proj2 (addArc_spec (source_ s) d [divisionCost] s1))
    as (s2 & E2 & H12); [done|].
  change (numArcs (baseGraph_ s1)) with (numArcs g) in E2.
  rewrite E2. cbn.
  assert (arcEnds (baseGraph_ s2) = arcEnds g ++ [(source_ s, d)]) as He2.
  { by destruct H12 as (_ & -> & _). }
  assert (outArcs (baseGraph_ s2) v = outArcs g v) as Hout.
  { destruct (baseGraph_ s2) as [k es]. simpl in He2. subst es.
    rewrite (outArcs_snoc _ (numNodes g)). rewrite decide_False by done.
    by destruct g. }
  rewrite Hout.
  assert (∀ oa, oa ∈ outArcs g v →
            (oa < numArcs (baseGraph_ s2))%nat ∧
            arcTarget (baseGraph_ s2) oa = arcTarget g oa ∧
            costsOf s2 oa = costsOf s oa) as Hold.
  { intros oa [Hoa _]%elem_of_outArcs. split.
    - unfold numArcs in *. rewrite He2, length_app. simpl. lia.
    - split.
      + by apply (arcTarget_extra _ _ [(source_ s, d)]).
      + destruct H12 as (_ & _ & _ & _ & _ & _ & _ & _ & _ & Hold & _).
        by destruct (Hold oa Hoa) as (-> & _). }
  assert (targets_ s2 = targets_ s) as Ht2.
  { by destruct H12 as (_ & _ & _ & -> & _). }
  destruct (mirrorOutArcs_appended d s2 (outArcs g v) s2 [])
    as (s3 & E3 & H23); [apply arcsAppended_refl | |].
  { intros oa Hoa. destruct (Hold oa Hoa) as (H1 & H2 & H3).
    split; [done|]. rewrite H2, H3. unfold isTarget. rewrite Ht2.
    by apply Hcosts. }
  rewrite E3. cbn. exists s3. split; [done|].
  rewrite (mirrorArcs_ext s s2) in H23.
  - by apply (arcsAppended_trans s1 s2 s3 [(source_ s, d, [divisionCost])]).
  - intros oa Hoa. by destruct (Hold oa Hoa) as (_ & ? & ?).
  - done.
Qed.

Lemma allowMitosis_mirrors_witness :
  ∃ s3,
    allowMitosis detectionA (-4)%Q parentAndChild =
      Some (numArcs (baseGraph_ parentAndChild),
            setDuplicateToParent (numNodes (baseGraph_ parentAndChild))
              (fn_v detectionA)
              (setParentToDuplicate (fn_v detectionA)
                 (numNodes (baseGraph_ parentAndChild)) s3)) ∧
    arcsAppended
      (setTimestep (numNodes (baseGraph_ parentAndChild))
         (timestepOf parentAndChild (fn_v detectionA))
         (setBaseGraph
            (mkDigraph (S (numNodes (baseGraph_ parentAndChild)))
               (arcEnds (baseGraph_ parentAndChild)))
            parentAndChild))
      s3
      ((source_ parentAndChild, numNodes (baseGraph_ parentAndChild),
        [(-4)%Q])
       :: mirrorArcs parentAndChild (numNodes (baseGraph_ parentAndChild))
            (outArcs (baseGraph_ parentAndChild) (fn_v detectionA))).
Proof.
  apply (allowMitosis_mirrors detectionA (-4)%Q parentAndChild).
  - by vm_compute.
  - intros oa Hoa. vm_compute in Hoa.
    repeat (apply elem_of_cons in Hoa as [->|Hoa]; [by vm_compute|]).
    by apply elem_of_nil in Hoa.
Defined.

Lemma mirrorOutArc_appended_any d st oa st' :
  mirrorOutArc d st oa = Some st' → ∃ e, arcsAppended st st' e.
Proof.
  unfold mirrorOutArc. destruct (isTarget _ _).
  - intros [= <-]. exists []. apply arcsAppended_refl.
  - destruct (head _) as [c0|]; [|done]. cbn [mbind option_bind].
    destruct (addArc d _ [c0] st) as [[a s1]|] eqn:E; [|done].
    cbn. intros [= <-]. apply addArc_appended in E as (_ & _ & H). eauto.
Qed.

Lemma allowMitosis_maps (parent : FullNode) (divisionCost : Q)
    (s : FlowGraph) (a : Arc) (s' : FlowGraph) :
  allowMitosis parent divisionCost s = Some (a, s') →
  numNodes (baseGraph_ s') = S (numNodes (baseGraph_ s)) ∧
  parentToDuplicateMap_ s' =
    <[fn_v parent := numNodes (baseGraph_ s)]> (parentToDuplicateMap_ s) ∧
  duplicateToParentMap_ s' =
    <[numNodes (baseGraph_ s) := fn_v parent]> (duplicateToParentMap_ s).
Proof.
  unfold allowMitosis. cbn.
  set (s1 := setTimestep _ _ _).
  destruct (addArc _ _ [divisionCost] s1) as [[a1 s2]|] eqn:E1; cbn; [|done].
  destruct (forEach _ _ s2) as [s3|] eqn:E2; cbn; [|done].
  intros [= <- <-]. simpl.
  apply addArc_appended in E1 as (_ & _ & H12).
  assert (∃ e, arcsAppended s2 s3 e) as [e H23].
  { revert E2.
    apply (forEach_invariant _ (λ st, ∃ e, arcsAppended s2 st e)).
    - intros st x st' _ [e He] Hx.
      destruct (mirrorOutArc_appended_any _ _ _ _ Hx) as [e' He'].
      exists (e ++ e'). by eapply arcsAppended_trans.
    - exists []. apply arcsAppended_refl. }
  destruct (arcsAppended_trans _ _ _ _ _ H12 H23)
    as (Hn & _ & _ & _ & _ & _ & Hp & Hd & _).
  by rewrite Hn, Hp, Hd.
Qed.

(** X7: [allowMitosis] keeps the two division maps inverse to each other
    when it is called on a node of the graph that is neither a parent nor
    a duplicate yet. *)
Theorem allowMitosis_keeps_maps_inverse (parent : FullNode) (divisionCost : Q)
    (s : FlowGraph) (a : Arc) (s' : FlowGraph) :
  divisionMapsWF s → divisionNodesExist s →
  (fn_v parent < numNodes (baseGraph_ s))%nat →
  parentToDuplicateMap_ s !! fn_v parent = None →
  duplicateToParentMap_ s !! fn_v parent = None →
  allowMitosis parent divisionCost s = Some (a, s') →
  divisionMapsWF s' ∧ divisionNodesExist s'.
Proof.
  intros (Hpd & Hdp & Hnp) Hex Hv Hp Hd E.
  destruct (allowMitosis_maps _ _ _ _ _ E) as (Hn & Ep & Ed).
  set (v := fn_v parent) in *. set (d := numNodes (baseGraph_ s)) in *.
  assert (v ≠ d) as Hvd by lia.
  split; [split; [|split]|].
  - intros x y. rewrite Ep, Ed, !lookup_insert.
    destruct (decide (v = x)) as [<-|Hx].
    + intros [= <-]. by rewrite decide_True.
    + intros Hxy. destruct (Hex x y Hxy) as [_ Hy].
      rewrite decide_False by lia. by apply Hpd.
  - intros y x. rewrite Ep, Ed, !lookup_insert.
    destruct (decide (d = y)) as [<-|Hy].
    + intros [= <-]. by rewrite decide_True.
    + intros Hyx. pose proof (Hdp y x Hyx) as Hxy.
      rewrite decide_False by (intros <-; congruence). done.
  - intros y x. rewrite Ep, Ed, !lookup_insert.
    destruct (decide (d = y)) as [<-|Hy].
    + intros _. rewrite decide_False by done.
      destruct (parentToDuplicateMap_ s !! d) as [z|] eqn:Ez; [|done].
      destruct (Hex d z Ez). lia.
    + intros Hyx. rewrite decide_False by (intros <-; congruence).
      by eapply Hnp.
  - intros x y. rewrite Ep, Hn, lookup_insert.
    destruct (decide (v = x)) as [<-|Hx].
    + intros [= <-]. lia.
    + intros Hxy. destruct (Hex x y Hxy). lia.
Qed.

Lemma allowMitosis_keeps_maps_inverse_witness :
  divisionMapsWF divisionGraph ∧ divisionNodesExist divisionGraph.
Proof.
  apply (allowMitosis_keeps_maps_inverse detectionA (-4)%Q parentAndChild 5%nat
           divisionGraph).
  - by repeat split.
  - by intros v d Hvd.
  - vm_compute. lia.
  - reflexivity.
  - reflexivity.
  - by vm_compute.
Defined.

(** X8: a second [allowMitosis] on a parent that already has a duplicate
    [d1] leaves the maps no longer inverse: [duplicateToParentMap_] still
    sends [d1] to the parent, [parentToDuplicateMap_] sends the parent to
    the new duplicate only. *)
Theorem allowMitosis_twice_breaks_inverse (parent : FullNode)
    (divisionCost : Q) (s : FlowGraph) (a : Arc) (s' : FlowGraph) (d1 : Node) :
  parentToDuplicateMap_ s !! fn_v parent = Some d1 →
  duplicateToParentMap_ s !! d1 = Some (fn_v parent) →
  (d1 < numNodes (baseGraph_ s))%nat →
  allowMitosis parent divisionCost s = Some (a, s') →
  duplicateToParentMap_ s' !! d1 = Some (fn_v parent) ∧
  parentToDuplicateMap_ s' !! fn_v parent = Some (numNodes (baseGraph_ s)) ∧
  numNodes (baseGraph_ s) ≠ d1 ∧
  ¬ divisionMapsWF s'.
Proof.
  intros Hp Hd Hlt E.
  destruct (allowMitosis_maps _ _ _ _ _ E) as (Hn & Ep & Ed).
  assert (duplicateToParentMap_ s' !! d1 = Some (fn_v parent)) as H1.
  { rewrite Ed, lookup_insert_ne by lia. done. }
  assert (parentToDuplicateMap_ s' !! fn_v parent =
            Some (numNodes (baseGraph_ s))) as H2.
  { by rewrite Ep, lookup_insert_eq. }
  split; [done|]. split; [done|]. split; [lia|].
  intros (_ & Hdp & _). specialize (Hdp d1 _ H1). rewrite H2 in Hdp.
  injection Hdp as Heq. lia.
Qed.

Lemma allowMitosis_twice_breaks_inverse_witness :
  duplicateToParentMap_
    (built (allowMitosis detectionA (-4)%Q divisionGraph)) !! 6%nat =
    Some (fn_v detectionA) ∧
  parentToDuplicateMap_
    (built (allowMitosis detectionA (-4)%Q divisionGraph)) !! fn_v detectionA =
    Some (numNodes (baseGraph_ divisionGraph)) ∧
  numNodes (baseGraph_ divisionGraph) ≠ 6%nat ∧
  ¬ divisionMapsWF (built (allowMitosis detectionA (-4)%Q divisionGraph)).
Proof.
  apply (allowMitosis_twice_breaks_inverse detectionA (-4)%Q divisionGraph
           7%nat (built (allowMitosis detectionA (-4)%Q divisionGraph)) 6%nat).
  - reflexivity.
  - reflexivity.
  - vm_compute. lia.
  - by vm_compute.
Defined.

Lemma wrap64_after_even (t : Z) :
  wrap64 (t * 2 + 3) = wrap64 (t * 2 + 2) + 1.
Proof.
  unfold wrap64.
  assert ((t * 2 + 2) mod 2 ^ 64 = 2 * ((t + 1) mod 2 ^ 63)) as Heven.
  { replace (t * 2 + 2) with (2 * (t + 1)) by lia.
    change (2 ^ 64) with (2 * 2 ^ 63).
    by rewrite Z.mul_mod_distr_l. }
  pose proof (Z.mod_pos_bound (t + 1) (2 ^ 63) eq_refl) as Hb.
  replace (t * 2 + 3) with (t * 2 + 2 + 1) by lia.
  rewrite <- Zplus_mod_idemp_l, Heven.
  apply Z.mod_small. lia.
Qed.

(** X9: [addNode] and the labels of existing nodes, for every [size_t]
    timestep, wrapped or not: no target is relabelled downwards, all
    targets keep one common timestep that lies strictly above the label of
    the new exit node, and no other existing node is relabelled. *)
Theorem addNode_relabels_targets_only (costs : CostVector) (t : Z)
    (s : FlowGraph) (f : FullNode) (s' : FlowGraph) (front : Node) :
  head (targets_ s) = Some front →
  (∀ tg, tg ∈ targets_ s →
         (tg < numNodes (baseGraph_ s))%nat ∧
         timestepOf s tg = timestepOf s front) →
  addNode costs t s = Some (f, s') →
  targets_ s' = targets_ s ∧
  (∀ tg, tg ∈ targets_ s →
         timestepOf s tg ≤ timestepOf s' tg ∧
         timestepOf s' tg = timestepOf s' front ∧
         timestepOf s' (fn_v f) < timestepOf s' tg) ∧
  (∀ n, (n < numNodes (baseGraph_ s))%nat → n ∉ targets_ s →
        timestepOf s' n = timestepOf s n).
Proof.
  intros Hfront Htg E.
  assert (costs ≠ []) as Hc by (intros ->; discriminate E).
  rewrite (addNode_unfold costs t s front Hc Hfront) in E.
  cbv zeta in E. injection E as <- <-.
  set (u := numNodes (baseGraph_ s)) in *.
  set (s4 := addNodeBeforeRelabel costs t s).
  assert (∀ m, timestepOf s4 m =
               if decide (S u = m) then wrap64 (t * 2 + 2)
               else if decide (u = m) then wrap64 (t * 2 + 1)
               else timestepOf s m) as Hts4.
  { intros m. unfold s4, addNodeBeforeRelabel.
    by rewrite !timestepOf_setTimestep. }
  assert (∀ m, (m < u)%nat → timestepOf s4 m = timestepOf s m) as Hold.
  { intros m Hm. rewrite Hts4. by rewrite !decide_False by lia. }
  assert (front ∈ targets_ s) as Hfin.
  { destruct (targets_ s); [done|]. injection Hfront as <-. by left. }
  destruct (Htg front Hfin) as [Hflt _].
  rewrite (Hold front Hflt). simpl.
  pose proof (wrap64_after_even t) as Hw.
  case_bool_decide as Hcase.
  - destruct (relabel_targets (wrap64 (t * 2 + 3)) (targets_ s) s4)
      as (_ & _ & Ht5 & _ & Hts5).
    split; [done|]. split.
    + intros tg Hin. destruct (Htg tg Hin) as [Hlt Heq].
      rewrite !Hts5, !decide_True by done. rewrite Hts4.
      assert (S u ∉ targets_ s) as Hv.
      { intros Hin'. destruct (Htg _ Hin'). lia. }
      rewrite decide_False by done. rewrite decide_True by done.
      split; [lia|]. split; [done | lia].
    + intros n Hn Hnot. rewrite Hts5, decide_False by done. by apply Hold.
  - split; [done|]. split.
    + intros tg Hin. destruct (Htg tg Hin) as [Hlt Heq].
      rewrite (Hold tg Hlt), (Hold front Hflt), Hts4.
      rewrite decide_True by done. split; [lia|]. split; [done | lia].
    + intros n Hn _. by apply Hold.
Qed.

Lemma addNode_relabels_targets_only_witness :
  targets_ lateDetection = targets_ newFlowGraph ∧
  (∀ tg, tg ∈ targets_ newFlowGraph →
         timestepOf newFlowGraph tg ≤ timestepOf lateDetection tg ∧
         timestepOf lateDetection tg = timestepOf lateDetection 1%nat ∧
         timestepOf lateDetection (fn_v (mkFullNode 2 3 0))
           < timestepOf lateDetection tg) ∧
  (∀ n, (n < numNodes (baseGraph_ newFlowGraph))%nat →
        n ∉ targets_ newFlowGraph →
        timestepOf lateDetection n = timestepOf newFlowGraph n).
Proof.
  apply (addNode_relabels_targets_only [1%Q] (2 ^ 63 - 1) newFlowGraph
           (mkFullNode 2 3 0) lateDetection 1%nat).
  - reflexivity.
  - intros tg Htg. apply list_elem_of_singleton in Htg as ->.
    split; [simpl; lia | reflexivity].
  - by vm_compute.
Defined.

(** ** Synchronising, as a whole *)

Lemma synchronize_frame (s : FlowGraph) :
  baseGraph_ (synchronizeDivisionDuplicateArcFlows s) = baseGraph_ s ∧
  parentToDuplicateMap_ (synchronizeDivisionDuplicateArcFlows s) =
    parentToDuplicateMap_ s ∧
  duplicateToParentMap_ (synchronizeDivisionDuplicateArcFlows s) =
    duplicateToParentMap_ s ∧
  capacityMap_ (synchronizeDivisionDuplicateArcFlows s) = capacityMap_ s ∧
  residualGraph_ (synchronizeDivisionDuplicateArcFlows s) = residualGraph_ s.
Proof.
  unfold synchronizeDivisionDuplicateArcFlows.
  generalize (coupledNodes s). intros L.
  assert (∀ st c,
    baseGraph_ (synchronizePair st c) = baseGraph_ st ∧
    parentToDuplicateMap_ (synchronizePair st c) = parentToDuplicateMap_ st ∧
    duplicateToParentMap_ (synchronizePair st c) = duplicateToParentMap_ st ∧
    capacityMap_ (synchronizePair st c) = capacityMap_ st ∧
    residualGraph_ (synchronizePair st c) = residualGraph_ st) as Hpair.
  { intros st c. unfold synchronizePair.
    generalize (outArcs (baseGraph_ st) c.1). intros l. revert st.
    induction l as [|oa l IH]; intros st; simpl; [done|].
    destruct (IH (synchronizeOutArc c.2 st oa)) as (-> & -> & -> & -> & ->).
    unfold synchronizeOutArc. by destruct (findFirst _ _). }
  revert s. induction L as [|c L IH]; intros s; simpl; [done|].
  destruct (IH (synchronizePair s c)) as (-> & -> & -> & -> & ->).
  apply Hpair.
Qed.

(** The flows after [synchronizeDivisionDuplicateArcFlows]. *)
Lemma synchronize_flows (s : FlowGraph) :
  divisionMapsWF s → simpleDivisions s →
  let s' := synchronizeDivisionDuplicateArcFlows s in
  (∀ oa da, pairedArcs s oa da →
     flowOf s' oa = Z.max (flowOf s oa) (flowOf s da) ∧
     flowOf s' da = Z.min (Z.max (flowOf s oa) (flowOf s da)) 1) ∧
  (∀ x, (∀ oa da, pairedArcs s oa da → x ≠ oa ∧ x ≠ da) →
     flowOf s' x = flowOf s x).
Proof.
  intros (Hpd & Hdp & Hnp) Hsimple s'.
  destruct (synchronizePairs (coupledNodes s) s) as [Hpairs Hrest].
  - apply NoDup_coupledNodes.
  - intros v d v' d' Hin Hin'.
    apply elem_of_coupledNodes in Hin, Hin'. split.
    + intros ->. pose proof (Hnp _ _ (Hpd _ _ Hin)). congruence.
    + intros Hne ->. pose proof (Hpd _ _ Hin). pose proof (Hpd _ _ Hin').
      congruence.
  - intros v d Hin. apply elem_of_coupledNodes in Hin.
    by destruct (Hsimple v d Hin).
  - split.
    + intros oa da (v & d & Hvd & Hoa & Hda & Ht).
      apply (Hpairs v d); [by apply elem_of_coupledNodes | done |].
      apply partner_unique; [by destruct (Hsimple v d Hvd) | done | done].
    + intros x Hx. apply Hrest. intros v d oa da Hin Hoa Hp.
      apply elem_of_coupledNodes in Hin.
      apply partner_Some in Hp as [Hda Ht].
      apply (Hx oa da). by exists v, d.
Qed.

(** X10: [synchronizeDivisionDuplicateArcFlows], on a graph whose division
    maps are inverse to each other and whose parents and duplicates have no
    parallel out-arcs: for every paired parent arc and duplicate arc, with
    [m] the larger of their two flows before the call, the parent arc
    carries [m] afterwards and the duplicate arc [min(m, 1)]; the flow of
    every arc that is in no such pair is unchanged. *)
Theorem synchronize_pairs_flows (s : FlowGraph) :
  divisionMapsWF s → simpleDivisions s →
  let s' := synchronizeDivisionDuplicateArcFlows s in
  (∀ oa da, pairedArcs s oa da →
     flowOf s' oa = Z.max (flowOf s oa) (flowOf s da) ∧
     flowOf s' da = Z.min (Z.max (flowOf s oa) (flowOf s da)) 1) ∧
  (∀ x, (∀ oa da, pairedArcs s oa da → x ≠ oa ∧ x ≠ da) →
     flowOf s' x = flowOf s x).
Proof. exact (synchronize_flows s). Qed.

(** *** The example graph *)

Lemma divisionGraph_parents v d :
  parentToDuplicateMap_ divisionGraph !! v = Some d → v = 3%nat ∧ d = 6%nat.
Proof.
  assert (parentToDuplicateMap_ divisionGraph = {[3%nat := 6%nat]}) as ->
    by by vm_compute.
  by intros [<- <-]%lookup_singleton_Some.
Qed.

Lemma divisionGraph_duplicates d v :
  duplicateToParentMap_ divisionGraph !! d = Some v → d = 6%nat ∧ v = 3%nat.
Proof.
  assert (duplicateToParentMap_ divisionGraph = {[6%nat := 3%nat]}) as ->
    by by vm_compute.
  by intros [<- <-]%lookup_singleton_Some.
Qed.

Lemma divisionGraph_mapsWF : divisionMapsWF divisionGraph.
Proof.
  split; [|split].
  - by intros v d [-> ->]%divisionGraph_parents.
  - by intros d v [-> ->]%divisionGraph_duplicates.
  - by intros d v [-> ->]%divisionGraph_duplicates.
Qed.

Lemma divisionGraph_simple : simpleDivisions divisionGraph.
Proof.
  intros v d [-> ->]%divisionGraph_parents.
  split; apply (bool_decide_unpack _); by vm_compute.
Qed.

Lemma synchronize_pairs_flows_witness :
  let s' := synchronizeDivisionDuplicateArcFlows unsynchronisedGraph in
  (∀ oa da, pairedArcs unsynchronisedGraph oa da →
     flowOf s' oa =
       Z.max (flowOf unsynchronisedGraph oa) (flowOf unsynchronisedGraph da) ∧
     flowOf s' da =
       Z.min (Z.max (flowOf unsynchronisedGraph oa)
                (flowOf unsynchronisedGraph da)) 1) ∧
  (∀ x, (∀ oa da, pairedArcs unsynchronisedGraph oa da → x ≠ oa ∧ x ≠ da) →
     flowOf s' x = flowOf unsynchronisedGraph x).
Proof.
  apply (synchronize_pairs_flows unsynchronisedGraph).
  - exact divisionGraph_mapsWF.
  - exact divisionGraph_simple.
Defined.

Example synchronize_example :
  flowOf (synchronizeDivisionDuplicateArcFlows unsynchronisedGraph) 3%nat = 1 ∧
  flowOf (synchronizeDivisionDuplicateArcFlows unsynchronisedGraph) 6%nat = 1 ∧
  flowOf unsynchronisedGraph 6%nat = 0.
Proof. by vm_compute. Qed.

Lemma synchronize_coupled_unchanged (s : FlowGraph) (L : list (Node * Node)) :
  coupled s →
  (∀ v d, (v, d) ∈ L → parentToDuplicateMap_ s !! v = Some d) →
  ∀ st, baseGraph_ st = baseGraph_ s → (∀ x, flowOf st x = flowOf s x) →
        baseGraph_ (foldl synchronizePair st L) = baseGraph_ s ∧
        ∀ x, flowOf (foldl synchronizePair st L) x = flowOf s x.
Proof.
  intros Hc. induction L as [|[v d] L IH]; intros HL st Hg Hfl; [done|].
  simpl. apply IH.
  - intros v' d' Hin. apply HL. by right.
  - by rewrite synchronizePair_base.
  - assert (parentToDuplicateMap_ s !! v = Some d) as Hvd by (apply HL; by left).
    unfold synchronizePair. simpl. rewrite Hg.
    assert (∀ l st', (∀ oa, oa ∈ l → oa ∈ outArcs (baseGraph_ s) v) →
              baseGraph_ st' = baseGraph_ s →
              (∀ x, flowOf st' x = flowOf s x) →
              ∀ x, flowOf (foldl (synchronizeOutArc d) st' l) x = flowOf s x)
      as Hinner.
    { induction l as [|oa l IHl]; intros st' Hl Hg' Hfl'; [done|].
      simpl. apply IHl.
      - intros oa' Hin. apply Hl. by right.
      - by rewrite synchronizeOutArc_base.
      - intros x. unfold synchronizeOutArc. rewrite Hg'.
        fold (partner (baseGraph_ s) d oa).
        destruct (partner (baseGraph_ s) d oa) as [da|] eqn:Ep; [|done].
        apply partner_Some in Ep as [Hda Ht].
        assert (flowOf s da = Z.min (flowOf s oa) 1) as Hcoupled.
        { apply (Hc v d oa da); [done | apply Hl; by left | done | done]. }
        rewrite !flowOf_setFlow, !Hfl'.
        destruct (decide (oa = x)) as [<-|]; [lia|].
        destruct (decide (da = x)) as [<-|]; [lia | done]. }
    by apply Hinner.
Qed.

(** No flow changes on a coupled graph. *)
Lemma synchronize_coupled_id (s : FlowGraph) :
  coupled s →
  ∀ x, flowOf (synchronizeDivisionDuplicateArcFlows s) x = flowOf s x.
Proof.
  intros Hc. unfold synchronizeDivisionDuplicateArcFlows.
  apply (synchronize_coupled_unchanged s (coupledNodes s)); try done.
  intros v d Hin. by apply elem_of_coupledNodes.
Qed.

(** X11: on a graph that is already coupled (each duplicate arc carries
    the minimum of one and the flow of the parent arc it is paired with),
    [synchronizeDivisionDuplicateArcFlows] changes no flow. *)
Theorem synchronize_fixes_coupled (s : FlowGraph) :
  coupled s →
  ∀ x, flowOf (synchronizeDivisionDuplicateArcFlows s) x = flowOf s x.
Proof. exact (synchronize_coupled_id s). Qed.

(** X12: on a graph whose division maps are inverse to each other and whose
    parents and duplicates have no parallel out-arcs, the call leaves the
    graph coupled (each duplicate arc carries the minimum of one and the
    flow of the parent arc it is paired with), and a second call changes
    nothing. *)
Theorem synchronize_couples_once (s : FlowGraph) :
  divisionMapsWF s → simpleDivisions s →
  let s' := synchronizeDivisionDuplicateArcFlows s in
  coupled s' ∧
  ∀ x, flowOf (synchronizeDivisionDuplicateArcFlows s') x = flowOf s' x.
Proof.
  intros Hwf Hsimple s'.
  assert (coupled s') as Hc.
  { destruct (synchronize_flows s Hwf Hsimple) as [Hpairs _].
    destruct (synchronize_frame s) as (Hg & Hp & _).
    intros v d oa da. fold s' in Hg, Hp. rewrite Hg, Hp.
    intros Hvd Hoa Hda Ht.
    destruct (Hpairs oa da) as [H1 H2]; [by exists v, d|].
    fold s' in H1, H2. by rewrite H1, H2. }
  split; [done|]. by apply synchronize_coupled_id.
Qed.

Lemma synchronize_couples_once_witness :
  let s' := synchronizeDivisionDuplicateArcFlows unsynchronisedGraph in
  coupled s' ∧
  ∀ x, flowOf (synchronizeDivisionDuplicateArcFlows s') x = flowOf s' x.
Proof.
  apply (synchronize_couples_once unsynchronisedGraph).
  - exact divisionGraph_mapsWF.
  - exact divisionGraph_simple.
Defined.

Lemma trackedDivisionGraph_coupled : coupled trackedDivisionGraph.
Proof.
  intros v d oa da Hvd Hoa Hda _.
  assert (parentToDuplicateMap_ trackedDivisionGraph = {[3%nat := 6%nat]})
    as Hmap by by vm_compute.
  rewrite Hmap in Hvd. apply lookup_singleton_Some in Hvd as [<- <-].
  vm_compute in Hoa. apply list_elem_of_singleton in Hoa as ->.
  vm_compute in Hda. apply list_elem_of_singleton in Hda as ->.
  by vm_compute.
Qed.

Lemma synchronize_fixes_coupled_witness :
  flowOf (synchronizeDivisionDuplicateArcFlows trackedDivisionGraph) 6%nat =
  flowOf trackedDivisionGraph 6%nat.
Proof.
  apply (synchronize_fixes_coupled trackedDivisionGraph
           trackedDivisionGraph_coupled 6%nat).
Defined.

Example trackedDivisionGraph_flows :
  flowOf trackedDivisionGraph 3%nat = 1 ∧ flowOf trackedDivisionGraph 6%nat = 1.
Proof. by vm_compute. Qed.

(** ** Augmentation and the coupling of parent and duplicate *)

Lemma addInt_Some (x y r : Z) : addInt x y = Some r → r = x + y.
Proof. unfold addInt. case_bool_decide; [|done]. by intros [= <-]. Qed.

Lemma write_flows (a : Arc) (f : Z) (s s' : FlowGraph) :
  updateArc a (setFlow a f s) = Some s' →
  sameNetwork s s' ∧
  (∀ x, flowOf s' x = if decide (a = x) then f else flowOf s x) ∧
  0 ≤ f ≤ capacityOf s a.
Proof.
  intros E. split; [|split].
  - by apply (write_sameNetwork s a f s s' (sameNetwork_refl s)).
  - apply updateArc_Some in E as [_ [Hb _]].
    intros x. rewrite (sameBase_flowOf _ _ x Hb). apply flowOf_setFlow.
  - apply updateArc_Some in E as [Hf _].
    rewrite flowOf_setFlow, decide_True in Hf by done. exact Hf.
Qed.

Lemma sameNetwork_capacityOf s s' a :
  sameNetwork s s' → capacityOf s' a = capacityOf s a.
Proof. intros (_ & _ & _ & _ & Hc & _). unfold capacityOf. by rewrite Hc. Qed.

Lemma divisionsWellFormed_sameNetwork s s' :
  sameNetwork s s' → divisionsWellFormed s → divisionsWellFormed s'.
Proof.
  intros Hn (Hwf & Hsimple & Hunit).
  pose proof Hn as (Hg & _ & _ & _ & Hc & _ & _ & Hp & Hd).
  unfold divisionsWellFormed, divisionMapsWF, simpleDivisions,
    duplicateArcsUnit, capacityOf.
  rewrite Hg, Hc, Hp, Hd. done.
Qed.

Lemma coupled_transfer (s s' : FlowGraph) :
  sameNetwork s s' → coupled s →
  (∀ v d x y,
     parentToDuplicateMap_ s !! v = Some d →
     x ∈ outArcs (baseGraph_ s) v → y ∈ outArcs (baseGraph_ s) d →
     arcTarget (baseGraph_ s) x = arcTarget (baseGraph_ s) y →
     flowOf s y = Z.min (flowOf s x) 1 →
     flowOf s' y = Z.min (flowOf s' x) 1) →
  coupled s'.
Proof.
  intros (Hg & _ & _ & _ & _ & _ & _ & Hp & _) Hc H v d x y.
  rewrite Hg, Hp. intros Hvd Hx Hy Ht.
  apply (H v d); try done. by apply (Hc v d).
Qed.

(** One safe step of [augmentUnitFlow] keeps the coupling of every parent
    with its duplicate. *)
Lemma augmentArc_coupling_step (s : FlowGraph) (af : Arc * Z)
    (s' : FlowGraph) :
  divisionsWellFormed s → coupled s → safeStep s af →
  augmentArc s af = Some s' →
  coupled s' ∧ sameNetwork s s'.
Proof.
  intros ((Hpd & Hdp & Hnp) & Hsimple & Hunit) Hc [Hvalid Hsafe].
  destruct af as [a delta]. simpl in Hvalid, Hsafe.
  set (g := baseGraph_ s) in *.
  assert (a ∈ outArcs g (arcSource g a)) as Ha by by apply elem_of_outArcs.
  unfold augmentArc.
  destruct (addInt (flowOf s a) delta) as [f|] eqn:Ef; [|done].
  apply addInt_Some in Ef. cbn [mbind option_bind].
  destruct (updateArc a (setFlow a f s)) as [s1|] eqn:E1; [|done].
  cbn [mbind option_bind].
  destruct (write_flows _ _ _ _ E1) as (Hn1 & Hfl1 & Hfeas1).
  pose proof Hn1 as (Hg1 & _ & _ & _ & _ & _ & _ & Hp1 & Hd1).
  rewrite Hg1, Hp1, Hd1. fold g.
  destruct (duplicateToParentMap_ s !! arcSource g a) as [parent|] eqn:Ed.
  - (* the arc leaves a duplicate *)
    pose proof (Hdp _ _ Ed) as Hparent. pose proof (Hnp _ _ Ed) as Hnokey.
    destruct (Hsimple _ _ Hparent) as [Hsp Hsd].
    fold (partner g parent a).
    destruct (partner g parent a) as [oa|] eqn:Ep.
    + pose proof (partner_Some _ _ _ _ Ep) as [Hoa Hta].
      assert (oa ≠ a) as Hne.
      { intros ->. apply elem_of_outArcs in Hoa as [_ Hs]. congruence. }
      destruct (addInt (flowOf s1 oa) delta) as [f'|] eqn:Ef'; [|done].
      apply addInt_Some in Ef'. cbn [mbind option_bind].
      intros E2. destruct (write_flows _ _ _ _ E2) as (Hn2 & Hfl2 & Hfeas2).
      assert (sameNetwork s s') as Hn by by eapply sameNetwork_trans.
      split; [|done].
      rewrite Hfl1, decide_False in Ef' by done.
      rewrite (sameNetwork_capacityOf s s1) in Hfeas2 by done.
      assert (capacityOf s a ≤ 1) as Hcap
        by by apply (Hunit (arcSource g a) parent).
      assert (flowOf s a = Z.min (flowOf s oa) 1) as Hbefore
        by by apply (Hc parent (arcSource g a)).
      specialize (Hsafe parent oa eq_refl Hoa Hta).
      apply (coupled_transfer s s'); [done | done |].
      intros v d x y Hvd Hx Hy Ht Hxy. fold g in Hx, Hy, Ht.
      rewrite !Hfl2, !Hfl1.
      destruct (decide (oa = y)) as [<-|Hy1].
      { exfalso. apply elem_of_outArcs in Hoa as [_ Hs1], Hy as [_ Hs2].
        pose proof (Hpd _ _ Hvd) as H1. rewrite <- Hs2, Hs1 in H1.
        pose proof (Hnp _ _ H1). congruence. }
      destruct (decide (a = y)) as [<-|Hy2].
      { assert (v = parent) as ->.
        { apply elem_of_outArcs in Hy as [_ Hs2].
          pose proof (Hpd _ _ Hvd) as H1. rewrite <- Hs2 in H1. congruence. }
        assert (x = oa) as ->.
        { assert (partner g parent a = Some x) as Hp'
            by by apply partner_unique.
          congruence. }
        rewrite decide_True by done. lia. }
      destruct (decide (oa = x)) as [<-|Hx1].
      { exfalso. assert (v = parent) as ->.
        { apply elem_of_outArcs in Hoa as [_ Hs1], Hx as [_ Hs2]. congruence. }
        assert (d = arcSource g a) as -> by congruence.
        apply Hy2.
        apply (NoDup_fmap_elem_inj (arcTarget g) (outArcs g (arcSource g a)));
          [done | done | done | congruence]. }
      destruct (decide (a = x)) as [<-|Hx2]; [|done].
      exfalso. apply elem_of_outArcs in Hx as [_ Hs2]. congruence.
    + intros [= <-]. split; [|done].
      apply (coupled_transfer s s1); [done | done |].
      intros v d x y Hvd Hx Hy Ht Hxy. fold g in Hx, Hy, Ht.
      rewrite !Hfl1.
      destruct (decide (a = y)) as [<-|Hy2].
      { exfalso. assert (v = parent) as ->.
        { apply elem_of_outArcs in Hy as [_ Hs2].
          pose proof (Hpd _ _ Hvd) as H1. rewrite <- Hs2 in H1. congruence. }
        unfold partner in Ep. pose proof (findFirst_None _ _ Ep x Hx) as Hf.
        unfold sameTarget in Hf. by apply bool_decide_eq_false in Hf. }
      destruct (decide (a = x)) as [<-|Hx2]; [|done].
      exfalso. apply elem_of_outArcs in Hx as [_ Hs2]. congruence.
  - destruct (parentToDuplicateMap_ s !! arcSource g a) as [dup|] eqn:Ep2d.
    + (* the arc leaves a parent *)
      pose proof (Hpd _ _ Ep2d) as Hdup. pose proof (Hnp _ _ Hdup) as Hnokey.
      destruct (Hsimple _ _ Ep2d) as [Hsp Hsd].
      fold (partner g dup a).
      destruct (partner g dup a) as [oa|] eqn:Ep.
      * pose proof (partner_Some _ _ _ _ Ep) as [Hoa Hta].
        assert (oa ≠ a) as Hne.
        { intros ->. apply elem_of_outArcs in Hoa as [_ Hs]. congruence. }
        intros E2. destruct (write_flows _ _ _ _ E2) as (Hn2 & Hfl2 & Hfeas2).
        assert (sameNetwork s s') as Hn by by eapply sameNetwork_trans.
        split; [|done].
        rewrite Hfl1, decide_True in Hfl2 by done.
        apply (coupled_transfer s s'); [done | done |].
        intros v d x y Hvd Hx Hy Ht Hxy. fold g in Hx, Hy, Ht.
        rewrite !Hfl2, !Hfl1.
        destruct (decide (oa = x)) as [<-|Hx1].
        { exfalso. apply elem_of_outArcs in Hoa as [_ Hs1], Hx as [_ Hs2].
          congruence. }
        destruct (decide (a = y)) as [<-|Hy2].
        { exfalso. apply elem_of_outArcs in Hy as [_ Hs2].
          pose proof (Hpd _ _ Hvd) as H1. congruence. }
        destruct (decide (a = x)) as [<-|Hx2].
        { assert (v = arcSource g a) as ->
            by (apply elem_of_outArcs in Hx as [_ Hs2]; congruence).
          assert (d = dup) as -> by congruence.
          assert (partner g dup a = Some y) as Hp'
            by by apply partner_unique.
          assert (y = oa) as -> by congruence.
          by rewrite decide_True by done. }
        destruct (decide (oa = y)) as [<-|Hy1]; [|done].
        exfalso. assert (d = dup) as ->.
        { apply elem_of_outArcs in Hoa as [_ Hs1], Hy as [_ Hs2]. congruence. }
        assert (v = arcSource g a) as ->.
        { pose proof (Hpd _ _ Hvd). congruence. }
        apply Hx2.
        apply (NoDup_fmap_elem_inj (arcTarget g) (outArcs g (arcSource g a)));
          [done | done | done | congruence].
      * intros [= <-]. split; [|done].
        apply (coupled_transfer s s1); [done | done |].
        intros v d x y Hvd Hx Hy Ht Hxy. fold g in Hx, Hy, Ht.
        rewrite !Hfl1.
        destruct (decide (a = y)) as [<-|Hy2].
        { exfalso. apply elem_of_outArcs in Hy as [_ Hs2].
          pose proof (Hpd _ _ Hvd) as H1. congruence. }
        destruct (decide (a = x)) as [<-|Hx2]; [|done].
        exfalso. assert (v = arcSource g a) as ->
          by (apply elem_of_outArcs in Hx as [_ Hs2]; congruence).
        assert (d = dup) as -> by congruence.
        unfold partner in Ep. pose proof (findFirst_None _ _ Ep y Hy) as Hf.
        unfold sameTarget in Hf. apply bool_decide_eq_false in Hf. congruence.
    + intros [= <-]. split; [|done].
      apply (coupled_transfer s s1); [done | done |].
      intros v d x y Hvd Hx Hy Ht Hxy. fold g in Hx, Hy, Ht.
      rewrite !Hfl1.
      destruct (decide (a = y)) as [<-|Hy2].
      { exfalso. apply elem_of_outArcs in Hy as [_ Hs2].
        pose proof (Hpd _ _ Hvd) as H1. congruence. }
      destruct (decide (a = x)) as [<-|Hx2]; [|done].
      exfalso. apply elem_of_outArcs in Hx as [_ Hs2]. congruence.
Qed.

Lemma forwardPath_safe (p : Path) (s : FlowGraph) :
  forwardPath (baseGraph_ s) p → safePath p s.
Proof.
  revert s. induction p as [|af p IH]; intros s Hp; [done|].
  apply Forall_cons in Hp as [[Hv Hd] Hp]. split.
  - split; [done|]. intros. by left.
  - intros s1 E. apply IH.
    apply augmentArc_sameNetwork in E as (Hg & _). by rewrite Hg.
Qed.

(** X13: [augmentUnitFlow] keeps every duplicate arc at the flow of the
    paired parent arc capped at one.  This holds on a graph whose division
    maps are inverse to each other, whose parents and duplicates have no
    parallel out-arcs and whose duplicate arcs have capacity at most one,
    for a path that names existing arcs and never takes a duplicate arc
    backwards while the paired parent arc carries more than one unit; a
    path that only pushes flow forward is such a path.  The network itself
    is not changed. *)
Theorem augmentUnitFlow_keeps_coupling (p : Path) (s s' : FlowGraph) :
  divisionsWellFormed s → coupled s → safePath p s →
  augmentUnitFlow p s = Some s' →
  coupled s' ∧ sameNetwork s s'.
Proof.
  unfold augmentUnitFlow. revert s.
  induction p as [|af p IH]; intros s Hwf Hc Hsafe E.
  - injection E as <-. split; [done | apply sameNetwork_refl].
  - destruct Hsafe as [Hstep Hrest]. cbn [forEach] in E.
    destruct (augmentArc s af) as [s1|] eqn:E1; [|done].
    cbn [mbind option_bind] in E.
    destruct (augmentArc_coupling_step s af s1 Hwf Hc Hstep E1) as [Hc1 Hn1].
    destruct (IH s1) as [Hc' Hn']; try done.
    + by apply (divisionsWellFormed_sameNetwork s).
    + by apply Hrest.
    + split; [done | by eapply sameNetwork_trans].
Qed.

Lemma divisionGraph_arcsUnit : duplicateArcsUnit divisionGraph.
Proof.
  intros d v da [-> ->]%divisionGraph_duplicates Hda.
  vm_compute in Hda. apply list_elem_of_singleton in Hda as ->.
  by vm_compute.
Qed.

Lemma initialisedDivisionGraph_sameNetwork :
  sameNetwork divisionGraph initialisedDivisionGraph.
Proof. apply sameBase_sameNetwork. by vm_compute. Qed.

Lemma initialisedDivisionGraph_coupled : coupled initialisedDivisionGraph.
Proof.
  intros v d oa da Hvd Hoa Hda _.
  assert (parentToDuplicateMap_ initialisedDivisionGraph = {[3%nat := 6%nat]})
    as Hmap by by vm_compute.
  rewrite Hmap in Hvd. apply lookup_singleton_Some in Hvd as [<- <-].
  vm_compute in Hoa. apply list_elem_of_singleton in Hoa as ->.
  vm_compute in Hda. apply list_elem_of_singleton in Hda as ->.
  by vm_compute.
Qed.

Lemma augmentUnitFlow_keeps_coupling_witness :
  coupled trackedDivisionGraph ∧
  sameNetwork initialisedDivisionGraph trackedDivisionGraph.
Proof.
  apply (augmentUnitFlow_keeps_coupling trackAB.1 initialisedDivisionGraph).
  - apply (divisionsWellFormed_sameNetwork divisionGraph).
    + exact initialisedDivisionGraph_sameNetwork.
    + split; [exact divisionGraph_mapsWF|].
      split; [exact divisionGraph_simple | exact divisionGraph_arcsUnit].
  - exact initialisedDivisionGraph_coupled.
  - apply forwardPath_safe.
    repeat (apply Forall_cons; split; [split; [vm_compute; lia | done]|]).
    apply Forall_nil_2.
  - by vm_compute.
Defined.

(** ** Construction and the first initialisation *)

Lemma fresh_arcData (s s' : FlowGraph) :
  arcData s' = arcData s → fresh s → fresh s'.
Proof.
  unfold arcData, fresh, numArcs, costsOf, flowOf, capacityOf.
  intros [= -> -> -> -> ->]. done.
Qed.

Lemma addArc_fresh u v costs s a s' :
  fresh s → addArc u v costs s = Some (a, s') → fresh s'.
Proof.
  intros [Hrg Hs] E.
  apply addArc_appended in E
    as (Hc & _ & (_ & He & _ & _ & _ & _ & _ & _ & Hr & Hold & Hnew)).
  split; [congruence|]. intros x Hx.
  unfold numArcs in Hx. rewrite He, length_app in Hx. simpl in Hx.
  destruct (decide (x < numArcs (baseGraph_ s))%nat) as [Hlt|Hge].
  - destruct (Hold x Hlt) as (-> & -> & ->). by apply Hs.
  - assert (x = (numArcs (baseGraph_ s) + 0)%nat) as ->
      by (unfold numArcs in *; lia).
    destruct (Hnew 0%nat (u, v, costs) eq_refl) as (-> & -> & ->). done.
Qed.

Lemma relabel_arcData (x : Z) (l : list Node) (s : FlowGraph) :
  arcData (foldl (λ st t, setTimestep t x st) s l) = arcData s.
Proof. revert s. induction l as [|t l IH]; intros s; [done|]. simpl. by rewrite IH. Qed.

Lemma addNode_fresh costs t s f s' :
  fresh s → addNode costs t s = Some (f, s') → fresh s'.
Proof.
  intros Hs. unfold addNode. case_bool_decide; [|done]. cbn.
  destruct (addArc _ _ costs _) as [[a s1]|] eqn:E1; cbn; [|done].
  apply addArc_fresh in E1; [|by apply (fresh_arcData s)].
  destruct (head (targets_ s1)) as [front|]; cbn; [|done].
  intros [= <- <-]. case_bool_decide.
  - apply (fresh_arcData s1); [|done]. by rewrite relabel_arcData.
  - by apply (fresh_arcData s1).
Qed.

Lemma mirrorOutArc_fresh d s oa s' :
  fresh s → mirrorOutArc d s oa = Some s' → fresh s'.
Proof.
  intros Hs. unfold mirrorOutArc. destruct (isTarget _ _).
  - by intros [= <-].
  - destruct (head _) as [c0|]; [|done]. cbn [mbind option_bind].
    destruct (addArc d _ [c0] s) as [[a s1]|] eqn:E; [|done].
    cbn. intros [= <-]. by eapply addArc_fresh.
Qed.

Lemma allowMitosis_fresh parent c s a s' :
  fresh s → allowMitosis parent c s = Some (a, s') → fresh s'.
Proof.
  intros Hs. unfold allowMitosis. cbn.
  set (s1 := setTimestep _ _ _).
  destruct (addArc _ _ [c] s1) as [[a1 s2]|] eqn:E1; cbn; [|done].
  destruct (forEach _ _ s2) as [s3|] eqn:E2; cbn; [|done].
  intros [= <- <-].
  apply addArc_fresh in E1; [|by apply (fresh_arcData s)].
  apply (fresh_arcData s3); [done|].
  revert E2. apply forEach_invariant; [|done].
  intros st oa st' _ Hst E. by eapply mirrorOutArc_fresh.
Qed.

Lemma constructed_fresh (s : FlowGraph) : constructed s → fresh s.
Proof.
  induction 1 as [|s costs t f s' _ IH E|s u v costs a s' _ IH E
                  |s parent c a s' _ IH E].
  - split; [done|]. intros a Ha. vm_compute in Ha. lia.
  - by eapply addNode_fresh.
  - by eapply addArc_fresh.
  - by eapply allowMitosis_fresh.
Qed.

Lemma toInt_small (z : Z) : 0 ≤ z ≤ INT_MAX → toInt z = z.
Proof.
  unfold toInt, INT_MAX. intros Hz.
  change (2 ^ 31) with 2147483648 in *. change (2 ^ 32) with 4294967296.
  rewrite Z.mod_small; lia.
Qed.

(** X15: a graph built with the constructor, [addNode], [addArc] and
    [allowMitosis] has no residual graph, and every arc has flow zero and
    the length of its cost vector, which is not empty, as capacity.  So if
    no cost vector has more than [INT_MAX] entries, the capacities are
    positive and [initializeResidualGraph], called on the graph as built,
    raises no error. *)
Theorem constructed_graph_initialises (useBack useOrdered : bool)
    (s : FlowGraph) :
  constructed s → capacitiesFit s →
  fresh s ∧
  (∀ a, (a < numArcs (baseGraph_ s))%nat → 0 < capacityOf s a) ∧
  is_Some (initializeResidualGraph useBack useOrdered s).
Proof.
  intros Hs Hfit. pose proof (constructed_fresh s Hs) as Hfresh.
  assert (∀ a, (a < numArcs (baseGraph_ s))%nat → 0 < capacityOf s a) as Hcap.
  { intros a Ha. destruct Hfresh as [_ Hf].
    destruct (Hf a Ha) as (Hc & _ & ->). specialize (Hfit a Ha).
    rewrite toInt_small; [|lia].
    destruct (costsOf s a); [done | simpl; lia]. }
  split; [done|]. split; [done|].
  destruct (initializeResidualGraph_tokens useBack useOrdered s)
    as (s' & rg & E & _); [|by exists s'].
  intros a [Ha _]%elem_of_allArcs. destruct Hfresh as [_ Hf].
  destruct (Hf a Ha) as (_ & -> & _). specialize (Hcap a Ha). lia.
Qed.

Lemma parentAndChild_constructed : constructed parentAndChild.
Proof.
  apply (constructed_by_addArc
           (built ('(_, s) ← addNode [(-2)%Q] 0 newFlowGraph;
                   '(_, s) ← addNode [(-3)%Q] 1 s;
                   '(_, s) ← addArc (source_ s) (fn_u detectionA) [1%Q] s;
                   addArcBetween detectionA detectionB [0%Q] s))
           5%nat 1%nat [1%Q] 4%nat); [|by vm_compute].
  apply (constructed_by_addArc
           (built ('(_, s) ← addNode [(-2)%Q] 0 newFlowGraph;
                   '(_, s) ← addNode [(-3)%Q] 1 s;
                   addArc (source_ s) (fn_u detectionA) [1%Q] s))
           3%nat 4%nat [0%Q] 3%nat); [|by vm_compute].
  apply (constructed_by_addArc
           (built ('(_, s) ← addNode [(-2)%Q] 0 newFlowGraph;
                   addNode [(-3)%Q] 1 s))
           0%nat 2%nat [1%Q] 2%nat); [|by vm_compute].
  apply (constructed_by_addNode oneDetection [(-3)%Q] 1 detectionB);
    [|by vm_compute].
  apply (constructed_by_addNode newFlowGraph [(-2)%Q] 0 detectionA);
    [|by vm_compute].
  apply constructed_FlowGraph.
Qed.

Lemma constructed_graph_initialises_witness :
  fresh divisionGraph ∧
  (∀ a, (a < numArcs (baseGraph_ divisionGraph))%nat →
        0 < capacityOf divisionGraph a) ∧
  is_Some (initializeResidualGraph true true divisionGraph).
Proof.
  apply (constructed_graph_initialises true true divisionGraph).
  - apply (constructed_by_allowMitosis parentAndChild detectionA (-4)%Q 5%nat);
      [exact parentAndChild_constructed | by vm_compute].
  - intros a Ha.
    do 7 (destruct a as [|a]; [by vm_compute|]).
    vm_compute in Ha. lia.
Defined.

(** ** Tracking and the coupling of parent and duplicate *)

Lemma coupled_sameBase (s s' : FlowGraph) :
  sameBase s s' → coupled s → coupled s'.
Proof.
  intros Hb Hc.
  apply (coupled_transfer s s'); [by apply sameBase_sameNetwork | done |].
  intros v d x y _ _ _ _. by rewrite !(sameBase_flowOf s s').
Qed.

Lemma augmentUnitFlow_residual (p : Path) (s s' : FlowGraph) :
  is_Some (residualGraph_ s) → augmentUnitFlow p s = Some s' →
  is_Some (residualGraph_ s').
Proof.
  apply (augmentUnitFlow_by_writes (λ st, is_Some (residualGraph_ st))).
  intros a f st st' _ E. apply updateArc_eq in E as (rg & _ & _ & ->). done.
Qed.

Section TrackingCoupling.
Variable findShortestPath :
  ResidualGraph → list Node → bool → ShortestPathResult.
Variable maxNumPaths : Z.
Variable partialBFUpdates : bool.
Variable s0 : FlowGraph.
Hypothesis search_forward :
  ∀ rg tg b, forwardPath (baseGraph_ s0) (findShortestPath rg tg b).1.

Lemma trackingLoop_coupling (fuel : nat) (t : Tracking) :
  divisionsWellFormed (tr_graph t) → coupled (tr_graph t) →
  sameNetwork s0 (tr_graph t) →
  let o := trackingLoop findShortestPath maxNumPaths partialBFUpdates fuel t in
  threw o = false → coupled (tr_graph (trackingOf o)).
Proof using search_forward.
  revert t. induction fuel as [|fuel IH]; intros t Hwf Hc Hn; simpl; [done|].
  destruct (residualGraph_ (tr_graph t)) as [rg|] eqn:Hrg; simpl; [|done].
  destruct (aboveTolerance _); simpl; [done|].
  destruct (negativePath _); simpl; [|done].
  destruct (augmentUnitFlow _ _) as [s1|] eqn:E1; simpl; [|done].
  destruct (updateEnabledArcs _ s1) as [s2|] eqn:E2; simpl; [|done].
  assert (coupled s1 ∧ sameNetwork (tr_graph t) s1) as [Hc1 Hn1].
  { revert E1. unfold augmentUnitFlow.
    set (p := (findShortestPath rg (targets_ (tr_graph t)) partialBFUpdates).1).
    assert (safePath p (tr_graph t)) as Hsafe.
    { apply forwardPath_safe. destruct Hn as (-> & _). apply search_forward. }
    clearbody p. clear Hrg E2 IH Hn.
    generalize dependent (tr_graph t). clear t.
    induction p as [|af p IHp]; intros s Hwf Hc Hsafe E.
    - injection E as <-. split; [done | apply sameNetwork_refl].
    - destruct Hsafe as [Hstep Hrest]. cbn [forEach] in E.
      destruct (augmentArc s af) as [sa|] eqn:Ea; [|done].
      cbn [mbind option_bind] in E.
      destruct (augmentArc_coupling_step s af sa Hwf Hc Hstep Ea) as [Hca Hna].
      destruct (IHp sa) as [Hc' Hn']; try done.
      + by apply (divisionsWellFormed_sameNetwork s).
      + by apply Hrest.
      + split; [done | by eapply sameNetwork_trans]. }
  assert (sameBase s1 s2) as Hb.
  { destruct (augmentUnitFlow_residual _ _ _ (mk_is_Some _ _ Hrg) E1)
      as [rg1 Hrg1].
    destruct (updateEnabledArcs_enabling
                (findShortestPath rg (targets_ (tr_graph t))
                   partialBFUpdates).1 s1 rg1 Hrg1) as (s2' & E2' & [Hb _]).
    rewrite E2' in E2. by injection E2 as <-. }
  assert (coupled s2) as Hc2 by by apply (coupled_sameBase s1).
  destruct (underCap _ _); simpl; [|done].
  apply IH; simpl; [|done|].
  - apply (divisionsWellFormed_sameNetwork (tr_graph t)); [|done].
    eapply sameNetwork_trans; [exact Hn1 | by apply sameBase_sameNetwork].
  - eapply sameNetwork_trans; [exact Hn|].
    eapply sameNetwork_trans; [exact Hn1 | by apply sameBase_sameNetwork].
Qed.
End TrackingCoupling.

(** X14: a search that only returns paths pushing flow forward along arcs
    of the graph never uncouples a division pair, unless the call ends in
    an exception.  On a graph whose division maps are inverse to each
    other, whose parents and duplicates have no parallel out-arcs, whose
    duplicate arcs have capacity at most one and carry the flow of the
    paired parent arc capped at one, a call of [maxFlowMinCostTracking]
    that does not throw leaves a graph whose duplicate arcs carry again
    the flow of the paired parent arc capped at one, and
    [synchronizeDivisionDuplicateArcFlows] called afterwards changes no
    flow.  (After an exception the pair may be uncoupled, see
    [tracking_exception_leaves_write].) *)
Theorem tracking_keeps_coupling
    (findShortestPath : ResidualGraph → list Node → bool → ShortestPathResult)
    (maxNumPaths : Z) (partialBFUpdates : bool) (fuel : nat)
    (initialStateEnergy : Q) (useBack useOrdered : bool) (s : FlowGraph) :
  (∀ rg tg b, forwardPath (baseGraph_ s) (findShortestPath rg tg b).1) →
  divisionsWellFormed s → coupled s →
  let o :=
    maxFlowMinCostTracking findShortestPath maxNumPaths partialBFUpdates fuel
      initialStateEnergy useBack useOrdered s in
  let s' := tr_graph (trackingOf o) in
  threw o = false →
  coupled s' ∧
  ∀ x, flowOf (synchronizeDivisionDuplicateArcFlows s') x = flowOf s' x.
Proof.
  intros Hfw Hwf Hc o s' Hret.
  assert (coupled s') as Hc'.
  { subst s' o. revert Hret. unfold maxFlowMinCostTracking.
    destruct (residualGraph_ s) as [rg|] eqn:Hrg.
    - apply (trackingLoop_coupling findShortestPath maxNumPaths
               partialBFUpdates s Hfw); simpl;
        [done | done | apply sameNetwork_refl].
    - destruct (initializeResidualGraph useBack useOrdered s) as [s1|] eqn:E;
        [|done].
      destruct (initializeResidualGraph_Some _ _ _ _ E) as [Hb _].
      apply (trackingLoop_coupling findShortestPath maxNumPaths
               partialBFUpdates s Hfw); simpl.
      + apply (divisionsWellFormed_sameNetwork s); [|done].
        by apply sameBase_sameNetwork.
      + by apply (coupled_sameBase s).
      + by apply sameBase_sameNetwork. }
  split; [done|]. by apply synchronize_coupled_id.
Qed.

Lemma divisionGraph_coupled : coupled divisionGraph.
Proof.
  intros v d oa da [-> ->]%divisionGraph_parents Hoa Hda _.
  vm_compute in Hoa. apply list_elem_of_singleton in Hoa as ->.
  vm_compute in Hda. apply list_elem_of_singleton in Hda as ->.
  by vm_compute.
Qed.

Lemma tracking_keeps_coupling_witness :
  let s' :=
    tr_graph
      (trackingOf
         (maxFlowMinCostTracking (searchWhileFree 0 trackAB) 0 true 5 0%Q
            true true divisionGraph)) in
  coupled s' ∧
  ∀ x, flowOf (synchronizeDivisionDuplicateArcFlows s') x = flowOf s' x.
Proof.
  apply (tracking_keeps_coupling (searchWhileFree 0 trackAB) 0 true 5 0%Q
           true true divisionGraph).
  - intros rg tg b. unfold searchWhileFree. case_bool_decide.
    + repeat (apply Forall_cons; split; [split; [vm_compute; lia | done]|]).
      apply Forall_nil_2.
    + apply Forall_nil_2.
  - split; [exact divisionGraph_mapsWF|].
    split; [exact divisionGraph_simple | exact divisionGraph_arcsUnit].
  - exact divisionGraph_coupled.
  - vm_compute. reflexivity.
Defined.
